(** * MIDI-Launcher: the set parser and the rule engine

    A shallow embedding of [midi_launcher.py]:

    - [parse_user_input], the parser of the numeric-set mini-language of the
      configuration file;
    - the [Command] class (one rule of the configuration): its constructor,
      its field parsers and [execute];
    - the part of [MIDILauncher] that builds the commands and hands every
      incoming message to each of them.

    Python values are embedded as the type [pyval]; printing, the two
    diagnostic sinks of the parser, [subprocess.run] and exceptions are
    embedded in the monad [M] (a log of effects and an outcome).

    Conventions of the embedding:
    - a Python [str] is a list of characters whose code points are below
      256; the character classes used by the program ([\s], [\d],
      [str.isdigit], [str.lower]) are the ones CPython has on that block;
    - a Python [int] is a [Z]; a TOML boolean (a Python [bool], a subclass
      of [int]) is the integer 0 or 1;
    - a Python [float] is a binary64 number ([PrimFloat.float]);
    - an f-string is kept as its list of fragments ([text]);
    - [int()] rejects a literal of more than 4300 digits, the default of
      the interpreter; the other limits of the interpreter (recursion
      depth, memory) are not modelled. *)

From Stdlib Require Import ZArith List String Ascii Bool Lia DecimalString Floats Sorted.
Import ListNotations.
Open Scope Z_scope.

(** ** Strings *)

Definition pystr := list ascii.

Definition lit (s : string) : pystr := list_ascii_of_string s.

Definition code (c : ascii) : N := N_of_ascii c.

Definition between (lo hi n : N) : bool := ((lo <=? n) && (n <=? hi))%N.

(** [\s] of [re] on a [str] pattern. *)
Definition is_space (c : ascii) : bool :=
  between 9 13 (code c) || between 28 32 (code c)
  || (code c =? 133)%N || (code c =? 160)%N.

(** The white space [int()] and [float()] accept around a number. *)
Definition is_blank (c : ascii) : bool :=
  between 9 13 (code c) || (code c =? 32)%N
  || (code c =? 133)%N || (code c =? 160)%N.

(** [\d] of [re] on a [str] pattern, and the digits [int()] accepts. *)
Definition is_decimal (c : ascii) : bool := between 48 57 (code c).

(** The characters [str.isdigit] accepts: the decimal digits and the
    superscript digits. *)
Definition is_digit (c : ascii) : bool :=
  is_decimal c || (code c =? 178)%N || (code c =? 179)%N || (code c =? 185)%N.

Definition digit_val (c : ascii) : Z := Z.of_N (code c) - 48.

Definition lower_char (c : ascii) : ascii :=
  if between 65 90 (code c)
     || (between 192 222 (code c) && negb (code c =? 215)%N)
  then ascii_of_N (code c + 32) else c.

(** [str.lower] *)
Definition lower (s : pystr) : pystr := map lower_char s.

Fixpoint str_eqb (a b : pystr) : bool :=
  match a, b with
  | [], [] => true
  | x :: a', y :: b' => Ascii.eqb x y && str_eqb a' b'
  | _, _ => false
  end.

(** [str.isdigit]: every character is a digit and there is at least one. *)
Definition isdigit (s : pystr) : bool :=
  match s with
  | [] => false
  | _ => forallb is_digit s
  end.

(** [c in s] for a one-character string [c]. *)
Definition char_in (c : ascii) (s : pystr) : bool := existsb (Ascii.eqb c) s.

Fixpoint is_prefix (p s : pystr) : bool :=
  match p, s with
  | [], _ => true
  | a :: p', b :: s' => Ascii.eqb a b && is_prefix p' s'
  | _ :: _, [] => false
  end.

(** [sub in s] for strings. *)
Fixpoint str_in (sub s : pystr) : bool :=
  is_prefix sub s
  || match s with
     | [] => false
     | _ :: s' => str_in sub s'
     end.

(** [s.split(c)] for a one-character separator. *)
Fixpoint split_char_from (c : ascii) (cur s : pystr) : list pystr :=
  match s with
  | [] => [cur]
  | x :: r =>
      if Ascii.eqb x c then cur :: split_char_from c [] r
      else split_char_from c (cur ++ [x]) r
  end.

Definition split_char (c : ascii) (s : pystr) : list pystr :=
  split_char_from c [] s.

(** [re.split(r',\s*|\s+', s)].  A match starts at a comma (and takes the
    white space after it) or at a white space character (and takes the run
    of white space); [in_sep] says that the characters read last belong to a
    match, which further white space extends. *)
Fixpoint re_split_from (in_sep : bool) (cur s : pystr) : list pystr :=
  match s with
  | [] => [cur]
  | c :: r =>
      if Ascii.eqb c ","%char then cur :: re_split_from true [] r
      else if is_space c then
        if in_sep then re_split_from true [] r
        else cur :: re_split_from true [] r
      else re_split_from false (cur ++ [c]) r
  end.

Definition re_split (s : pystr) : list pystr := re_split_from false [] s.

(** [s.replace(old, new)] for a non-empty [old]; [skip] counts the
    characters of a replaced occurrence still to be dropped. *)
Fixpoint replace_from (old new : pystr) (skip : nat) (s : pystr) : pystr :=
  match s with
  | [] => []
  | c :: r =>
      match skip with
      | S k => replace_from old new k r
      | O =>
          if is_prefix old s
          then new ++ replace_from old new (Nat.pred (List.length old)) r
          else c :: replace_from old new 0 r
      end
  end.

Definition replace (old new s : pystr) : pystr := replace_from old new 0 s.

(** The pieces of [s] between the occurrences of a non-empty [old]: what
    [s.replace(old, x)] keeps of [s], in order. *)
Fixpoint pieces_from (old : pystr) (skip : nat) (cur s : pystr) : list pystr :=
  match s with
  | [] => [cur]
  | c :: r =>
      match skip with
      | S k => pieces_from old k cur r
      | O =>
          if is_prefix old s
          then cur :: pieces_from old (Nat.pred (List.length old)) [] r
          else pieces_from old 0 (cur ++ [c]) r
      end
  end.

Definition pieces (old s : pystr) : list pystr := pieces_from old 0 [] s.

(** [str(n)] for an integer.  (The cap on the digits does not matter where
    the program calls [str]: the division by 127 before it raises on an
    integer that long.) *)
Definition str_of_int (n : Z) : pystr :=
  list_ascii_of_string (NilZero.string_of_int (Z.to_int n)).

(** ** Integers: [int(s)] and [range] *)

(** [\s*] at the beginning of [s]: what is left after it. *)
Fixpoint strip_left (s : pystr) : pystr :=
  match s with
  | c :: r => if is_space c then strip_left r else s
  | [] => []
  end.

Fixpoint trim_left (s : pystr) : pystr :=
  match s with
  | c :: r => if is_blank c then trim_left r else s
  | [] => []
  end.

(** [s] without the white space [int()] and [float()] skip at both ends. *)
Definition trim (s : pystr) : pystr := rev (trim_left (rev (trim_left s))).

(** The digits of a decimal literal, single underscores allowed between
    digits; [after_digit] says that the character read last was a digit. *)
Fixpoint int_digits (after_digit : bool) (acc : Z) (s : pystr) : option Z :=
  match s with
  | [] => if after_digit then Some acc else None
  | c :: r =>
      if is_decimal c then int_digits true (10 * acc + digit_val c) r
      else if Ascii.eqb c "_"%char && after_digit then int_digits false acc r
      else None
  end.

(** The most decimal digits [int()] converts
    ([sys.int_info.default_max_str_digits]); it rejects a longer literal. *)
Definition max_str_digits : nat := 4300.

Definition count_decimal (s : pystr) : nat := List.length (filter is_decimal s).

(** [int(s)]; [None] stands for [ValueError]. *)
Definition py_int (s : pystr) : option Z :=
  if (max_str_digits <? count_decimal s)%nat then None
  else
    match trim s with
    | [] => None
    | c :: r =>
        if Ascii.eqb c "-"%char then option_map Z.opp (int_digits false 0 r)
        else if Ascii.eqb c "+"%char then int_digits false 0 r
        else int_digits false 0 (c :: r)
    end.

(** [list(range(start, stop, step))] for a step that is not zero. *)
Definition range_length (start stop step : Z) : nat :=
  if 0 <? step then Z.to_nat ((stop - start + step - 1) / step)
  else Z.to_nat ((start - stop - step - 1) / (- step)).

Definition py_range (start stop step : Z) : list Z :=
  map (fun i => start + Z.of_nat i * step) (seq 0 (range_length start stop step)).

(** ** The pattern of the colon range

    [(?P<start>-?\d+)\s*:\s*(?P<end>-?\d+)\s*(:\s*(?P<step>-?\d+))?]
    matched at the beginning of the string ([pattern.match]). *)

Fixpoint span_decimal (s : pystr) : pystr * pystr :=
  match s with
  | c :: r =>
      if is_decimal c then let (d, t) := span_decimal r in (c :: d, t)
      else ([], s)
  | [] => ([], [])
  end.

(** [-?\d+] at the beginning of [s]: the text matched and the rest. *)
Definition scan_int (s : pystr) : option (pystr * pystr) :=
  match s with
  | [] => None
  | c :: r =>
      if Ascii.eqb c "-"%char then
        match span_decimal r with
        | ([], _) => None
        | (d, t) => Some (c :: d, t)
        end
      else
        match span_decimal s with
        | ([], _) => None
        | (d, t) => Some (d, t)
        end
  end.

(** The optional group [(:\s*(?P<step>-?\d+))?] at the beginning of [s]:
    the text of [step] when the group takes part in the match. *)
Definition match_step (s : pystr) : option pystr :=
  match s with
  | c :: r =>
      if Ascii.eqb c ":"%char then option_map fst (scan_int (strip_left r))
      else None
  | [] => None
  end.

(** The groups [start], [end] and [step] of the match, if there is one. *)
Definition match_colon_range (s : pystr) : option (pystr * pystr * option pystr) :=
  match scan_int s with
  | None => None
  | Some (start, r1) =>
      match strip_left r1 with
      | c :: r2 =>
          if Ascii.eqb c ":"%char then
            match scan_int (strip_left r2) with
            | None => None
            | Some (end_, r3) => Some (start, end_, match_step (strip_left r3))
            end
          else None
      | [] => None
      end
  end.

(** ** Values, texts, effects *)

#[warnings="-register-all"]
Inductive pyval :=
| PInt (n : Z)
| PFloat (f : float)
| PStr (s : pystr)
| PList (l : list pyval)
| PDict (keys : list pystr)   (* a TOML table; only its keys matter here *)
| PNone.

(** A MIDI message as [mido] delivers it: its [type] and the attributes
    that type has.  Channels are numbered from 0. *)
Inductive message :=
| NoteOn (channel note velocity : Z)
| NoteOff (channel note velocity : Z)
| ControlChange (channel control value : Z)
| OtherMessage (type : pystr) (channel : option Z).

(** The fragments of an f-string. *)
Inductive fragment :=
| Lit (s : string)            (* literal text *)
| Fmt (v : pyval)             (* {v} *)
| FmtRange (r : Z * Z)        (* {default_range}, a tuple *)
| FmtType (v : pyval)         (* {type(v)} *)
| FmtMessage (m : message).   (* {message} *)

Definition text := list fragment.

Definition fragment_nonempty (f : fragment) : bool :=
  match f with
  | Lit s => negb (String.eqb s "")
  | Fmt (PStr s) => negb (str_eqb s [])
  | _ => true
  end.

(** Truth value of a string given as a text: it is not empty. *)
Definition text_truthy (t : text) : bool := existsb fragment_nonempty t.

Inductive effect :=
| Error (t : text)            (* print_error(t) *)
| Warning (t : text)          (* print_warning(t) *)
| Stdout (t : text)           (* print(t) *)
| Run (command : text).       (* subprocess.run(command, shell=True, check=False) *)

Inductive exn :=
| ValueError | TypeError | AttributeError | KeyError | IndexError | OverflowError.

(** How a call ends.  [OutOfFuel] is not a Python outcome: it marks a
    recursion of the embedding that was cut off (see [parse_str]). *)
Inductive outcome (A : Type) :=
| Ok (a : A)
| Raise (e : exn)
| OutOfFuel.
Arguments Ok {A} a.
Arguments Raise {A} e.
Arguments OutOfFuel {A}.

(** A computation: the effects it performed, in order, and how it ended. *)
Definition M (A : Type) : Type := list effect * outcome A.

Definition ret {A} (a : A) : M A := ([], Ok a).

Definition bind {A B} (m : M A) (f : A -> M B) : M B :=
  match m with
  | (l, Ok a) => let (l', r) := f a in (l ++ l', r)
  | (l, Raise e) => (l, Raise e)
  | (l, OutOfFuel) => (l, OutOfFuel)
  end.

Definition emit (e : effect) : M unit := ([e], Ok tt).

Definition raise {A} (e : exn) : M A := ([], Raise e).

Definition when (b : bool) (m : M unit) : M unit := if b then m else ret tt.

Declare Scope py_scope.
Delimit Scope py_scope with py.
Notation "x <- m ;; k" := (bind m (fun x => k))
  (at level 61, m at next level, right associativity) : py_scope.
Notation "m ;; k" := (bind m (fun _ => k))
  (at level 61, right associativity) : py_scope.
Open Scope py_scope.

Definition effects {A} (m : M A) : list effect := fst m.
Definition result {A} (m : M A) : outcome A := snd m.

Definition is_warning (e : effect) : bool :=
  match e with Warning _ => true | _ => false end.

(** ** parse_user_input *)

(** [int(s)] as a computation. *)
Definition int_ (s : pystr) : M Z :=
  match py_int s with
  | Some n => ret n
  | None => raise ValueError
  end.

(** [list(range(start, stop, step))]; a zero step raises [ValueError]. *)
Definition range_ (start stop step : Z) : M (list Z) :=
  if step =? 0 then raise ValueError else ret (py_range start stop step).

(** The value of [step] in the colon range: the integer 1 when the group
    did not take part in the match, else the text of the group. *)
Inductive step_value :=
| StepInt (n : Z)
| StepText (s : pystr).

(** [step == 0]: a string is never equal to an integer. *)
Definition step_eq_zero (step : step_value) : bool :=
  match step with
  | StepInt n => n =? 0
  | StepText _ => false
  end.

(** [int(step)] *)
Definition int_step (step : step_value) : M Z :=
  match step with
  | StepInt n => ret n
  | StepText s => int_ s
  end.

Definition outside (n : Z) (default_range : Z * Z) : bool :=
  (n <? fst default_range) || (n >? snd default_range).

(** [for item in items: resulting_list.extend(parse(item))] *)
Fixpoint extend_all {A} (parse : A -> M (list Z)) (items : list A)
    (resulting_list : list Z) : M (list Z) :=
  match items with
  | [] => ret resulting_list
  | item :: rest =>
      r <- parse item ;;
      extend_all parse rest (resulting_list ++ r)
  end.

Section Parser.

Variable default_range : Z * Z.
Variable header_text : text.
Variable range_separator : ascii.

Definition error_header : M unit :=
  when (text_truthy header_text) (emit (Error header_text)).

Definition warning_header : M unit :=
  when (text_truthy header_text) (emit (Warning header_text)).

(** The [str] case after the split into items: a string that [re.split]
    leaves in one piece. *)
Definition parse_item (user_input : pystr) : M (list Z) :=
  if isdigit user_input then
    number <- int_ user_input ;;
    when (outside number default_range)
      (warning_header ;;
       emit (Warning [Lit "Warning: Input value '"; Fmt (PInt number);
                      Lit "' is outside the expected range ";
                      FmtRange default_range; Lit "."])) ;;
    ret [number]
  else
    match match_colon_range (lower user_input) with
    | Some (start, end_, step) =>
        let step := match step with
                    | None => StepInt 1
                    | Some s => StepText s
                    end in
        if step_eq_zero step then
          error_header ;;
          emit (Error [Lit "Error: Step value cannot be zero. Ignoring the range."]) ;;
          ret []
        else
          a <- int_ start ;;
          b <- int_ end_ ;;
          if a >? b then
            error_header ;;
            emit (Error [Lit "Error: Start value is greater than the end value. Ignoring the range."]) ;;
            ret []
          else
            st <- int_step step ;;
            let (start, end_) := if st <? 0 then (end_, start) else (start, end_) in
            a <- int_ start ;;
            b <- int_ end_ ;;
            when ((a <? fst default_range) || (b >? snd default_range))
              (warning_header ;;
               emit (Warning [Lit "Warning: Range '"; Fmt (PStr user_input);
                              Lit "' is outside the expected range ";
                              FmtRange default_range; Lit "."])) ;;
            a <- int_ start ;;
            b <- int_ end_ ;;
            st <- int_step step ;;
            range_ a (b + 1) st
    | None =>
        if char_in range_separator user_input then
          match
            match split_char range_separator user_input with
            | [start; end_] =>
                match py_int start, py_int end_ with
                | Some a, Some b => Some (a, b)
                | _, _ => None
                end
            | _ => None
            end
          with
          | None =>
              error_header ;;
              emit (Error [Lit "Error parsing the range: '"; Fmt (PStr user_input);
                           Lit "'. Ignoring the range."]) ;;
              ret []
          | Some (start, end_) =>
              if start >? end_ then
                error_header ;;
                emit (Error [Lit "Error: Start value is greater than the end value. Ignoring the range."]) ;;
                ret []
              else
                when ((start <? fst default_range) || (end_ >? snd default_range))
                  (warning_header ;;
                   emit (Warning [Lit "Warning: Range '"; Fmt (PInt start);
                                  Fmt (PStr [range_separator]); Fmt (PInt end_);
                                  Lit "' is outside the expected range ";
                                  FmtRange default_range; Lit "."])) ;;
                ret (py_range start (end_ + 1) 1)
          end
        else
          error_header ;;
          emit (Error [Lit "Error parsing the input: '"; Fmt (PStr user_input);
                       Lit "'. Ignoring the input."]) ;;
          ret []
    end.

(** The [str] case of [parse_user_input].  The recursive calls on the
    items of a split string are calls on shorter strings; [fuel] bounds
    their depth. *)
Fixpoint parse_str (fuel : nat) (user_input : pystr) : M (list Z) :=
  match fuel with
  | O => ([], OutOfFuel)
  | S fuel' =>
      if str_eqb user_input [] then ret []
      else if str_eqb user_input (lit "all") then
        ret (py_range (fst default_range) (snd default_range + 1) 1)
      else
        let items := re_split user_input in
        if (1 <? List.length items)%nat
        then extend_all (parse_str fuel') items []
        else parse_item user_input
  end.

Definition warn_item (item : Z) : M unit :=
  when (outside item default_range)
    (warning_header ;;
     emit (Warning [Lit "Warning: Input value "; Fmt (PInt item);
                    Lit " is outside the expected range ";
                    FmtRange default_range; Lit "."])).

Fixpoint parse_user_input (user_input : pyval) : M (list Z) :=
  match user_input with
  | PInt n =>
      when (outside n default_range)
        (warning_header ;;
         emit (Warning [Lit "Warning: Input value '"; Fmt (PInt n);
                        Lit "' is outside the expected range ";
                        FmtRange default_range; Lit "."])) ;;
      ret [n]
  | PStr s => parse_str (S (List.length s)) s
  | PList l =>
      extend_all
        (fun item =>
           match item with
           | PInt i => warn_item i ;; ret [i]
           | PStr _ | PList _ => parse_user_input item
           | _ => ret []
           end) l []
  | _ =>
      error_header ;;
      emit (Error [Lit "Error parsing the input. Expected a number, a string, or a list, but got '";
                   FmtType user_input; Lit "'. Ignoring the input.
"]) ;;
      ret []
  end.

End Parser.


(** ** Floating-point numbers *)

Definition signed (s : bool) (m : positive) : Z := if s then Z.neg m else Z.pos m.

(** The binary64 number nearest to [n / d] (ties to even), for [0 < d];
    [szero] is the sign of the result when [n] is zero. *)
Definition nearest_float (szero : bool) (n d : Z) : float :=
  match n with
  | 0 => SF2Prim (S754_zero szero)
  | _ =>
      let '(q, e, l) := SFdiv_core_binary prec emax (Z.abs n) 0 d 0 in
      SF2Prim (binary_round_aux prec emax (n <? 0) q e l)
  end.

(** Conversion of an [int] operand to [float]. *)
Definition float_of_int (n : Z) : M float :=
  let f := nearest_float false n 1 in
  if is_infinity f then raise OverflowError else ret f.

(** [a / b] for two [int]s, [0 < b]. *)
Definition int_truediv (a b : Z) : M float :=
  let f := nearest_float false a b in
  if is_infinity f then raise OverflowError else ret f.

(** The integer nearest to [n / d] (ties to even), for [0 < d]. *)
Definition round_half_even (n d : Z) : Z :=
  let q := n / d in
  match (2 * (n mod d) ?= d) with
  | Lt => q
  | Gt => q + 1
  | Eq => if Z.even q then q else q + 1
  end.

(** [round(x)] for a [float]. *)
Definition py_round (x : float) : M Z :=
  match Prim2SF x with
  | S754_nan => raise ValueError
  | S754_infinity _ => raise OverflowError
  | S754_zero _ => ret 0
  | S754_finite s m e =>
      ret (if 0 <=? e then signed s m * 2 ^ e
           else round_half_even (signed s m) (2 ^ (- e)))
  end.

(** [round(x, 2)] for a [float]: [x] is rounded to two decimal places
    (ties to even, on the exact value of [x]) and the decimal obtained is
    converted back to the nearest [float]. *)
Definition py_round2 (x : float) : M float :=
  match Prim2SF x with
  | S754_finite s m e =>
      let hundredths :=
        if 0 <=? e then Z.pos m * 2 ^ e * 100
        else round_half_even (Z.pos m * 100) (2 ^ (- e)) in
      let f := nearest_float s (if s then - hundredths else hundredths) 100 in
      if is_infinity f then raise OverflowError else ret f
  | _ => ret x
  end.

(** [f == n] for a [float] and an [int] (an exact comparison). *)
Definition float_eq_int (f : float) (n : Z) : bool :=
  match Prim2SF f with
  | S754_zero _ => n =? 0
  | S754_finite s m e =>
      if 0 <=? e then signed s m * 2 ^ e =? n
      else (signed s m mod 2 ^ (- e) =? 0) && (signed s m / 2 ^ (- e) =? n)
  | _ => false
  end.

(** *** [float(s)] for a string *)

(** The underscores of a numeric literal are dropped; each must stand
    between two digits. *)
Fixpoint drop_underscores (prev : option ascii) (s : pystr) : option pystr :=
  match s with
  | [] =>
      match prev with
      | Some p => if Ascii.eqb p "_"%char then None else Some []
      | None => Some []
      end
  | c :: r =>
      let prev_digit := match prev with Some p => is_decimal p | None => false end in
      let prev_underscore :=
        match prev with Some p => Ascii.eqb p "_"%char | None => false end in
      if Ascii.eqb c "_"%char then
        if prev_digit then drop_underscores (Some c) r else None
      else if prev_underscore && negb (is_decimal c) then None
      else option_map (cons c) (drop_underscores (Some c) r)
  end.

Definition digits_value (d : pystr) : Z :=
  fold_left (fun acc c => 10 * acc + digit_val c) d 0.

(** An optional sign at the beginning of [s]: is it negative, and the rest. *)
Definition scan_sign (s : pystr) : bool * pystr :=
  match s with
  | c :: r =>
      if Ascii.eqb c "-"%char then (true, r)
      else if Ascii.eqb c "+"%char then (false, r)
      else (false, s)
  | [] => (false, [])
  end.

(** The exponent part of a decimal literal, [e] or [E], an optional sign
    and digits, up to the end of the string; [Some 0] when there is none. *)
Definition scan_exponent (s : pystr) : option Z :=
  match s with
  | [] => Some 0
  | c :: r =>
      if Ascii.eqb (lower_char c) "e"%char then
        let (neg, r') := scan_sign r in
        match span_decimal r' with
        | ([], _) => None
        | (d, []) => Some (if neg then - digits_value d else digits_value d)
        | (_, _ :: _) => None
        end
      else None
  end.

(** [float(s)]; [None] stands for [ValueError]. *)
Definition py_float (s : pystr) : option float :=
  match drop_underscores None (trim s) with
  | None => None
  | Some t =>
      let (neg, body) := scan_sign t in
      let word := lower body in
      if str_eqb word (lit "inf") || str_eqb word (lit "infinity")
      then Some (if neg then neg_infinity else infinity)
      else if str_eqb word (lit "nan") then Some nan
      else
        let (ipart, r1) := span_decimal body in
        let (fpart, r2) :=
          match r1 with
          | c :: r => if Ascii.eqb c "."%char then span_decimal r else ([], r1)
          | [] => ([], [])
          end in
        match ipart ++ fpart with
        | [] => None
        | digits =>
            match scan_exponent r2 with
            | None => None
            | Some ex =>
                let m := digits_value digits in
                let e10 := ex - Z.of_nat (List.length fpart) in
                let m := if neg then - m else m in
                Some (if 0 <=? e10 then nearest_float neg (m * 10 ^ e10) 1
                      else nearest_float neg m (10 ^ (- e10)))
            end
        end
  end.

(** ** Operations on values *)

(** Truth value. *)
Definition truthy (v : pyval) : bool :=
  match v with
  | PInt n => negb (n =? 0)
  | PFloat f => negb (is_zero f)
  | PStr s => negb (str_eqb s [])
  | PList l => match l with [] => false | _ => true end
  | PDict k => match k with [] => false | _ => true end
  | PNone => false
  end.

(** [v == s] for a string [s]. *)
Definition eq_pystr (v : pyval) (s : pystr) : bool :=
  match v with
  | PStr t => str_eqb t s
  | _ => false
  end.

Definition eq_str (v : pyval) (s : string) : bool := eq_pystr v (lit s).

(** [v == [s]] for a string [s]. *)
Definition eq_str_list1 (v : pyval) (s : string) : bool :=
  match v with
  | PList [PStr t] => str_eqb t (lit s)
  | _ => false
  end.

(** [e == n] for an element [e] of a list and an [int] [n]. *)
Definition eq_int (n : Z) (e : pyval) : bool :=
  match e with
  | PInt k => k =? n
  | PFloat f => float_eq_int f n
  | _ => false
  end.

(** [n in v] for an [int] [n]. *)
Definition contains (v : pyval) (n : Z) : M bool :=
  match v with
  | PList l => ret (existsb (eq_int n) l)
  | PDict _ => ret false
  | _ => raise TypeError
  end.

(** [v[i]] *)
Definition getitem (v : pyval) (i : nat) : M pyval :=
  match v with
  | PList l =>
      match nth_error l i with
      | Some x => ret x
      | None => raise IndexError
      end
  | PStr s =>
      match nth_error s i with
      | Some c => ret (PStr [c])
      | None => raise IndexError
      end
  | PDict _ => raise KeyError
  | _ => raise TypeError
  end.

(** [a - b] *)
Definition py_sub (a b : pyval) : M pyval :=
  match a, b with
  | PInt x, PInt y => ret (PInt (x - y))
  | PInt x, PFloat y => fx <- float_of_int x ;; ret (PFloat (fx - y))
  | PFloat x, PInt y => fy <- float_of_int y ;; ret (PFloat (x - fy))
  | PFloat x, PFloat y => ret (PFloat (x - y))
  | _, _ => raise TypeError
  end.

(** [x * b] for a [float] [x]. *)
Definition float_mul (x : float) (b : pyval) : M float :=
  match b with
  | PInt y => fy <- float_of_int y ;; ret (x * fy)%float
  | PFloat y => ret (x * y)%float
  | _ => raise TypeError
  end.

(** [a + y] for a [float] [y]. *)
Definition add_float (a : pyval) (y : float) : M float :=
  match a with
  | PInt x => fx <- float_of_int x ;; ret (fx + y)%float
  | PFloat x => ret (x + y)%float
  | _ => raise TypeError
  end.

(** ** Messages *)

Definition msg_type (m : message) : pystr :=
  match m with
  | NoteOn _ _ _ => lit "note_on"
  | NoteOff _ _ _ => lit "note_off"
  | ControlChange _ _ _ => lit "control_change"
  | OtherMessage t _ => t
  end.

Definition msg_channel (m : message) : M Z :=
  match m with
  | NoteOn c _ _ | NoteOff c _ _ | ControlChange c _ _ => ret c
  | OtherMessage _ (Some c) => ret c
  | OtherMessage _ None => raise AttributeError
  end.

Definition msg_note (m : message) : M Z :=
  match m with
  | NoteOn _ n _ | NoteOff _ n _ => ret n
  | _ => raise AttributeError
  end.

Definition msg_velocity (m : message) : M Z :=
  match m with
  | NoteOn _ _ v | NoteOff _ _ v => ret v
  | _ => raise AttributeError
  end.

Definition msg_control (m : message) : M Z :=
  match m with
  | ControlChange _ c _ => ret c
  | _ => raise AttributeError
  end.

Definition msg_value (m : message) : M Z :=
  match m with
  | ControlChange _ _ v => ret v
  | _ => raise AttributeError
  end.

(** ** The Command class *)

(** The attributes of a [Command] object. *)
Record Command := {
  active : pyval;
  channels : pyval;
  command : pyval;
  control : pyval;
  event : pyval;
  mapping : pyval;
  name : pyval;
  note : pyval;
  ports : pyval;
  values : pyval;
  velocities : pyval
}.

Definition set_active (self : Command) (v : pyval) : Command :=
  {| active := v; channels := channels self; command := command self;
     control := control self; event := event self; mapping := mapping self;
     name := name self; note := note self; ports := ports self;
     values := values self; velocities := velocities self |}.

Definition set_channels (self : Command) (v : pyval) : Command :=
  {| active := active self; channels := v; command := command self;
     control := control self; event := event self; mapping := mapping self;
     name := name self; note := note self; ports := ports self;
     values := values self; velocities := velocities self |}.

Definition set_control (self : Command) (v : pyval) : Command :=
  {| active := active self; channels := channels self; command := command self;
     control := v; event := event self; mapping := mapping self;
     name := name self; note := note self; ports := ports self;
     values := values self; velocities := velocities self |}.

Definition set_mapping (self : Command) (v : pyval) : Command :=
  {| active := active self; channels := channels self; command := command self;
     control := control self; event := event self; mapping := v;
     name := name self; note := note self; ports := ports self;
     values := values self; velocities := velocities self |}.

Definition set_note (self : Command) (v : pyval) : Command :=
  {| active := active self; channels := channels self; command := command self;
     control := control self; event := event self; mapping := mapping self;
     name := name self; note := v; ports := ports self;
     values := values self; velocities := velocities self |}.

Definition set_ports (self : Command) (v : pyval) : Command :=
  {| active := active self; channels := channels self; command := command self;
     control := control self; event := event self; mapping := mapping self;
     name := name self; note := note self; ports := v;
     values := values self; velocities := velocities self |}.

Definition set_values (self : Command) (v : pyval) : Command :=
  {| active := active self; channels := channels self; command := command self;
     control := control self; event := event self; mapping := mapping self;
     name := name self; note := note self; ports := ports self;
     values := v; velocities := velocities self |}.

Definition set_velocities (self : Command) (v : pyval) : Command :=
  {| active := active self; channels := channels self; command := command self;
     control := control self; event := event self; mapping := mapping self;
     name := name self; note := note self; ports := ports self;
     values := values self; velocities := v |}.

(** A table of the configuration file: keys and values. *)
Definition config := list (string * pyval).

(** [config.get(key, default)] *)
Fixpoint get (cfg : config) (key : string) (default : pyval) : pyval :=
  match cfg with
  | [] => default
  | (k, v) :: rest => if String.eqb k key then v else get rest key default
  end.

(** The list a field parser stores. *)
Definition int_list (l : list Z) : pyval := PList (map PInt l).

Definition default_mapping : pyval := PList [PInt 0; PInt 127].

(** [parse_user_input(field, default_range=..., header_text=f"Command
    (... field): {self.name}\n")], the other arguments at their defaults. *)
Definition parse_field (self : Command) (field : pyval) (default_range : Z * Z)
    (label : string) : M pyval :=
  r <- parse_user_input default_range
         [Lit "Command ("; Lit label; Lit " field): "; Fmt (name self); Lit "
"]
         "-"%char field ;;
  ret (int_list r).

Definition parse_channels (self : Command) : M Command :=
  v <- parse_field self (channels self) (1, 16) "channels" ;;
  ret (set_channels self v).

Definition parse_controls (self : Command) : M Command :=
  v <- parse_field self (control self) (0, 127) "controls" ;;
  ret (set_control self v).

Definition parse_notes (self : Command) : M Command :=
  v <- parse_field self (note self) (0, 127) "note" ;;
  ret (set_note self v).

Definition parse_values (self : Command) : M Command :=
  v <- parse_field self (values self) (0, 127) "values" ;;
  ret (set_values self v).

Definition parse_velocities (self : Command) : M Command :=
  v <- parse_field self (velocities self) (0, 127) "velocities" ;;
  ret (set_velocities self v).

(** [[float(item) for item in items]]; [None] stands for [ValueError]. *)
Fixpoint floats_of (items : list pystr) : option (list float) :=
  match items with
  | [] => Some []
  | item :: rest =>
      match py_float item with
      | None => None
      | Some f => option_map (cons f) (floats_of rest)
      end
  end.

Definition mapping_error (self : Command) : M unit :=
  emit (Stdout [Lit "Command: "; Fmt (name self)]) ;;
  emit (Stdout [Lit "Error parsing the mapping field: '"; Fmt (mapping self);
               Lit "'. Ignoring the mapping field.
"]).

Definition parse_mapping (self : Command) : M Command :=
  match mapping self with
  | PList l =>
      if (List.length l =? 2)%nat then ret self
      else
        mapping_error self ;;
        ret (set_mapping self default_mapping)
  | PStr s =>
      if str_eqb s (lit "all") then ret (set_mapping self default_mapping)
      else
        match floats_of (split_char ","%char s) with
        | None =>
            mapping_error self ;;
            ret self
        | Some fl =>
            let self := set_mapping self (PList (map PFloat fl)) in
            if negb (List.length fl =? 2)%nat then
              let self := set_mapping self default_mapping in
              mapping_error self ;;
              ret self
            else ret self
        end
  | _ => ret self
  end.

(** [[port.lower() for port in ports]] *)
Fixpoint lower_all (l : list pyval) : M (list pyval) :=
  match l with
  | [] => ret []
  | PStr s :: rest => r <- lower_all rest ;; ret (PStr (lower s) :: r)
  | _ :: _ => raise AttributeError
  end.

Definition parse_ports (self : Command) : M Command :=
  when (eq_str (ports self) "")
    (emit (Stdout [Lit "Command: "; Fmt (name self)]) ;;
     emit (Stdout [Lit "Warning: Empty 'ports' field matches all ports.
"])) ;;
  let self := if eq_str (ports self) "all"
              then set_ports self (PList [PStr (lit "all")]) else self in
  let self := match ports self with
              | PStr s => set_ports self (PList [PStr (lower s)])
              | _ => self
              end in
  match ports self with
  | PList l => l' <- lower_all l ;; ret (set_ports self (PList l'))
  | _ => ret self
  end.

(** [str(self.event).lower() in ('note_on', 'note_off', 'control_change')].
    The text of a value that is not a string is none of the three. *)
Definition valid_event (ev : pyval) : bool :=
  match ev with
  | PStr s =>
      existsb (str_eqb (lower s))
        [lit "note_on"; lit "note_off"; lit "control_change"]
  | _ => false
  end.

(** [Command.__init__] *)
Definition Command_init (cfg : config) : M Command :=
  let self :=
    {| active := get cfg "active" (PInt 1);
       channels := get cfg "channels" (PStr (lit "all"));
       command := get cfg "command" PNone;
       control := get cfg "control" (PStr (lit "all"));
       event := get cfg "event" PNone;
       mapping := get cfg "mapping" default_mapping;
       name := get cfg "name" PNone;
       note := get cfg "note" (PStr (lit "all"));
       ports := get cfg "ports" (PStr (lit "all"));
       values := get cfg "values" (PStr (lit "all"));
       velocities := get cfg "velocities" (PStr (lit "all")) |} in
  if negb (valid_event (event self)) then
    emit (Stdout [Lit "Error: Invalid event type '{self.event}'. Ignoring the command."]) ;;
    ret (set_active self (PInt 0))
  else
    self <- parse_channels self ;;
    self <- parse_controls self ;;
    self <- parse_mapping self ;;
    self <- parse_notes self ;;
    self <- parse_ports self ;;
    self <- parse_values self ;;
    parse_velocities self.

(** [[port in port_name for port in ports]] *)
Definition port_matches (ports : pyval) (port_name : pystr) : M (list bool) :=
  match ports with
  | PList l =>
      (fix each (l : list pyval) : M (list bool) :=
         match l with
         | [] => ret []
         | PStr p :: rest => r <- each rest ;; ret (str_in p port_name :: r)
         | _ :: _ => raise TypeError
         end) l
  | PStr s => ret (map (fun c => str_in [c] port_name) s)
  | PDict keys => ret (map (fun k => str_in k port_name) keys)
  | _ => raise TypeError
  end.

Definition any (l : list bool) : bool := existsb (fun b => b) l.

(** The text of the command after the four [replace] calls: the last one
    puts [str(decimal)] between the pieces of the string. *)
Fixpoint join_decimal (decimal : float) (ps : list pystr) : text :=
  match ps with
  | [] => []
  | [p] => [Fmt (PStr p)]
  | p :: rest => Fmt (PStr p) :: Fmt (PFloat decimal) :: join_decimal decimal rest
  end.

Definition substitute (template : pystr) (value percentage : Z) (decimal : float) : text :=
  let c := replace (lit "$VELOCITY") (str_of_int value) template in
  let c := replace (lit "$VALUE") (str_of_int value) c in
  let c := replace (lit "$PERCENTAGE") (str_of_int percentage) c in
  join_decimal decimal (pieces (lit "$DECIMAL") c).

Definition debug (verbosity_level : Z) (self : Command) (what : string) : M unit :=
  when (verbosity_level >=? 2)
    (emit (Stdout [Lit "Command '"; Fmt (name self); Lit what])).

(** The part of [execute] that depends on the kind of event: [None] when
    the method returns there, else the value of the message. *)
Definition match_kind (self : Command) (message : message) (verbosity_level : Z)
  : M (option Z) :=
  if eq_str (event self) "note_on" || eq_str (event self) "note_off" then
    note_fails <-
      (if negb (eq_str (note self) "all") then
         n <- msg_note message ;;
         b <- contains (note self) n ;;
         ret (negb b)
       else ret false) ;;
    if note_fails : bool then
      debug verbosity_level self "' does not match the note." ;;
      ret None
    else
      v <- msg_velocity message ;;
      b <- contains (velocities self) v ;;
      if negb b then
        debug verbosity_level self "' does not match the velocity." ;;
        ret None
      else
        v <- msg_velocity message ;;
        ret (Some v)
  else if eq_str (event self) "control_change" then
    c <- msg_control message ;;
    b <- contains (control self) c ;;
    if negb b then
      debug verbosity_level self "' does not match the control." ;;
      ret None
    else
      v <- msg_value message ;;
      b <- contains (values self) v ;;
      if negb b then
        debug verbosity_level self "' does not match the value." ;;
        ret None
      else
        v <- msg_value message ;;
        ret (Some v)
  else ret (Some 0).

(** [percentage = round(value / 127 * 100)] *)
Definition percentage_of (value : Z) : M Z :=
  q <- int_truediv value 127 ;;
  hundred <- float_of_int 100 ;;
  py_round (q * hundred)%float.

(** [decimal = round(mapping[0] + value / 127 * (mapping[1] - mapping[0]), 2)] *)
Definition decimal_of (mapping : pyval) (value : Z) : M float :=
  low <- getitem mapping 0 ;;
  q <- int_truediv value 127 ;;
  high <- getitem mapping 1 ;;
  low' <- getitem mapping 0 ;;
  width <- py_sub high low' ;;
  scaled <- float_mul q width ;;
  sum <- add_float low scaled ;;
  py_round2 sum.

(** The tests of [execute]: [None] when the method returns at one of them
    (the message does not match), else the value of the message. *)
Definition match_message (self : Command) (message : message) (port_name : pystr)
    (verbosity_level : Z) : M (option Z) :=
  if negb (truthy (active self)) then
    debug verbosity_level self "' is not active." ;;
    ret None
  else if negb (eq_pystr (event self) (msg_type message)) then
    debug verbosity_level self "' does not match the message type." ;;
    ret None
  else
    port_name_matches <- port_matches (ports self) (lower port_name) ;;
    if negb (eq_str_list1 (ports self) "all") && negb (any port_name_matches) then
      debug verbosity_level self "' does not match the port." ;;
      ret None
    else
      c <- msg_channel message ;;
      let channel := c + 1 in
      b <- contains (channels self) channel ;;
      if negb b then
        debug verbosity_level self "' does not match the channel." ;;
        ret None
      else match_kind self message verbosity_level.

(** The end of [execute], after the tests: the placeholders are replaced
    and the command is launched. *)
Definition launch (self : Command) (value : Z) (verbosity_level : Z) : M unit :=
  percentage <- percentage_of value ;;
  decimal <- decimal_of (mapping self) value ;;
  match command self with
  | PStr template =>
      let c := substitute template value percentage decimal in
      when (negb (verbosity_level =? 0))
        (emit (Stdout ([Lit "Executing command '"; Fmt (name self); Lit "': "] ++ c))) ;;
      emit (Run c)
  | _ => raise AttributeError
  end.

(** [Command.execute] *)
Definition execute (self : Command) (message : message) (port_name : pystr)
    (verbosity_level : Z) : M unit :=
  v <- match_message self message port_name verbosity_level ;;
  match v with
  | None => ret tt
  | Some value => launch self value verbosity_level
  end.

(** ** The MIDILauncher class *)

Record MIDILauncher := {
  verbosity_level : Z;
  commands : list Command;
  ignore_clock : bool
}.

(** The loop of [parse_config_file] over the tables of the [commands]
    array: an empty table is skipped, every other one makes a [Command]
    that is appended to [self.commands]. *)
Fixpoint load_commands (tables : list config) (commands : list Command)
  : M (list Command) :=
  match tables with
  | [] => ret commands
  | cmd :: rest =>
      match cmd with
      | [] => load_commands rest commands
      | _ =>
          c <- Command_init cmd ;;
          load_commands rest (commands ++ [c])
      end
  end.

(** [MIDILauncher.__init__], for the tables of the configuration file. *)
Definition MIDILauncher_init (tables : list config) (verbosity : Z)
    (ignore_clock : bool) : M MIDILauncher :=
  cs <- load_commands tables [] ;;
  ret {| verbosity_level := verbosity; commands := cs;
         ignore_clock := ignore_clock |}.

(** [for command in self.commands: command.execute(message, port.name,
    verbosity_level=self.verbosity_level)] *)
Fixpoint execute_all (cs : list Command) (message : message) (port_name : pystr)
    (verbosity : Z) : M unit :=
  match cs with
  | [] => ret tt
  | c :: rest =>
      execute c message port_name verbosity ;;
      execute_all rest message port_name verbosity
  end.

(** The body of the polling loop of [run] for one pending message of a
    port. *)
Definition handle_message (self : MIDILauncher) (port_name : pystr)
    (message : message) : M unit :=
  if ignore_clock self && str_eqb (msg_type message) (lit "clock") then ret tt
  else
    when (verbosity_level self >=? 2)
      (emit (Stdout [Lit "
"; Fmt (PStr (hd [] (split_char ":"%char port_name)));
                    Lit ": "; FmtMessage message])) ;;
    execute_all (commands self) message port_name (verbosity_level self).

(** One round of the polling loop: every pending message of every open
    port, in order. *)
Fixpoint poll (self : MIDILauncher) (pending : list (pystr * list message))
  : M unit :=
  match pending with
  | [] => ret tt
  | (port_name, messages) :: rest =>
      (fix each (ms : list message) : M unit :=
         match ms with
         | [] => ret tt
         | m :: ms' => handle_message self port_name m ;; each ms'
         end) messages ;;
      poll self rest
  end.

(** The commands among a list of effects, in order. *)
Definition runs (l : list effect) : list text :=
  flat_map (fun e => match e with Run c => [c] | _ => [] end) l.

(** What a computation sent to the action sink, in order. *)
Definition dispatches {A} (m : M A) : list text := runs (effects m).

(** A computation without effect. *)
Definition pure {A} (m : M A) : Prop := effects m = [].

(** A computation that launches nothing. *)
Definition quiet {A} (m : M A) : Prop := dispatches m = [].


(** ** Vocabulary of the statements *)

(** A text that [-?\d+] matches whole: an optional minus sign and at least
    one decimal digit. *)
Definition is_signed_digits (s : pystr) : bool :=
  match s with
  | [] => false
  | c :: r =>
      if Ascii.eqb c "-"%char
      then match r with [] => false | _ => forallb is_decimal r end
      else forallb is_decimal s
  end.

(** An integer literal of the colon range: such a text, with no more
    digits than [int()] converts. *)
Definition is_int_literal (s : pystr) : bool :=
  is_signed_digits s && (count_decimal s <=? max_str_digits)%nat.

(** The integer such a text denotes. *)
Definition literal_value (s : pystr) : Z :=
  match s with
  | [] => 0
  | c :: r => if Ascii.eqb c "-"%char then - digits_value r else digits_value s
  end.

(** A character [re.split] does not split at. *)
Definition not_separator (c : ascii) : bool :=
  negb (Ascii.eqb c ","%char) && negb (is_space c).

(** A token: a string without comma and white space. *)
Definition is_token (s : pystr) : bool := forallb not_separator s.

Definition starts_with_decimal (s : pystr) : bool :=
  match s with
  | c :: _ => is_decimal c
  | [] => false
  end.

(** What the colon branch of [parse_item] computes from the values of the
    three groups. *)
Definition colon_branch (dr : Z * Z) (h : text) (user_input : pystr)
    (va vb st : Z) : M (list Z) :=
  if va >? vb then
    ((if text_truthy h then [Error h] else [])
       ++ [Error [Lit "Error: Start value is greater than the end value. Ignoring the range."]],
     Ok [])
  else
    let x := if st <? 0 then vb else va in
    let y := if st <? 0 then va else vb in
    (if (x <? fst dr) || (y >? snd dr)
     then (if text_truthy h then [Warning h] else [])
            ++ [Warning [Lit "Warning: Range '"; Fmt (PStr user_input);
                         Lit "' is outside the expected range ";
                         FmtRange dr; Lit "."]]
     else [],
     if st =? 0 then Raise ValueError else Ok (py_range x (y + 1) st)).

(** A computation of the embedding that was not cut off. *)
Definition terminates {A} (m : M A) : Prop := result m <> OutOfFuel.

(** ** Vocabulary of the further properties *)

(** A computation that raises no exception but [e]. *)
Definition raises_only {A} (e : exn) (m : M A) : Prop :=
  forall e', result m = Raise e' -> e' = e.

(** A string of decimal digits that [int()] converts. *)
Definition is_digits (s : pystr) : bool :=
  match s with
  | [] => false
  | _ => forallb is_decimal s
  end && (List.length s <=? max_str_digits)%nat.

(** Tokens joined by commas. *)
Fixpoint join_comma (ts : list pystr) : pystr :=
  match ts with
  | [] => []
  | [t] => t
  | t :: rest => t ++ ","%char :: join_comma rest
  end.

(** The elements of a list [parse_user_input] looks at. *)
Definition supported (v : pyval) : bool :=
  match v with
  | PInt _ | PStr _ | PList _ => true
  | _ => false
  end.

(** [n in l] for a list of integers. *)
Definition member (n : Z) (l : list Z) : bool := existsb (fun k => k =? n) l.

(** The three kinds of event of a rule. *)
Definition kinds : list pystr :=
  [lit "note_on"; lit "note_off"; lit "control_change"].

(** A message of one of the three kinds is built with the constructor of
    its kind (it has the attributes of the kind). *)
Definition well_formed (m : message) : bool :=
  match m with
  | OtherMessage t _ => negb (existsb (str_eqb t) kinds)
  | _ => true
  end.

(** The data byte a rule passes on lies between 0 and 127. *)
Definition data_in_range (m : message) : bool :=
  match m with
  | NoteOn _ _ v | NoteOff _ _ v | ControlChange _ _ v => (0 <=? v) && (v <=? 127)
  | OtherMessage _ _ => true
  end.

(** The selector fields of a rule are lists of integers. *)
Definition selectors (c : Command) (chs cts nts vals vels : list Z) : Prop :=
  channels c = int_list chs /\ control c = int_list cts /\ note c = int_list nts
  /\ values c = int_list vals /\ velocities c = int_list vels.

(** The port test: the list is [['all']], or one of its names occurs in
    the name of the port written in lower case. *)
Definition port_passes (ps : list pystr) (port_name : pystr) : bool :=
  match ps with
  | [p] => str_eqb p (lit "all")
  | _ => false
  end
  || existsb (fun p => str_in p (lower port_name)) ps.

(** The selection by channel and data: the value passed on when the
    channel (counted from 1) and the two data bytes of the message are in
    the lists of the rule. *)
Definition selected (chs cts nts vals vels : list Z) (m : message) : option Z :=
  match m with
  | NoteOn ch n v | NoteOff ch n v =>
      if member (ch + 1) chs && member n nts && member v vels then Some v else None
  | ControlChange ch ct v =>
      if member (ch + 1) chs && member ct cts && member v vals then Some v else None
  | OtherMessage _ _ => None
  end.

(** The header of the diagnostics of a field of a rule. *)
Definition field_header (cfg : config) (label : string) : text :=
  [Lit "Command ("; Lit label; Lit " field): "; Fmt (get cfg "name" PNone); Lit "
"].

(** The value of a field of a table after [parse_user_input]. *)
Definition parsed_field (cfg : config) (key label : string) (dr : Z * Z)
    (l : list Z) : Prop :=
  result (parse_user_input dr (field_header cfg label) "-"%char
            (get cfg key (PStr (lit "all")))) = Ok l.

(** The tables of a configuration that are not empty. *)
Definition not_empty (cfg : config) : bool :=
  match cfg with [] => false | _ => true end.

(** * Properties *)

(** ** The monad *)

Lemma bind_ret_l {A B} (a : A) (f : A -> M B) : bind (ret a) f = f a.
Proof. unfold bind, ret. destruct (f a). reflexivity. Qed.

Lemma bind_ret_r {A} (m : M A) : bind m ret = m.
Proof.
  destruct m as [l [a | e |]]; simpl; try reflexivity.
  rewrite app_nil_r. reflexivity.
Qed.

Lemma bind_assoc {A B C} (m : M A) (f : A -> M B) (g : B -> M C) :
  bind (bind m f) g = bind m (fun a => bind (f a) g).
Proof.
  destruct m as [l [a | e |]]; simpl; try reflexivity.
  destruct (f a) as [l1 [b | e |]]; simpl; try reflexivity.
  - destruct (g b) as [l2 r]. rewrite app_assoc. reflexivity.
Qed.

Lemma bind_ext {A B} (m : M A) (f g : A -> M B) :
  (forall a, f a = g a) -> bind m f = bind m g.
Proof.
  intros H. destruct m as [l [a | e |]]; simpl; try reflexivity.
  rewrite H. reflexivity.
Qed.

Lemma effects_bind_ok {A B} (m : M A) (f : A -> M B) (a : A) :
  result m = Ok a -> effects (bind m f) = effects m ++ effects (f a).
Proof.
  destruct m as [l r]. simpl. intros ->. simpl. destruct (f a). reflexivity.
Qed.

Lemma result_bind_ok {A B} (m : M A) (f : A -> M B) (a : A) :
  result m = Ok a -> result (bind m f) = result (f a).
Proof.
  destruct m as [l r]. simpl. intros ->. simpl. destruct (f a). reflexivity.
Qed.

Lemma runs_app (l l' : list effect) : runs (l ++ l') = runs l ++ runs l'.
Proof. unfold runs. apply flat_map_app. Qed.

Lemma effects_bind {A B} (m : M A) (f : A -> M B) :
  effects (bind m f)
  = effects m ++ match result m with
                 | Ok a => effects (f a)
                 | _ => []
                 end.
Proof.
  destruct m as [l [a | e |]]; simpl.
  - destruct (f a). reflexivity.
  - rewrite app_nil_r. reflexivity.
  - rewrite app_nil_r. reflexivity.
Qed.

Lemma result_bind {A B} (m : M A) (f : A -> M B) :
  result (bind m f)
  = match result m with
    | Ok a => result (f a)
    | Raise e => Raise e
    | OutOfFuel => OutOfFuel
    end.
Proof.
  destruct m as [l [a | e |]]; simpl; try reflexivity.
  destruct (f a). reflexivity.
Qed.

Lemma bind_result_ok {A B} (m : M A) (f : A -> M B) (b : B) :
  result (bind m f) = Ok b ->
  exists a, result m = Ok a /\ result (f a) = Ok b.
Proof.
  rewrite result_bind. destruct (result m) as [a | e |]; try discriminate.
  intros H. exists a. auto.
Qed.

(** ** Strings *)

Lemma str_eqb_eq (a b : pystr) : str_eqb a b = true <-> a = b.
Proof.
  revert b. induction a as [| x a IH]; intros [| y b]; simpl;
    try (split; [discriminate | discriminate]); try tauto.
  rewrite andb_true_iff, Ascii.eqb_eq, IH. split.
  - intros [-> ->]. reflexivity.
  - intros H. inversion H. auto.
Qed.

Lemma str_eqb_refl (a : pystr) : str_eqb a a = true.
Proof. apply str_eqb_eq. reflexivity. Qed.

(** ** [range] *)

Lemma range_length_step1 (a b : Z) : range_length a b 1 = Z.to_nat (b - a).
Proof.
  unfold range_length. simpl. rewrite Z.div_1_r. f_equal. lia.
Qed.

Lemma py_range_length (a b s : Z) : List.length (py_range a b s) = range_length a b s.
Proof. unfold py_range. rewrite length_map, length_seq. reflexivity. Qed.

Lemma nth_map_seq {A} (f : nat -> A) (d : A) (k : nat) :
  forall s i, (i < k)%nat -> nth i (map f (seq s k)) d = f (s + i)%nat.
Proof.
  induction k as [| k IH]; intros s i Hi; [lia |].
  destruct i as [| i]; simpl.
  - f_equal. lia.
  - rewrite IH by lia. f_equal. lia.
Qed.

Lemma py_range_nth (a b s : Z) (i : nat) :
  (i < range_length a b s)%nat -> nth i (py_range a b s) 0 = a + Z.of_nat i * s.
Proof.
  intros H. unfold py_range. rewrite nth_map_seq by exact H. reflexivity.
Qed.

Lemma py_range_In (a b s n : Z) :
  In n (py_range a b s) <->
  exists i, (i < range_length a b s)%nat /\ n = a + Z.of_nat i * s.
Proof.
  unfold py_range. rewrite in_map_iff. split.
  - intros [i [<- Hi]]. apply in_seq in Hi. exists i. split; [lia | reflexivity].
  - intros [i [Hi ->]]. exists i. split; [reflexivity | apply in_seq; lia].
Qed.

Lemma py_range_step1_In (a b n : Z) : In n (py_range a b 1) <-> a <= n < b.
Proof.
  rewrite py_range_In, range_length_step1. split.
  - intros [i [Hi ->]]. lia.
  - intros H. exists (Z.to_nat (n - a)). lia.
Qed.

(** ** Claims on a single integer and on the keyword "all" *)

Lemma parse_int_result (n : Z) (dr : Z * Z) (h : text) (sep : ascii) :
  result (parse_user_input dr h sep (PInt n)) = Ok [n].
Proof.
  unfold parse_user_input, warning_header, when.
  destruct (outside n dr); destruct (text_truthy h); reflexivity.
Qed.


(** C4: for every pair [lo <= hi], [parse_user_input("all",
    default_range=(lo, hi))] returns, without any diagnostic, the ascending
    list [lo, lo+1, ..., hi]: its length is [hi - lo + 1], its element of
    index [i] is [lo + i], and its elements are exactly the integers of
    [[lo, hi]]. *)
Theorem parse_all_is_default_range (lo hi : Z) (h : text) (sep : ascii) :
  lo <= hi ->
  exists l,
    parse_user_input (lo, hi) h sep (PStr (lit "all")) = ([], Ok l)
    /\ Z.of_nat (List.length l) = hi - lo + 1
    /\ (forall i, (i < List.length l)%nat -> nth i l 0 = lo + Z.of_nat i)
    /\ (forall n, In n l <-> lo <= n <= hi)
    /\ StronglySorted Z.lt l.
Proof.
  intros Hle. exists (py_range lo (hi + 1) 1).
  split; [reflexivity |].
  rewrite py_range_length, range_length_step1.
  split; [lia |]. split; [| split].
  - intros i Hi. rewrite py_range_nth by (rewrite range_length_step1; exact Hi). lia.
  - intros n. rewrite py_range_step1_In. lia.
  - unfold py_range. generalize (range_length lo (hi + 1) 1). intros k.
    generalize 0%nat as s. induction k as [| k IH]; intros s; simpl.
    + constructor.
    + constructor; [apply IH |].
      apply Forall_forall. intros x Hx. apply in_map_iff in Hx.
      destruct Hx as [j [<- Hj]]. apply in_seq in Hj. lia.
Qed.

Lemma parse_all_is_default_range_witness :
  1 <= 4 /\
  exists l,
    parse_user_input (1, 4) [] "-"%char (PStr (lit "all")) = ([], Ok l)
    /\ Z.of_nat (List.length l) = 4 - 1 + 1
    /\ (forall i, (i < List.length l)%nat -> nth i l 0 = 1 + Z.of_nat i)
    /\ (forall n, In n l <-> 1 <= n <= 4)
    /\ StronglySorted Z.lt l.
Proof.
  split; [lia |]. apply (parse_all_is_default_range 1 4 [] "-"%char). lia.
Defined.

(** ** Characters *)

Arguments is_decimal : simpl never.
Arguments is_space : simpl never.
Arguments is_blank : simpl never.
Arguments is_digit : simpl never.
Arguments lower_char : simpl never.
Arguments not_separator : simpl never.

Ltac each_char c :=
  destruct c as [[] [] [] [] [] [] [] []]; vm_compute; try discriminate; auto.

Lemma decimal_char (c : ascii) :
  is_decimal c = true ->
  is_space c = false /\ not_separator c = true /\ lower_char c = c
  /\ is_digit c = true /\ Ascii.eqb c ":"%char = false
  /\ Ascii.eqb c "-"%char = false /\ Ascii.eqb c "+"%char = false
  /\ Ascii.eqb c "_"%char = false /\ Ascii.eqb c "a"%char = false.
Proof. each_char c; intros _; repeat split. Qed.

Lemma lower_char_class (c : ascii) :
  is_decimal (lower_char c) = is_decimal c
  /\ is_space (lower_char c) = is_space c
  /\ Ascii.eqb (lower_char c) ":"%char = Ascii.eqb c ":"%char
  /\ Ascii.eqb (lower_char c) "-"%char = Ascii.eqb c "-"%char
  /\ not_separator (lower_char c) = not_separator c.
Proof. each_char c; repeat split. Qed.

Lemma lower_decimal (c : ascii) : is_decimal c = true -> lower_char c = c.
Proof. intros H. apply decimal_char in H. tauto. Qed.

Lemma token_char_not_space (c : ascii) : not_separator c = true -> is_space c = false.
Proof.
  unfold not_separator. rewrite andb_true_iff, !negb_true_iff. tauto.
Qed.

Lemma token_char_not_comma (c : ascii) :
  not_separator c = true -> Ascii.eqb c ","%char = false.
Proof.
  unfold not_separator. rewrite andb_true_iff, !negb_true_iff. tauto.
Qed.

(** ** Integer literals *)

Lemma all_decimal_token (d : pystr) : forallb is_decimal d = true -> is_token d = true.
Proof.
  unfold is_token. rewrite !forallb_forall. intros H c Hc.
  apply decimal_char. auto.
Qed.

Lemma all_decimal_lower (d : pystr) : forallb is_decimal d = true -> lower d = d.
Proof.
  induction d as [| c d IH]; simpl; [reflexivity |].
  rewrite andb_true_iff. intros [Hc Hd].
  rewrite lower_decimal, IH by assumption. reflexivity.
Qed.

Lemma literal_cases (s : pystr) :
  is_int_literal s = true ->
  (exists c d, s = c :: d /\ is_decimal c = true /\ forallb is_decimal d = true)
  \/ (exists c d, s = "-"%char :: c :: d /\ is_decimal c = true
                  /\ forallb is_decimal d = true).
Proof.
  unfold is_int_literal. rewrite andb_true_iff. intros [H _]. revert H.
  destruct s as [| c r]; simpl; [discriminate |].
  destruct (Ascii.eqb c "-"%char) eqn:E.
  - apply Ascii.eqb_eq in E. subst c. destruct r as [| c d]; [discriminate |].
    simpl. rewrite andb_true_iff. intros [H1 H2]. right. exists c, d. auto.
  - rewrite andb_true_iff. intros [H1 H2]. left. exists c, r. auto.
Qed.

Lemma literal_length (s : pystr) :
  is_int_literal s = true -> (max_str_digits <? count_decimal s)%nat = false.
Proof.
  unfold is_int_literal. rewrite andb_true_iff. intros [_ H].
  apply Nat.leb_le in H. apply Nat.ltb_ge. exact H.
Qed.

Lemma literal_token (s : pystr) : is_int_literal s = true -> is_token s = true.
Proof.
  intros H. destruct (literal_cases s H) as [(c & d & -> & Hc & Hd) | (c & d & -> & Hc & Hd)].
  - apply all_decimal_token. simpl. rewrite Hc, Hd. reflexivity.
  - change (is_token ("-"%char :: c :: d)) with (true && is_token (c :: d)).
    apply all_decimal_token. simpl. rewrite Hc, Hd. reflexivity.
Qed.

Lemma literal_lower (s : pystr) : is_int_literal s = true -> lower s = s.
Proof.
  intros H. destruct (literal_cases s H) as [(c & d & -> & Hc & Hd) | (c & d & -> & Hc & Hd)].
  - apply all_decimal_lower. simpl. rewrite Hc, Hd. reflexivity.
  - change (lower ("-"%char :: c :: d)) with ("-"%char :: lower (c :: d)).
    f_equal. apply all_decimal_lower. simpl. rewrite Hc, Hd. reflexivity.
Qed.

Lemma strip_left_token (s : pystr) : is_token s = true -> strip_left s = s.
Proof.
  destruct s as [| c r]; simpl; [reflexivity |].
  rewrite andb_true_iff. intros [Hc _].
  rewrite (token_char_not_space c Hc). reflexivity.
Qed.

Lemma is_token_app (a b : pystr) :
  is_token (a ++ b) = is_token a && is_token b.
Proof. apply forallb_app. Qed.

Lemma is_token_rev (s : pystr) : is_token (rev s) = is_token s.
Proof.
  induction s as [| c s IH]; simpl; [reflexivity |].
  rewrite is_token_app, IH. simpl. rewrite andb_true_r. apply andb_comm.
Qed.

Lemma blank_is_space (c : ascii) : is_space c = false -> is_blank c = false.
Proof. each_char c. Qed.

Lemma trim_left_token (s : pystr) : is_token s = true -> trim_left s = s.
Proof.
  destruct s as [| c r]; simpl; [reflexivity |].
  rewrite andb_true_iff. intros [Hc _].
  rewrite (blank_is_space c (token_char_not_space c Hc)). reflexivity.
Qed.

Lemma trim_token (s : pystr) : is_token s = true -> trim s = s.
Proof.
  intros H. unfold trim. rewrite (trim_left_token s H).
  rewrite trim_left_token by (rewrite is_token_rev; exact H).
  apply rev_involutive.
Qed.

Lemma int_digits_all_decimal (d : pystr) :
  forall (b : bool) (acc : Z),
    forallb is_decimal d = true -> d <> [] \/ b = true ->
    int_digits b acc d = Some (fold_left (fun acc c => 10 * acc + digit_val c) d acc).
Proof.
  induction d as [| c d IH]; intros b acc Hd Hb; simpl.
  - destruct Hb as [Hb | ->]; [congruence | reflexivity].
  - simpl in Hd. apply andb_true_iff in Hd. destruct Hd as [Hc Hd].
    rewrite Hc. apply IH; auto.
Qed.

Lemma py_int_literal (s : pystr) :
  is_int_literal s = true -> py_int s = Some (literal_value s).
Proof.
  intros H. unfold py_int.
  rewrite (literal_length s H), (trim_token s (literal_token s H)).
  destruct (literal_cases s H) as [(c & d & -> & Hc & Hd) | (c & d & -> & Hc & Hd)].
  - unfold literal_value.
    destruct (decimal_char c Hc) as (_ & _ & _ & _ & _ & -> & -> & _).
    apply int_digits_all_decimal.
    + simpl. rewrite Hc, Hd. reflexivity.
    + left. discriminate.
  - unfold literal_value. change (Ascii.eqb "-"%char "-"%char) with true. cbv iota.
    rewrite int_digits_all_decimal.
    + reflexivity.
    + simpl. rewrite Hc, Hd. reflexivity.
    + left. discriminate.
Qed.

(** ** The pattern of the colon range on literals *)

Lemma span_decimal_app (d rest : pystr) :
  forallb is_decimal d = true -> starts_with_decimal rest = false ->
  span_decimal (d ++ rest) = (d, rest).
Proof.
  intros Hd Hr. induction d as [| c d IH]; simpl.
  - destruct rest as [| x r]; [reflexivity |]. simpl in *. rewrite Hr. reflexivity.
  - simpl in Hd. apply andb_true_iff in Hd. destruct Hd as [Hc Hd].
    rewrite Hc, (IH Hd). reflexivity.
Qed.

Lemma scan_int_literal (a rest : pystr) :
  is_int_literal a = true -> starts_with_decimal rest = false ->
  scan_int (a ++ rest) = Some (a, rest).
Proof.
  intros H Hr.
  destruct (literal_cases a H) as [(c & d & -> & Hc & Hd) | (c & d & -> & Hc & Hd)].
  - assert (Hs : span_decimal ((c :: d) ++ rest) = (c :: d, rest)).
    { apply span_decimal_app; [simpl; rewrite Hc, Hd; reflexivity | assumption]. }
    destruct (decimal_char c Hc) as (_ & _ & _ & _ & _ & E & _).
    change ((c :: d) ++ rest) with (c :: (d ++ rest)) in *.
    unfold scan_int. rewrite E, Hs. reflexivity.
  - assert (Hs : span_decimal ((c :: d) ++ rest) = (c :: d, rest)).
    { apply span_decimal_app; [simpl; rewrite Hc, Hd; reflexivity | assumption]. }
    change (("-"%char :: c :: d) ++ rest) with ("-"%char :: ((c :: d) ++ rest)).
    unfold scan_int.
    change (Ascii.eqb "-"%char "-"%char) with true. cbv iota.
    rewrite Hs. reflexivity.
Qed.

Lemma literal_starts (a rest : pystr) :
  is_int_literal a = true ->
  exists c r, a ++ rest = c :: r /\ is_space c = false
              /\ Ascii.eqb c "a"%char = false.
Proof.
  intros H.
  destruct (literal_cases a H) as [(c & d & -> & Hc & Hd) | (c & d & -> & Hc & Hd)].
  - exists c, (d ++ rest). split; [reflexivity |].
    destruct (decimal_char c Hc) as (-> & _ & _ & _ & _ & _ & _ & _ & ->). auto.
  - exists "-"%char, ((c :: d) ++ rest). repeat split.
Qed.

Lemma match_colon_range_literals (a b rest : pystr) :
  is_int_literal a = true -> is_int_literal b = true ->
  is_token rest = true -> starts_with_decimal rest = false ->
  match_colon_range (a ++ ":"%char :: b ++ rest) = Some (a, b, match_step rest).
Proof.
  intros Ha Hb Ht Hr. unfold match_colon_range.
  rewrite scan_int_literal by auto.
  change (strip_left (":"%char :: b ++ rest)) with (":"%char :: b ++ rest).
  change (Ascii.eqb ":"%char ":"%char) with true. cbv iota.
  destruct (literal_starts b rest Hb) as (c & r & E & Hc & _).
  assert (Hs : strip_left (b ++ rest) = b ++ rest).
  { rewrite E. simpl. rewrite Hc. reflexivity. }
  rewrite Hs, scan_int_literal by auto.
  rewrite (strip_left_token rest Ht). reflexivity.
Qed.

Lemma match_step_literal_app (c r : pystr) :
  is_int_literal c = true -> starts_with_decimal r = false ->
  match_step (":"%char :: c ++ r) = Some c.
Proof.
  intros Hc Hr. unfold match_step.
  change (Ascii.eqb ":"%char ":"%char) with true. cbv iota.
  destruct (literal_starts c r Hc) as (x & t & E & Hx & _).
  assert (Hs : strip_left (c ++ r) = c ++ r).
  { rewrite E. simpl. rewrite Hx. reflexivity. }
  rewrite Hs, scan_int_literal by auto. reflexivity.
Qed.

Lemma match_step_literal (c : pystr) :
  is_int_literal c = true -> match_step (":"%char :: c) = Some c.
Proof.
  intros Hc. rewrite <- (app_nil_r c) at 1.
  apply match_step_literal_app; auto.
Qed.

Lemma strip_left_lower (s : pystr) : strip_left (lower s) = lower (strip_left s).
Proof.
  induction s as [| c s IH]; simpl; [reflexivity |].
  destruct (lower_char_class c) as (_ & -> & _).
  destruct (is_space c); [exact IH | reflexivity].
Qed.

Lemma span_decimal_lower (s : pystr) :
  span_decimal (lower s)
  = (lower (fst (span_decimal s)), lower (snd (span_decimal s))).
Proof.
  induction s as [| c s IH]; simpl; [reflexivity |].
  destruct (lower_char_class c) as (-> & _).
  destruct (is_decimal c); [| reflexivity].
  rewrite IH. destruct (span_decimal s). reflexivity.
Qed.

Lemma scan_int_lower (s : pystr) :
  scan_int (lower s)
  = option_map (fun p => (lower (fst p), lower (snd p))) (scan_int s).
Proof.
  destruct s as [| c s]; [reflexivity |].
  unfold scan_int. change (lower (c :: s)) with (lower_char c :: lower s).
  destruct (lower_char_class c) as (_ & _ & _ & -> & _).
  destruct (Ascii.eqb c "-"%char).
  - rewrite span_decimal_lower. destruct (span_decimal s) as [[| x d] t]; reflexivity.
  - change (lower_char c :: lower s) with (lower (c :: s)).
    rewrite span_decimal_lower.
    destruct (span_decimal (c :: s)) as [[| x d] t]; reflexivity.
Qed.

Lemma match_step_lower (s : pystr) :
  match_step (lower s) = option_map lower (match_step s).
Proof.
  destruct s as [| c s]; [reflexivity |].
  unfold match_step. change (lower (c :: s)) with (lower_char c :: lower s).
  destruct (lower_char_class c) as (_ & _ & -> & _).
  destruct (Ascii.eqb c ":"%char); [| reflexivity].
  rewrite strip_left_lower, scan_int_lower.
  destruct (scan_int (strip_left s)) as [[d t] |]; reflexivity.
Qed.

Lemma is_token_lower (s : pystr) : is_token (lower s) = is_token s.
Proof.
  induction s as [| c s IH]; simpl; [reflexivity |].
  destruct (lower_char_class c) as (_ & _ & _ & _ & ->). rewrite IH. reflexivity.
Qed.

Lemma starts_with_decimal_lower (s : pystr) :
  starts_with_decimal (lower s) = starts_with_decimal s.
Proof.
  destruct s as [| c s]; [reflexivity |]. simpl.
  destruct (lower_char_class c) as (-> & _). reflexivity.
Qed.

Lemma lower_colon_range (a b rest : pystr) :
  is_int_literal a = true -> is_int_literal b = true ->
  lower (a ++ ":"%char :: b ++ rest) = a ++ ":"%char :: b ++ lower rest.
Proof.
  intros Ha Hb. unfold lower. rewrite map_app. simpl. rewrite map_app.
  fold (lower a). fold (lower b). fold (lower rest).
  rewrite (literal_lower a Ha), (literal_lower b Hb). reflexivity.
Qed.

(** ** Splitting *)

Lemma re_split_from_token (s : pystr) :
  forall (b : bool) (cur : pystr),
    is_token s = true -> re_split_from b cur s = [cur ++ s].
Proof.
  induction s as [| c s IH]; intros b cur H; simpl.
  - rewrite app_nil_r. reflexivity.
  - simpl in H. apply andb_true_iff in H. destruct H as [Hc Hs].
    rewrite (token_char_not_comma c Hc), (token_char_not_space c Hc).
    rewrite IH by exact Hs. rewrite <- app_assoc. reflexivity.
Qed.

Lemma re_split_token (s : pystr) : is_token s = true -> re_split s = [s].
Proof. intros H. unfold re_split. rewrite re_split_from_token by exact H. reflexivity. Qed.

Lemma re_split_from_comma (a b : pystr) :
  forall (i : bool) (cur : pystr),
    is_token a = true -> is_token b = true ->
    re_split_from i cur (a ++ ","%char :: b) = [cur ++ a; b].
Proof.
  induction a as [| c a IH]; intros i cur Ha Hb; simpl.
  - rewrite app_nil_r, re_split_from_token by exact Hb. reflexivity.
  - simpl in Ha. apply andb_true_iff in Ha. destruct Ha as [Hc Ha].
    rewrite (token_char_not_comma c Hc), (token_char_not_space c Hc).
    rewrite IH by assumption. rewrite <- app_assoc. reflexivity.
Qed.

Lemma re_split_comma (a b : pystr) :
  is_token a = true -> is_token b = true ->
  re_split (a ++ ","%char :: b) = [a; b].
Proof. intros Ha Hb. unfold re_split. rewrite re_split_from_comma by assumption. reflexivity. Qed.

(** ** The parser on a token *)

Section ParserFacts.

Variable dr : Z * Z.
Variable h : text.
Variable sep : ascii.

Lemma parse_str_unfold (f : nat) (s : pystr) :
  parse_str dr h sep (S f) s =
    if str_eqb s [] then ret []
    else if str_eqb s (lit "all") then ret (py_range (fst dr) (snd dr + 1) 1)
    else
      if (1 <? List.length (re_split s))%nat
      then extend_all (parse_str dr h sep f) (re_split s) []
      else parse_item dr h sep s.
Proof. reflexivity. Qed.

(** A token is not split: its parse is the one of [parse_item], with any
    fuel. *)
Lemma parse_str_token (f : nat) (s : pystr) :
  is_token s = true ->
  parse_str dr h sep (S f) s =
    if str_eqb s [] then ret []
    else if str_eqb s (lit "all") then ret (py_range (fst dr) (snd dr + 1) 1)
    else parse_item dr h sep s.
Proof.
  intros H. rewrite parse_str_unfold, (re_split_token s H). reflexivity.
Qed.

Lemma parse_str_token_fuel (f f' : nat) (s : pystr) :
  is_token s = true ->
  parse_str dr h sep (S f) s = parse_str dr h sep (S f') s.
Proof. intros H. rewrite !parse_str_token by exact H. reflexivity. Qed.

Lemma isdigit_colon (a r : pystr) : isdigit (a ++ ":"%char :: r) = false.
Proof.
  unfold isdigit. destruct (a ++ ":"%char :: r) eqn:E.
  - destruct a; discriminate.
  - rewrite <- E. rewrite forallb_app. simpl.
    change (is_digit ":"%char) with false. simpl. apply andb_false_r.
Qed.

Lemma parse_item_colon (user_input a b : pystr) (step : option pystr) (va vb st : Z) :
  isdigit user_input = false ->
  match_colon_range (lower user_input) = Some (a, b, step) ->
  py_int a = Some va -> py_int b = Some vb ->
  match step with
  | None => st = 1
  | Some c => py_int c = Some st
  end ->
  parse_item dr h sep user_input = colon_branch dr h user_input va vb st.
Proof.
  intros Hd Hm Ha Hb Hs. unfold parse_item, colon_branch. rewrite Hd, Hm.
  assert (Hz : step_eq_zero (match step with
                             | None => StepInt 1
                             | Some s => StepText s
                             end) = false) by (destruct step; reflexivity).
  rewrite Hz.
  assert (Hi : int_step (match step with
                         | None => StepInt 1
                         | Some s => StepText s
                         end) = ret st).
  { destruct step as [c |]; simpl; [unfold int_; rewrite Hs | rewrite Hs]; reflexivity. }
  unfold int_ at 1 2. rewrite Ha, Hb, !bind_ret_l.
  destruct (va >? vb).
  - unfold error_header, when. destruct (text_truthy h); reflexivity.
  - rewrite Hi, bind_ret_l.
    destruct (st <? 0).
    + unfold int_. rewrite Ha, Hb, !bind_ret_l.
      unfold warning_header, when, range_.
      destruct ((vb <? fst dr) || (va >? snd dr)); destruct (text_truthy h);
        destruct (st =? 0); reflexivity.
    + unfold int_. rewrite Ha, Hb, !bind_ret_l.
      unfold warning_header, when, range_.
      destruct ((va <? fst dr) || (vb >? snd dr)); destruct (text_truthy h);
        destruct (st =? 0); reflexivity.
Qed.

End ParserFacts.

(** ** The tests and the examples of the program *)

(** The assertions of [tests/test_midi_launcher.py]. *)
Lemma unit_tests :
  let parse := parse_user_input (0, 127) [] "-"%char in
  let parse_1_4 := parse_user_input (1, 4) [] "-"%char in
  parse (PInt 1) = ([], Ok [1])
  /\ parse (PStr (lit "")) = ([], Ok [])
  /\ parse (PStr (lit "1")) = ([], Ok [1])
  /\ parse (PStr (lit "1, 2, 3")) = ([], Ok [1; 2; 3])
  /\ parse (PStr (lit "1 2 3")) = ([], Ok [1; 2; 3])
  /\ parse (PStr (lit "1-4")) = ([], Ok [1; 2; 3; 4])
  /\ parse (PStr (lit "1:4")) = ([], Ok [1; 2; 3; 4])
  /\ parse (PStr (lit "1:4:1")) = ([], Ok [1; 2; 3; 4])
  /\ parse (PStr (lit "1:4:2")) = ([], Ok [1; 3])
  /\ parse_1_4 (PStr (lit "all")) = ([], Ok [1; 2; 3; 4])
  /\ parse (PList [PInt 1]) = ([], Ok [1])
  /\ parse (PList [PInt 1; PInt 2; PInt 3]) = ([], Ok [1; 2; 3])
  /\ parse (PList [PInt 1; PStr (lit "2:4"); PInt 3]) = ([], Ok [1; 2; 3; 4; 3])
  /\ parse_1_4 (PList [PStr (lit "all")]) = ([], Ok [1; 2; 3; 4])
  /\ parse_1_4 (PList [PInt 1; PStr (lit "all"); PInt 3]) = ([], Ok [1; 1; 2; 3; 4; 3])
  /\ parse (PList [PInt 1; PList [PInt 2; PInt 3]]) = ([], Ok [1; 2; 3]).
Proof. cbv zeta. repeat split; vm_compute; reflexivity. Qed.

(** The examples of the docstring of [parse_user_input]. *)
Lemma docstring_examples :
  let parse := parse_user_input (0, 127) [] "-"%char in
  parse (PStr (lit "1-3")) = ([], Ok [1; 2; 3])
  /\ parse (PStr (lit "1-3, 5, 7-9")) = ([], Ok [1; 2; 3; 5; 7; 8; 9])
  /\ parse (PStr (lit "1:5:2")) = ([], Ok [1; 3; 5])
  /\ result (parse (PStr (lit "all"))) = Ok (py_range 0 128 1)
  /\ parse (PList [PInt 1; PInt 2; PStr (lit "3-5")]) = ([], Ok [1; 2; 3; 4; 5]).
Proof. cbv zeta. repeat split; vm_compute; reflexivity. Qed.

(** ** The colon range *)

Lemma colon_token_not_empty (a r : pystr) : str_eqb (a ++ ":"%char :: r) [] = false.
Proof. destruct a; reflexivity. Qed.

Lemma literal_not_all (a r : pystr) :
  is_int_literal a = true -> str_eqb (a ++ r) (lit "all") = false.
Proof.
  intros H. destruct (literal_starts a r H) as (c & t & -> & _ & E).
  simpl. rewrite E. reflexivity.
Qed.

(** A token that begins with two literals separated by a colon is parsed
    by the colon branch, whatever follows the second literal. *)
Lemma parse_colon_token (dr : Z * Z) (h : text) (sep : ascii) (a b rest : pystr)
    (st : Z) :
  is_int_literal a = true -> is_int_literal b = true ->
  is_token rest = true -> starts_with_decimal rest = false ->
  match match_step (lower rest) with
  | None => st = 1
  | Some c => py_int c = Some st
  end ->
  parse_user_input dr h sep (PStr (a ++ ":"%char :: b ++ rest))
  = colon_branch dr h (a ++ ":"%char :: b ++ rest)
      (literal_value a) (literal_value b) st.
Proof.
  intros Ha Hb Ht Hr Hs.
  assert (Htok : is_token (a ++ ":"%char :: b ++ rest) = true).
  { rewrite is_token_app. change (is_token (":"%char :: b ++ rest))
      with (is_token (b ++ rest)). rewrite is_token_app.
    rewrite (literal_token a Ha), (literal_token b Hb), Ht. reflexivity. }
  change (parse_user_input dr h sep (PStr (a ++ ":"%char :: b ++ rest)))
    with (parse_str dr h sep (S (List.length (a ++ ":"%char :: b ++ rest)))
            (a ++ ":"%char :: b ++ rest)).
  rewrite parse_str_token by exact Htok.
  rewrite colon_token_not_empty, literal_not_all by exact Ha.
  apply parse_item_colon with (a := a) (b := b) (step := match_step (lower rest)).
  - apply isdigit_colon.
  - rewrite lower_colon_range by assumption.
    apply match_colon_range_literals; auto.
    + rewrite is_token_lower. exact Ht.
    + rewrite starts_with_decimal_lower. exact Hr.
  - apply py_int_literal. exact Ha.
  - apply py_int_literal. exact Hb.
  - exact Hs.
Qed.

(** C1 (as amended): for a colon range [s:e:st] with a negative step [st],
    [parse_user_input] first compares the bounds as written: when [s > e]
    (as in ["5:1:-1"]) it reports the error and returns the empty list; when
    [s <= e] it swaps the bounds and returns [list(range(e, s + 1, st))],
    with a warning when [e] is below or [s] above the default range. *)
Theorem colon_range_negative_step (a b c : pystr) (dr : Z * Z) (h : text) (sep : ascii) :
  is_int_literal a = true -> is_int_literal b = true -> is_int_literal c = true ->
  literal_value c < 0 ->
  parse_user_input dr h sep (PStr (a ++ ":"%char :: b ++ ":"%char :: c))
  = if literal_value a >? literal_value b then
      ((if text_truthy h then [Error h] else [])
         ++ [Error [Lit "Error: Start value is greater than the end value. Ignoring the range."]],
       Ok [])
    else
      (if (literal_value b <? fst dr) || (literal_value a >? snd dr)
       then (if text_truthy h then [Warning h] else [])
              ++ [Warning [Lit "Warning: Range '";
                           Fmt (PStr (a ++ ":"%char :: b ++ ":"%char :: c));
                           Lit "' is outside the expected range ";
                           FmtRange dr; Lit "."]]
       else [],
       Ok (py_range (literal_value b) (literal_value a + 1) (literal_value c))).
Proof.
  intros Ha Hb Hc Hneg.
  assert (Hl : lower (":"%char :: c) = ":"%char :: c).
  { change (lower (":"%char :: c)) with (":"%char :: lower c).
    rewrite (literal_lower c Hc). reflexivity. }
  rewrite (parse_colon_token dr h sep a b (":"%char :: c) (literal_value c)); auto.
  - unfold colon_branch.
    assert (E1 : (literal_value c <? 0) = true) by (apply Z.ltb_lt; exact Hneg).
    assert (E2 : (literal_value c =? 0) = false) by (apply Z.eqb_neq; lia).
    rewrite E1, E2. reflexivity.
  - change (is_token (":"%char :: c)) with (is_token c). apply literal_token. exact Hc.
  - rewrite Hl, (match_step_literal c Hc). apply py_int_literal. exact Hc.
Qed.

Lemma colon_range_negative_step_witness :
  parse_user_input (0, 127) [] "-"%char (PStr (lit "1:5:-1")) = ([], Ok [5; 4; 3]).
Proof.
  exact (colon_range_negative_step (lit "1") (lit "5") (lit "-1") (0, 127) [] "-"%char
           eq_refl eq_refl eq_refl eq_refl).
Defined.

(** C1, the claim as stated fails: ["5:1:-1"] with the default range (0, 127)
    is rejected with the error on the bounds and yields the empty list, not
    [[1, 2, 3, 4, 5]]. *)
Lemma colon_range_5_1_minus_1 :
  parse_user_input (0, 127) [] "-"%char (PStr (lit "5:1:-1"))
  = ([Error [Lit "Error: Start value is greater than the end value. Ignoring the range."]],
     Ok [])
  /\ result (parse_user_input (0, 127) [] "-"%char (PStr (lit "5:1:-1")))
     <> Ok [1; 2; 3; 4; 5].
Proof. split; [reflexivity | discriminate]. Qed.

(** C10: a token that begins with [<int>:<int>] is parsed as that colon
    range and the characters after it are ignored: the result is the one of
    the colon branch on the two bounds, the same as for the token without the
    trailing characters, and never the error of an unparseable input.  The
    trailing text is any text without comma and white space that does not
    continue the match (it does not begin with a digit nor with a step).
    The same holds after a step: the characters after [<int>:<int>:<int>]
    are ignored.  In particular ["1:4abc"] yields [[1, 2, 3, 4]] without
    diagnostic. *)
Theorem colon_range_ignores_trailing (a b rest : pystr) (dr : Z * Z) (h : text)
    (sep : ascii) :
  is_int_literal a = true -> is_int_literal b = true ->
  is_token rest = true -> starts_with_decimal rest = false ->
  (match_step rest = None ->
   parse_user_input dr h sep (PStr (a ++ ":"%char :: b ++ rest))
   = (if literal_value a >? literal_value b then
        ((if text_truthy h then [Error h] else [])
           ++ [Error [Lit "Error: Start value is greater than the end value. Ignoring the range."]],
         Ok [])
      else
        (if (literal_value a <? fst dr) || (literal_value b >? snd dr)
         then (if text_truthy h then [Warning h] else [])
                ++ [Warning [Lit "Warning: Range '";
                             Fmt (PStr (a ++ ":"%char :: b ++ rest));
                             Lit "' is outside the expected range ";
                             FmtRange dr; Lit "."]]
         else [],
         Ok (py_range (literal_value a) (literal_value b + 1) 1)))
   /\ result (parse_user_input dr h sep (PStr (a ++ ":"%char :: b ++ rest)))
      = result (parse_user_input dr h sep (PStr (a ++ ":"%char :: b))))
  /\ (forall c,
        is_int_literal c = true ->
        parse_user_input dr h sep (PStr (a ++ ":"%char :: b ++ ":"%char :: c ++ rest))
        = colon_branch dr h (a ++ ":"%char :: b ++ ":"%char :: c ++ rest)
            (literal_value a) (literal_value b) (literal_value c)
        /\ result (parse_user_input dr h sep
                     (PStr (a ++ ":"%char :: b ++ ":"%char :: c ++ rest)))
           = result (parse_user_input dr h sep
                       (PStr (a ++ ":"%char :: b ++ ":"%char :: c))))
  /\ parse_user_input (0, 127) [] "-"%char (PStr (lit "1:4abc"))
     = ([], Ok [1; 2; 3; 4]).
Proof.
  intros Ha Hb Ht Hr.
  assert (H1 : forall r, is_token r = true -> starts_with_decimal r = false ->
                         match_step r = None ->
                         parse_user_input dr h sep (PStr (a ++ ":"%char :: b ++ r))
                         = colon_branch dr h (a ++ ":"%char :: b ++ r)
                             (literal_value a) (literal_value b) 1).
  { intros r Hrt Hrd Hrs. apply parse_colon_token; auto.
    rewrite match_step_lower, Hrs. reflexivity. }
  assert (H2 : forall c r, is_int_literal c = true ->
                           is_token r = true -> starts_with_decimal r = false ->
                           parse_user_input dr h sep
                             (PStr (a ++ ":"%char :: b ++ ":"%char :: c ++ r))
                           = colon_branch dr h (a ++ ":"%char :: b ++ ":"%char :: c ++ r)
                               (literal_value a) (literal_value b) (literal_value c)).
  { intros c r Hc Hrt Hrd. apply parse_colon_token; auto.
    - change (is_token (":"%char :: c ++ r)) with (is_token (c ++ r)).
      rewrite is_token_app, (literal_token c Hc), Hrt. reflexivity.
    - assert (Hl : lower (":"%char :: c ++ r) = ":"%char :: c ++ lower r).
      { unfold lower. simpl. rewrite map_app. fold (lower c). fold (lower r).
        rewrite (literal_lower c Hc). reflexivity. }
      rewrite Hl, match_step_literal_app.
      + apply py_int_literal. exact Hc.
      + exact Hc.
      + rewrite starts_with_decimal_lower. exact Hrd. }
  split; [| split].
  - intros Hs. split.
    + rewrite (H1 rest Ht Hr Hs). unfold colon_branch.
      change (1 <? 0) with false. change (1 =? 0) with false. reflexivity.
    + rewrite (H1 rest Ht Hr Hs).
      pose proof (H1 [] eq_refl eq_refl eq_refl) as H0.
      rewrite app_nil_r in H0. rewrite H0.
      unfold colon_branch. destruct (literal_value a >? literal_value b); reflexivity.
  - intros c Hc. split; [apply H2; assumption |].
    rewrite (H2 c rest Hc Ht Hr).
    pose proof (H2 c [] Hc eq_refl eq_refl) as H0.
    rewrite app_nil_r in H0. rewrite H0.
    unfold colon_branch. destruct (literal_value a >? literal_value b); reflexivity.
  - reflexivity.
Qed.

Lemma colon_range_ignores_trailing_witness :
  parse_user_input (0, 127) [] "-"%char (PStr (lit "10:12xyz")) = ([], Ok [10; 11; 12])
  /\ parse_user_input (0, 127) [] "-"%char (PStr (lit "10:20:5xyz"))
     = ([], Ok [10; 15; 20]).
Proof.
  split.
  - exact (proj1 (proj1 (colon_range_ignores_trailing (lit "10") (lit "12") (lit "xyz")
                           (0, 127) [] "-"%char eq_refl eq_refl eq_refl eq_refl)
                    eq_refl)).
  - exact (proj1 (proj1 (proj2 (colon_range_ignores_trailing (lit "10") (lit "20")
                                  (lit "xyz") (0, 127) [] "-"%char
                                  eq_refl eq_refl eq_refl eq_refl))
                    (lit "5") eq_refl)).
Defined.

(** ** Exceptions of the parser *)

(** C2, the code at the failing inputs: the step of a colon range is
    compared as a string with the integer 0, so the test for a zero step
    never holds; for every colon range whose bounds are in order and whose
    step denotes zero, [range] raises [ValueError], no error is reported and
    no list is returned.  ["1:5:0"] is such an input. *)
Theorem zero_step_raises (a b c : pystr) (dr : Z * Z) (h : text) (sep : ascii) :
  is_int_literal a = true -> is_int_literal b = true -> is_int_literal c = true ->
  literal_value c = 0 -> literal_value a <= literal_value b ->
  parse_user_input dr h sep (PStr (a ++ ":"%char :: b ++ ":"%char :: c))
  = (if (literal_value a <? fst dr) || (literal_value b >? snd dr)
     then (if text_truthy h then [Warning h] else [])
            ++ [Warning [Lit "Warning: Range '";
                         Fmt (PStr (a ++ ":"%char :: b ++ ":"%char :: c));
                         Lit "' is outside the expected range ";
                         FmtRange dr; Lit "."]]
     else [],
     Raise ValueError)
  /\ parse_user_input (0, 127) [] "-"%char (PStr (lit "1:5:0"))
     = ([], Raise ValueError).
Proof.
  intros Ha Hb Hc Hz Hle. split; [| reflexivity].
  assert (Hl : lower (":"%char :: c) = ":"%char :: c).
  { change (lower (":"%char :: c)) with (":"%char :: lower c).
    rewrite (literal_lower c Hc). reflexivity. }
  rewrite (parse_colon_token dr h sep a b (":"%char :: c) (literal_value c)); auto.
  - unfold colon_branch. rewrite Hz.
    assert (E : (literal_value a >? literal_value b) = false) by lia.
    rewrite E. reflexivity.
  - change (is_token (":"%char :: c)) with (is_token c). apply literal_token. exact Hc.
  - rewrite Hl, (match_step_literal c Hc). apply py_int_literal. exact Hc.
Qed.

Lemma zero_step_raises_witness :
  parse_user_input (1, 16) [Lit "Command (channels field): "] "-"%char
    (PStr (lit "0:3:00"))
  = ([Warning [Lit "Command (channels field): "];
      Warning [Lit "Warning: Range '"; Fmt (PStr (lit "0:3:00"));
               Lit "' is outside the expected range ";
               FmtRange (1, 16); Lit "."]],
     Raise ValueError).
Proof.
  exact (proj1 (zero_step_raises (lit "0") (lit "3") (lit "00") (1, 16)
                  [Lit "Command (channels field): "] "-"%char
                  eq_refl eq_refl eq_refl eq_refl
                  (fun H => match H with eq_refl => I end))).
Defined.

(** A string of superscript digits passes [isdigit], and [int] rejects it. *)
Lemma superscript_digit_raises :
  parse_user_input (0, 127) [] "-"%char (PStr ["178"%char]) = ([], Raise ValueError).
Proof. reflexivity. Qed.

(** ** Concatenation *)

Lemma comma_not_empty (a b : pystr) : str_eqb (a ++ ","%char :: b) [] = false.
Proof. destruct a; reflexivity. Qed.

Lemma comma_not_all (a b : pystr) : str_eqb (a ++ ","%char :: b) (lit "all") = false.
Proof.
  destruct (str_eqb (a ++ ","%char :: b) (lit "all")) eqn:E; [| reflexivity].
  apply str_eqb_eq in E.
  assert (H : is_token (a ++ ","%char :: b) = true) by (rewrite E; reflexivity).
  rewrite is_token_app in H. simpl in H.
  change (not_separator ","%char) with false in H.
  rewrite andb_false_r in H. discriminate.
Qed.

Lemma length_comma (a b : pystr) :
  List.length (a ++ ","%char :: b) = S (List.length a + List.length b).
Proof. rewrite length_app. simpl. lia. Qed.

Lemma extend_all_results {A} (parse : A -> M (list Z)) (items : list A) :
  forall (vs : list (list Z)) (acc : list Z),
    Forall2 (fun item v => result (parse item) = Ok v) items vs ->
    result (extend_all parse items acc) = Ok (acc ++ List.concat vs).
Proof.
  induction items as [| item rest IH]; intros vs acc H; inversion H; subst; simpl.
  - rewrite app_nil_r. reflexivity.
  - rewrite (result_bind_ok _ _ _ H2), IH with (vs := l') by assumption.
    rewrite app_assoc. reflexivity.
Qed.

(** C5: for tokens [a] and [b] (strings without comma and white space), the
    parse of ["a,b"] is the parse of [a] followed by the parse of [b], the
    results concatenated in this order and no element dropped; when both
    return, the result is the concatenation of their results and the effects
    are theirs, in order.  A list concatenates the results of its elements
    in the order of the elements, and [parse_user_input([1, "2:4", 3])] is
    [[1, 2, 3, 4, 3]]. *)
Theorem parse_concatenates (a b : pystr) (dr : Z * Z) (h : text) (sep : ascii) :
  is_token a = true -> is_token b = true ->
  parse_user_input dr h sep (PStr (a ++ ","%char :: b))
  = (ra <- parse_user_input dr h sep (PStr a) ;;
     rb <- parse_user_input dr h sep (PStr b) ;;
     ret (ra ++ rb))
  /\ (forall ea xa eb xb,
        parse_user_input dr h sep (PStr a) = (ea, Ok xa) ->
        parse_user_input dr h sep (PStr b) = (eb, Ok xb) ->
        parse_user_input dr h sep (PStr (a ++ ","%char :: b))
        = (ea ++ eb, Ok (xa ++ xb)))
  /\ (forall (l : list pyval) (vs : list (list Z)),
        Forall2 (fun item v => result (parse_user_input dr h sep item) = Ok v) l vs ->
        result (parse_user_input dr h sep (PList l)) = Ok (List.concat vs))
  /\ parse_user_input (0, 127) [] "-"%char
       (PList [PInt 1; PStr (lit "2:4"); PInt 3])
     = ([], Ok [1; 2; 3; 4; 3]).
Proof.
  intros Ha Hb.
  assert (E : parse_user_input dr h sep (PStr (a ++ ","%char :: b))
              = (ra <- parse_user_input dr h sep (PStr a) ;;
                 rb <- parse_user_input dr h sep (PStr b) ;;
                 ret (ra ++ rb))).
  { change (parse_user_input dr h sep (PStr (a ++ ","%char :: b)))
      with (parse_str dr h sep (S (List.length (a ++ ","%char :: b)))
              (a ++ ","%char :: b)).
    rewrite parse_str_unfold, comma_not_empty, comma_not_all.
    rewrite (re_split_comma a b Ha Hb), length_comma.
    change (parse_user_input dr h sep (PStr a))
      with (parse_str dr h sep (S (List.length a)) a).
    change (parse_user_input dr h sep (PStr b))
      with (parse_str dr h sep (S (List.length b)) b).
    rewrite (parse_str_token_fuel dr h sep (List.length a)
               (List.length a + List.length b) a Ha).
    rewrite (parse_str_token_fuel dr h sep (List.length b)
               (List.length a + List.length b) b Hb).
    reflexivity. }
  split; [exact E |]. split; [| split].
  - intros ea xa eb xb H1 H2. rewrite E, H1, H2. simpl.
    rewrite app_nil_r. reflexivity.
  - intros l vs H.
    change (parse_user_input dr h sep (PList l))
      with (extend_all
              (fun item =>
                 match item with
                 | PInt i => warn_item dr h i ;; ret [i]
                 | PStr _ | PList _ => parse_user_input dr h sep item
                 | _ => ret []
                 end) l []).
    rewrite extend_all_results with (vs := vs); [reflexivity |].
    induction H as [| item v l' vs' Hv _ IH]; constructor; [| exact IH].
    destruct item; try exact Hv.
    + (* an integer: appended after its warning *)
      rewrite (parse_int_result n dr h sep) in Hv. inversion Hv. subst v.
      unfold warn_item, warning_header, when.
      destruct (outside n dr); destruct (text_truthy h); reflexivity.
    + (* a float is skipped *)
      revert Hv. simpl. unfold error_header, when.
      destruct (text_truthy h); simpl; intros Hv; inversion Hv; reflexivity.
    + revert Hv. simpl. unfold error_header, when.
      destruct (text_truthy h); simpl; intros Hv; inversion Hv; reflexivity.
    + revert Hv. simpl. unfold error_header, when.
      destruct (text_truthy h); simpl; intros Hv; inversion Hv; reflexivity.
  - reflexivity.
Qed.

Lemma parse_concatenates_witness :
  parse_user_input (0, 127) [] "-"%char (PStr (lit "7,2:4"))
  = ([], Ok ([7] ++ [2; 3; 4])).
Proof.
  exact (proj1 (proj2 (parse_concatenates (lit "7") (lit "2:4") (0, 127) [] "-"%char
                         eq_refl eq_refl))
           [] [7] [] [2; 3; 4] eq_refl eq_refl).
Defined.

(** ** The parser always returns or raises *)

Lemma terminates_ret {A} (a : A) : terminates (ret a).
Proof. discriminate. Qed.

Lemma terminates_raise {A} (e : exn) : terminates (@raise A e).
Proof. discriminate. Qed.

Lemma terminates_emit (e : effect) : terminates (emit e).
Proof. discriminate. Qed.

Lemma terminates_bind {A B} (m : M A) (f : A -> M B) :
  terminates m -> (forall a, terminates (f a)) -> terminates (bind m f).
Proof.
  unfold terminates. destruct m as [l [a | e |]]; simpl; intros Hm Hf.
  - specialize (Hf a). destruct (f a) as [l' r]. exact Hf.
  - discriminate.
  - congruence.
Qed.

Lemma terminates_when (b : bool) (m : M unit) : terminates m -> terminates (when b m).
Proof. destruct b; simpl; [auto | intros _; apply terminates_ret]. Qed.

Lemma terminates_int (s : pystr) : terminates (int_ s).
Proof. unfold int_. destruct (py_int s); discriminate. Qed.

Lemma terminates_int_step (st : step_value) : terminates (int_step st).
Proof. destruct st; simpl; [discriminate | apply terminates_int]. Qed.

Lemma terminates_range (a b st : Z) : terminates (range_ a b st).
Proof. unfold range_. destruct (st =? 0); discriminate. Qed.

Lemma terminates_header (h : text) :
  terminates (error_header h) /\ terminates (warning_header h).
Proof.
  unfold error_header, warning_header.
  split; apply terminates_when, terminates_emit.
Qed.

Create HintDb term.

#[local] Hint Resolve terminates_ret terminates_raise terminates_emit
  terminates_int terminates_int_step terminates_range terminates_when : term.

Ltac terminates_steps h :=
  repeat first
    [ apply terminates_bind; [| intros ?]
    | apply terminates_when
    | apply (proj1 (terminates_header h))
    | apply (proj2 (terminates_header h))
    | solve [auto with term]
    | solve [unfold terminates; simpl; discriminate] ].

Lemma parse_item_terminates (dr : Z * Z) (h : text) (sep : ascii) (s : pystr) :
  terminates (parse_item dr h sep s).
Proof.
  unfold parse_item.
  destruct (isdigit s); [terminates_steps h |].
  destruct (match_colon_range (lower s)) as [[[start end_] step] |].
  - destruct (step_eq_zero _); [terminates_steps h |].
    apply terminates_bind; [auto with term | intros va].
    apply terminates_bind; [auto with term | intros vb].
    destruct (va >? vb); [terminates_steps h |].
    apply terminates_bind; [auto with term | intros st].
    destruct (st <? 0); terminates_steps h.
  - destruct (char_in sep s); [| terminates_steps h].
    destruct (match split_char sep s with
              | [start; end_] =>
                  match py_int start, py_int end_ with
                  | Some a, Some b => Some (a, b)
                  | _, _ => None
                  end
              | _ => None
              end) as [[start end_] |]; [| terminates_steps h].
    destruct (start >? end_); terminates_steps h.
Qed.

Lemma re_split_from_tokens (s : pystr) :
  forall (b : bool) (cur : pystr),
    is_token cur = true ->
    Forall (fun item => is_token item = true) (re_split_from b cur s).
Proof.
  induction s as [| c s IH]; intros b cur Hcur; simpl.
  - constructor; [exact Hcur | constructor].
  - destruct (Ascii.eqb c ","%char) eqn:Ec.
    + constructor; [exact Hcur | apply IH; reflexivity].
    + destruct (is_space c) eqn:Es.
      * destruct b; [apply IH; reflexivity |].
        constructor; [exact Hcur | apply IH; reflexivity].
      * apply IH. rewrite is_token_app, Hcur. simpl.
        unfold not_separator. rewrite Ec, Es. reflexivity.
Qed.

Lemma extend_all_terminates {A} (parse : A -> M (list Z)) (items : list A) :
  forall acc,
    Forall (fun item => terminates (parse item)) items ->
    terminates (extend_all parse items acc).
Proof.
  induction items as [| item rest IH]; intros acc H; simpl.
  - apply terminates_ret.
  - inversion H; subst. apply terminates_bind; [assumption |].
    intros r. apply IH. assumption.
Qed.

Lemma parse_str_terminates (dr : Z * Z) (h : text) (sep : ascii) (s : pystr) (f : nat) :
  (s = [] \/ 1 <= f)%nat -> terminates (parse_str dr h sep (S f) s).
Proof.
  intros Hf. rewrite parse_str_unfold.
  destruct (str_eqb s []) eqn:E0; [apply terminates_ret |].
  destruct (str_eqb s (lit "all")); [apply terminates_ret |].
  destruct (1 <? List.length (re_split s))%nat; [| apply parse_item_terminates].
  destruct Hf as [-> | Hf]; [discriminate |].
  destruct f as [| f]; [lia |].
  apply extend_all_terminates.
  eapply Forall_impl; [| apply (re_split_from_tokens s false []); reflexivity].
  intros item Hitem. rewrite parse_str_token by exact Hitem.
  destruct (str_eqb item []); [apply terminates_ret |].
  destruct (str_eqb item (lit "all")); [apply terminates_ret |].
  apply parse_item_terminates.
Qed.

Lemma pyval_nested_ind (Q : pyval -> Prop) :
  (forall n, Q (PInt n)) -> (forall f, Q (PFloat f)) -> (forall s, Q (PStr s)) ->
  (forall l, Forall Q l -> Q (PList l)) ->
  (forall k, Q (PDict k)) -> Q PNone ->
  forall v, Q v.
Proof.
  intros Hint Hfloat Hstr Hlist Hdict Hnone.
  fix IH 1. intros [n | f | s | l | k |];
    [apply Hint | apply Hfloat | apply Hstr | | apply Hdict | exact Hnone].
  apply Hlist. induction l as [| x l IHl]; constructor; [apply IH | exact IHl].
Qed.

(** The fuel given to the string case is enough: [parse_user_input] returns
    a list or raises, on every input. *)
Theorem parse_user_input_terminates (dr : Z * Z) (h : text) (sep : ascii) (v : pyval) :
  terminates (parse_user_input dr h sep v).
Proof.
  induction v as [n | f | s | l IH | k |] using pyval_nested_ind.
  - unfold terminates. rewrite (parse_int_result n dr h sep). discriminate.
  - simpl. terminates_steps h.
  - apply parse_str_terminates. destruct s; [left; reflexivity | right; simpl; lia].
  - simpl. apply extend_all_terminates.
    eapply Forall_impl; [| exact IH].
    intros item Hitem. destruct item; try exact Hitem; try apply terminates_ret.
    unfold warn_item. terminates_steps h.
  - simpl. terminates_steps h.
  - simpl. terminates_steps h.
Qed.

(** ** The mapping field *)

(** What [parse_mapping] does on each shape of the field: a list of two
    elements is kept, any other list is replaced by [[0, 127]] after the two
    lines of the diagnostic; the keyword and a string of a number of floats
    other than two give [[0, 127]], a string of two floats gives them; a
    string that is not a list of floats is kept as it is, after the
    diagnostic; a value of another type is kept, without diagnostic. *)
Lemma parse_mapping_list (self : Command) (l : list pyval) :
  mapping self = PList l ->
  parse_mapping self =
    if (List.length l =? 2)%nat then ([], Ok self)
    else ([Stdout [Lit "Command: "; Fmt (name self)];
           Stdout [Lit "Error parsing the mapping field: '"; Fmt (PList l);
                  Lit "'. Ignoring the mapping field.
"]],
          Ok (set_mapping self default_mapping)).
Proof.
  intros H. unfold parse_mapping, mapping_error. rewrite H.
  destruct (List.length l =? 2)%nat; reflexivity.
Qed.

Lemma parse_mapping_bad_string (self : Command) (s : pystr) :
  mapping self = PStr s -> str_eqb s (lit "all") = false ->
  floats_of (split_char ","%char s) = None ->
  parse_mapping self =
    ([Stdout [Lit "Command: "; Fmt (name self)];
      Stdout [Lit "Error parsing the mapping field: '"; Fmt (PStr s);
             Lit "'. Ignoring the mapping field.
"]],
     Ok self).
Proof.
  intros H Hall Hf. unfold parse_mapping, mapping_error. rewrite H, Hall, Hf.
  reflexivity.
Qed.

Lemma parse_mapping_other (self : Command) :
  match mapping self with
  | PList _ | PStr _ => False
  | _ => True
  end ->
  parse_mapping self = ([], Ok self).
Proof.
  unfold parse_mapping. destruct (mapping self); intros H;
    try reflexivity; destruct H.
Qed.

Lemma decimal_of_string_raises (s : pystr) (value : Z) (d : float) :
  result (decimal_of (PStr s) value) <> Ok d.
Proof.
  unfold decimal_of.
  destruct s as [| c0 [| c1 s]].
  - discriminate.
  - change (getitem (PStr [c0]) 0) with (ret (PStr [c0])).
    rewrite bind_ret_l, result_bind.
    destruct (result (int_truediv value 127)); discriminate.
  - change (getitem (PStr (c0 :: c1 :: s)) 0) with (ret (PStr [c0])).
    change (getitem (PStr (c0 :: c1 :: s)) 1) with (ret (PStr [c1])).
    rewrite bind_ret_l, result_bind.
    destruct (result (int_truediv value 127)); discriminate.
Qed.

(** C3, the code at the failing inputs: when the [mapping] of a rule is a
    string other than ["all"] that is not a comma-separated list of floats,
    [parse_mapping] prints the two lines of the diagnostic and leaves the
    field as it is, it does not set it to [[0, 127]]; the decimal value can
    then not be computed, so whenever the rule matches a message [execute]
    raises instead of launching the command.  For the string ["abc"]: the
    rule is built active with that mapping, and [execute] raises [TypeError]
    on a message it matches. *)
Theorem text_mapping_is_kept (self : Command) (s : pystr) :
  mapping self = PStr s -> str_eqb s (lit "all") = false ->
  floats_of (split_char ","%char s) = None ->
  parse_mapping self
  = ([Stdout [Lit "Command: "; Fmt (name self)];
      Stdout [Lit "Error parsing the mapping field: '"; Fmt (PStr s);
             Lit "'. Ignoring the mapping field.
"]],
     Ok self)
  /\ (forall value v u, result (launch self value v) <> Ok u)
  /\ (c <- Command_init [("event"%string, PStr (lit "note_on"));
                         ("command"%string, PStr (lit "echo $DECIMAL"));
                         ("mapping"%string, PStr (lit "abc"))] ;;
      ret (mapping c, truthy (active c)))
     = ([Stdout [Lit "Command: "; Fmt PNone];
         Stdout [Lit "Error parsing the mapping field: '"; Fmt (PStr (lit "abc"));
                Lit "'. Ignoring the mapping field.
"]],
        Ok (PStr (lit "abc"), true))
  /\ (c <- Command_init [("event"%string, PStr (lit "note_on"));
                         ("command"%string, PStr (lit "echo $DECIMAL"));
                         ("mapping"%string, PStr (lit "abc"))] ;;
      execute c (NoteOn 0 64 100) (lit "nanoPAD2") 0)
     = ([Stdout [Lit "Command: "; Fmt PNone];
         Stdout [Lit "Error parsing the mapping field: '"; Fmt (PStr (lit "abc"));
                Lit "'. Ignoring the mapping field.
"]],
        Raise TypeError).
Proof.
  intros Hm Hall Hf. split; [| split; [| split]].
  - apply parse_mapping_bad_string; assumption.
  - intros value v u H. unfold launch in H.
    apply bind_result_ok in H. destruct H as (pct & _ & H).
    apply bind_result_ok in H. destruct H as (dec & Hd & _).
    rewrite Hm in Hd. exact (decimal_of_string_raises s value dec Hd).
  - vm_compute. reflexivity.
  - vm_compute. reflexivity.
Qed.

Lemma text_mapping_is_kept_witness :
  parse_mapping
    {| active := PInt 1; channels := PStr (lit "all"); command := PStr (lit "echo");
       control := PStr (lit "all"); event := PStr (lit "note_on");
       mapping := PStr (lit "0;1"); name := PStr (lit "fader");
       note := PStr (lit "all"); ports := PStr (lit "all");
       values := PStr (lit "all"); velocities := PStr (lit "all") |}
  = ([Stdout [Lit "Command: "; Fmt (PStr (lit "fader"))];
      Stdout [Lit "Error parsing the mapping field: '"; Fmt (PStr (lit "0;1"));
             Lit "'. Ignoring the mapping field.
"]],
     Ok {| active := PInt 1; channels := PStr (lit "all"); command := PStr (lit "echo");
           control := PStr (lit "all"); event := PStr (lit "note_on");
           mapping := PStr (lit "0;1"); name := PStr (lit "fader");
           note := PStr (lit "all"); ports := PStr (lit "all");
           values := PStr (lit "all"); velocities := PStr (lit "all") |}).
Proof.
  exact (proj1 (text_mapping_is_kept
                  {| active := PInt 1; channels := PStr (lit "all");
                     command := PStr (lit "echo");
                     control := PStr (lit "all"); event := PStr (lit "note_on");
                     mapping := PStr (lit "0;1"); name := PStr (lit "fader");
                     note := PStr (lit "all"); ports := PStr (lit "all");
                     values := PStr (lit "all"); velocities := PStr (lit "all") |}
                  (lit "0;1") eq_refl eq_refl eq_refl)).
Defined.

(** The sibling paths do fall back: a list of the wrong length and a string
    of three numbers give [[0, 127]]. *)
Lemma wrong_length_mapping_falls_back :
  result (c <- Command_init [("event"%string, PStr (lit "note_on"));
                             ("mapping"%string, PList [PInt 1; PInt 2; PInt 3])] ;;
          ret (mapping c))
  = Ok default_mapping
  /\ result (c <- Command_init [("event"%string, PStr (lit "note_on"));
                                ("mapping"%string, PStr (lit "1,2,3"))] ;;
             ret (mapping c))
     = Ok default_mapping.
Proof. split; vm_compute; reflexivity. Qed.

(** ** Effects of [execute] *)

Lemma pure_ret {A} (a : A) : pure (ret a).
Proof. reflexivity. Qed.

Lemma pure_raise {A} (e : exn) : pure (@raise A e).
Proof. reflexivity. Qed.

Lemma pure_bind {A B} (m : M A) (f : A -> M B) :
  pure m -> (forall a, pure (f a)) -> pure (bind m f).
Proof.
  unfold pure. intros Hm Hf. rewrite effects_bind, Hm.
  destruct (result m); [apply Hf | reflexivity | reflexivity].
Qed.

Lemma pure_quiet {A} (m : M A) : pure m -> quiet m.
Proof. unfold pure, quiet, dispatches. intros ->. reflexivity. Qed.

Lemma quiet_bind {A B} (m : M A) (f : A -> M B) :
  quiet m -> (forall a, quiet (f a)) -> quiet (bind m f).
Proof.
  unfold quiet, dispatches. intros Hm Hf. rewrite effects_bind, runs_app, Hm.
  destruct (result m); [apply Hf | reflexivity | reflexivity].
Qed.

Lemma quiet_debug (v : Z) (self : Command) (what : string) : quiet (debug v self what).
Proof. unfold debug, when. destruct (v >=? 2); reflexivity. Qed.

Lemma pure_float_of_int (n : Z) : pure (float_of_int n).
Proof. unfold float_of_int. destruct (is_infinity _); reflexivity. Qed.

Lemma pure_int_truediv (a b : Z) : pure (int_truediv a b).
Proof. unfold int_truediv. destruct (is_infinity _); reflexivity. Qed.

Lemma pure_py_round (x : float) : pure (py_round x).
Proof. unfold py_round. destruct (Prim2SF x); reflexivity. Qed.

Lemma pure_py_round2 (x : float) : pure (py_round2 x).
Proof.
  unfold py_round2. destruct (Prim2SF x); try reflexivity.
  destruct (is_infinity _); reflexivity.
Qed.

Lemma pure_getitem (v : pyval) (i : nat) : pure (getitem v i).
Proof.
  unfold getitem. destruct v; try reflexivity.
  - destruct (nth_error s i); reflexivity.
  - destruct (nth_error l i); reflexivity.
Qed.

Lemma pure_py_sub (a b : pyval) : pure (py_sub a b).
Proof.
  destruct a, b; try reflexivity; simpl;
    apply pure_bind; intros; auto using pure_float_of_int, pure_ret.
Qed.

Lemma pure_float_mul (x : float) (b : pyval) : pure (float_mul x b).
Proof.
  destruct b; try reflexivity; simpl.
  apply pure_bind; intros; auto using pure_float_of_int, pure_ret.
Qed.

Lemma pure_add_float (a : pyval) (y : float) : pure (add_float a y).
Proof.
  destruct a; try reflexivity; simpl.
  apply pure_bind; intros; auto using pure_float_of_int, pure_ret.
Qed.

Lemma pure_percentage_of (value : Z) : pure (percentage_of value).
Proof.
  unfold percentage_of.
  repeat (apply pure_bind; [| intros ?]);
    auto using pure_int_truediv, pure_float_of_int, pure_py_round.
Qed.

Lemma pure_decimal_of (m : pyval) (value : Z) : pure (decimal_of m value).
Proof.
  unfold decimal_of.
  repeat (apply pure_bind; [| intros ?]);
    auto using pure_int_truediv, pure_getitem, pure_py_sub, pure_float_mul,
      pure_add_float, pure_py_round2.
Qed.

Lemma pure_msg (m : message) :
  pure (msg_channel m) /\ pure (msg_note m) /\ pure (msg_velocity m)
  /\ pure (msg_control m) /\ pure (msg_value m).
Proof. destruct m as [? ? ? | ? ? ? | ? ? ? | ? [c |]]; repeat split. Qed.

Lemma pure_contains (v : pyval) (n : Z) : pure (contains v n).
Proof. destruct v; reflexivity. Qed.

Lemma pure_port_matches (ports : pyval) (port_name : pystr) :
  pure (port_matches ports port_name).
Proof.
  destruct ports; try reflexivity. simpl.
  induction l as [| x l IH]; [reflexivity |].
  destruct x; try reflexivity.
  apply pure_bind; [exact IH | intros; reflexivity].
Qed.

Lemma quiet_match_kind (self : Command) (m : message) (v : Z) :
  quiet (match_kind self m v).
Proof.
  destruct (pure_msg m) as (_ & Hn & Hv & Hc & Hx).
  unfold match_kind.
  destruct (eq_str (event self) "note_on" || eq_str (event self) "note_off").
  - apply quiet_bind.
    + destruct (negb (eq_str (note self) "all")); [| reflexivity].
      apply pure_quiet. apply pure_bind; [exact Hn | intros n].
      apply pure_bind; [apply pure_contains | intros; reflexivity].
    + intros [|].
      * apply quiet_bind; [apply quiet_debug | intros; reflexivity].
      * apply quiet_bind; [apply pure_quiet, Hv | intros x].
        apply quiet_bind; [apply pure_quiet, pure_contains | intros b].
        destruct (negb b).
        -- apply quiet_bind; [apply quiet_debug | intros; reflexivity].
        -- apply quiet_bind; [apply pure_quiet, Hv | intros; reflexivity].
  - destruct (eq_str (event self) "control_change"); [| reflexivity].
    apply quiet_bind; [apply pure_quiet, Hc | intros x].
    apply quiet_bind; [apply pure_quiet, pure_contains | intros b].
    destruct (negb b).
    + apply quiet_bind; [apply quiet_debug | intros; reflexivity].
    + apply quiet_bind; [apply pure_quiet, Hx | intros y].
      apply quiet_bind; [apply pure_quiet, pure_contains | intros b'].
      destruct (negb b').
      * apply quiet_bind; [apply quiet_debug | intros; reflexivity].
      * apply quiet_bind; [apply pure_quiet, Hx | intros; reflexivity].
Qed.

Lemma quiet_match_message (self : Command) (m : message) (p : pystr) (v : Z) :
  quiet (match_message self m p v).
Proof.
  unfold match_message.
  destruct (negb (truthy (active self))).
  { apply quiet_bind; [apply quiet_debug | intros; reflexivity]. }
  destruct (negb (eq_pystr (event self) (msg_type m))).
  { apply quiet_bind; [apply quiet_debug | intros; reflexivity]. }
  apply quiet_bind; [apply pure_quiet, pure_port_matches | intros pm].
  destruct (negb (eq_str_list1 (ports self) "all") && negb (any pm)).
  { apply quiet_bind; [apply quiet_debug | intros; reflexivity]. }
  apply quiet_bind; [apply pure_quiet, (proj1 (pure_msg m)) | intros c].
  apply quiet_bind; [apply pure_quiet, pure_contains | intros b].
  destruct (negb b).
  { apply quiet_bind; [apply quiet_debug | intros; reflexivity]. }
  apply quiet_match_kind.
Qed.

Lemma pure_result {A} (m : M A) (a : A) : pure m -> result m = Ok a -> m = ret a.
Proof. destruct m as [l r]. unfold pure. simpl. intros -> ->. reflexivity. Qed.

(** The end of [execute]: when it returns, the two values were computed
    and the command, a string, was launched once, after the line printed
    when the verbosity is not zero. *)
Lemma launch_returns (self : Command) (value v : Z) (u : unit) :
  result (launch self value v) = Ok u ->
  exists percentage decimal template,
    percentage_of value = ret percentage
    /\ decimal_of (mapping self) value = ret decimal
    /\ command self = PStr template
    /\ effects (launch self value v)
       = (if negb (v =? 0)
          then [Stdout ([Lit "Executing command '"; Fmt (name self); Lit "': "]
                         ++ substitute template value percentage decimal)]
          else [])
         ++ [Run (substitute template value percentage decimal)].
Proof.
  unfold launch. intros H.
  apply bind_result_ok in H. destruct H as (pct & Hp & H).
  apply bind_result_ok in H. destruct H as (dec & Hd & H).
  apply (pure_result _ _ (pure_percentage_of value)) in Hp.
  apply (pure_result _ _ (pure_decimal_of (mapping self) value)) in Hd.
  destruct (command self) as [| | template | | |] eqn:Ec; try discriminate.
  exists pct, dec, template. repeat split; try assumption.
  rewrite Hp, Hd, !bind_ret_l. unfold when.
  destruct (negb (v =? 0)); reflexivity.
Qed.

(** When it does not return, it has no effect. *)
Lemma launch_raises (self : Command) (value v : Z) :
  (forall u, result (launch self value v) <> Ok u) -> effects (launch self value v) = [].
Proof.
  unfold launch. intros H.
  pose proof (pure_percentage_of value) as Pp.
  destruct (percentage_of value) as [lp [pct | e |]] eqn:Ep; unfold pure in Pp;
    simpl in Pp; subst lp; try reflexivity.
  change ([], Ok pct) with (ret (A := Z) pct) in *. rewrite bind_ret_l in *.
  pose proof (pure_decimal_of (mapping self) value) as Pd.
  destruct (decimal_of (mapping self) value) as [ld [dec | e |]] eqn:Ed;
    unfold pure in Pd; simpl in Pd; subst ld; try reflexivity.
  change ([], Ok dec) with (ret (A := float) dec) in *. rewrite bind_ret_l in *.
  destruct (command self); try reflexivity.
  exfalso. apply (H tt). unfold when. destruct (negb (v =? 0)); reflexivity.
Qed.

Lemma result_debug (v : Z) (self : Command) (what : string) :
  result (debug v self what) = Ok tt.
Proof. unfold debug, when. destruct (v >=? 2); reflexivity. Qed.

(** ** Rules with an unknown event *)

Lemma load_commands_keeps (tables : list config) :
  forall (acc cs : list Command),
    result (load_commands tables acc) = Ok cs ->
    (forall c, In c acc -> In c cs)
    /\ (forall cfg c, In cfg tables -> cfg <> [] ->
                      result (Command_init cfg) = Ok c -> In c cs).
Proof.
  induction tables as [| cmd rest IH]; intros acc cs H.
  - simpl in H. inversion H; subst. split; [auto | intros cfg c []].
  - destruct cmd as [| kv cmd'].
    + simpl in H. apply IH in H. destruct H as [H1 H2]. split; [exact H1 |].
      intros cfg c [<- | Hin] Hne Hr; [congruence | eauto].
    + change (load_commands ((kv :: cmd') :: rest) acc)
        with (c <- Command_init (kv :: cmd') ;; load_commands rest (acc ++ [c])) in H.
      apply bind_result_ok in H. destruct H as (c0 & Hc0 & H).
      apply IH in H. destruct H as [H1 H2]. split.
      * intros c Hc. apply H1, in_or_app. left. exact Hc.
      * intros cfg c [<- | Hin] Hne Hr.
        -- rewrite Hc0 in Hr. inversion Hr; subst.
           apply H1, in_or_app. right. left. reflexivity.
        -- eauto.
Qed.

(** C6: a rule built from a table whose [event] is none of the three kinds
    is inactive ([active] is set to [False] and nothing else of the rule is
    parsed); [execute] returns at its first test for every message, port and
    verbosity, so the rule never matches and launches nothing; and the rule
    is kept in the list of commands of the launcher built from any
    configuration that contains its (non-empty) table. *)
Theorem unknown_event_is_inactive (cfg : config) :
  valid_event (get cfg "event" PNone) = false ->
  exists c,
    Command_init cfg
    = ([Stdout [Lit "Error: Invalid event type '{self.event}'. Ignoring the command."]],
       Ok c)
    /\ active c = PInt 0
    /\ (forall m p v,
          result (match_message c m p v) = Ok None
          /\ result (execute c m p v) = Ok tt
          /\ dispatches (execute c m p v) = [])
    /\ (forall tables verbosity ignore launcher,
          In cfg tables -> cfg <> [] ->
          result (MIDILauncher_init tables verbosity ignore) = Ok launcher ->
          In c (commands launcher)).
Proof.
  intros H. unfold Command_init. cbn [event]. rewrite H. simpl negb. cbv iota.
  eexists. split; [reflexivity |]. split; [reflexivity |]. split.
  - intros m p v.
    assert (E : forall c, active c = PInt 0 ->
                match_message c m p v
                = (debug v c "' is not active." ;; ret None)).
    { intros c Hc. unfold match_message. rewrite Hc. reflexivity. }
    unfold execute. rewrite E by reflexivity.
    unfold debug, when. destruct (v >=? 2); repeat split; reflexivity.
  - intros tables verbosity ignore launcher Hin Hne Hl.
    unfold MIDILauncher_init in Hl.
    apply bind_result_ok in Hl. destruct Hl as (cs & Hcs & Hl).
    simpl in Hl. inversion Hl; subst. simpl.
    apply (proj2 (load_commands_keeps tables [] cs Hcs) cfg); auto.
    unfold Command_init. cbn [event]. rewrite H. reflexivity.
Qed.

Lemma unknown_event_is_inactive_witness :
  exists c,
    Command_init [("event"%string, PStr (lit "foo"));
                  ("command"%string, PStr (lit "echo $VALUE"))]
    = ([Stdout [Lit "Error: Invalid event type '{self.event}'. Ignoring the command."]],
       Ok c)
    /\ active c = PInt 0
    /\ (forall m p v,
          result (match_message c m p v) = Ok None
          /\ result (execute c m p v) = Ok tt
          /\ dispatches (execute c m p v) = [])
    /\ (forall tables verbosity ignore launcher,
          In [("event"%string, PStr (lit "foo"));
              ("command"%string, PStr (lit "echo $VALUE"))] tables ->
          [("event"%string, PStr (lit "foo"));
           ("command"%string, PStr (lit "echo $VALUE"))] <> [] ->
          result (MIDILauncher_init tables verbosity ignore) = Ok launcher ->
          In c (commands launcher)).
Proof.
  exact (unknown_event_is_inactive
           [("event"%string, PStr (lit "foo"));
            ("command"%string, PStr (lit "echo $VALUE"))] eq_refl).
Defined.

(** ** The loop over the rules *)

Lemma execute_dispatch (c : Command) (m : message) (p : pystr) (v : Z) :
  result (execute c m p v) = Ok tt ->
  match result (match_message c m p v) with
  | Ok (Some value) => exists t, dispatches (execute c m p v) = [t]
  | _ => dispatches (execute c m p v) = []
  end.
Proof.
  intros H. unfold execute in *. unfold dispatches.
  rewrite effects_bind, runs_app.
  pose proof (quiet_match_message c m p v) as Q. unfold quiet, dispatches in Q.
  rewrite Q. rewrite result_bind in H.
  destruct (result (match_message c m p v)) as [[value |] | e |]; try reflexivity.
  destruct (launch_returns c value v tt H) as (pct & dec & template & _ & _ & _ & E).
  rewrite E. exists (substitute template value pct dec).
  destruct (negb (v =? 0)); reflexivity.
Qed.

Lemma execute_at_most_once (c : Command) (m : message) (p : pystr) (v : Z) :
  (List.length (dispatches (execute c m p v)) <= 1)%nat.
Proof.
  unfold execute, dispatches. rewrite effects_bind, runs_app.
  pose proof (quiet_match_message c m p v) as Q. unfold quiet, dispatches in Q.
  rewrite Q. destruct (result (match_message c m p v)) as [[value |] | e |];
    simpl; try lia.
  destruct (result (launch c value v)) as [[] | e |] eqn:E.
  - destruct (launch_returns c value v tt E) as (pct & dec & template & _ & _ & _ & E').
    rewrite E'. destruct (negb (v =? 0)); simpl; lia.
  - rewrite launch_raises; [simpl; lia | intros u; rewrite E; discriminate].
  - rewrite launch_raises; [simpl; lia | intros u; rewrite E; discriminate].
Qed.

Lemma execute_all_returns (cs : list Command) (m : message) (p : pystr) (v : Z) :
  (forall c, In c cs -> result (execute c m p v) = Ok tt) ->
  result (execute_all cs m p v) = Ok tt
  /\ effects (execute_all cs m p v) = flat_map (fun c => effects (execute c m p v)) cs.
Proof.
  induction cs as [| c rest IH]; intros H; simpl.
  - split; reflexivity.
  - assert (Hc : result (execute c m p v) = Ok tt) by (apply H; left; reflexivity).
    destruct IH as [IH1 IH2]; [intros c' Hc'; apply H; right; exact Hc' |].
    rewrite (result_bind_ok _ _ tt Hc), (effects_bind_ok _ _ tt Hc), IH1, IH2.
    split; reflexivity.
Qed.

Lemma runs_flat_map {A} (f : A -> list effect) (l : list A) :
  runs (flat_map f l) = flat_map (fun a => runs (f a)) l.
Proof.
  induction l as [| a l IH]; simpl; [reflexivity |].
  rewrite runs_app, IH. reflexivity.
Qed.




(** ** The payload *)

Ltac early_return H :=
  rewrite result_bind, result_debug in H; discriminate H.

Lemma match_kind_value (self : Command) (m : message) (v value : Z) :
  result (match_kind self m v) = Ok (Some value) ->
  if eq_str (event self) "note_on" || eq_str (event self) "note_off"
  then msg_velocity m = ret value
  else if eq_str (event self) "control_change"
       then msg_value m = ret value
       else value = 0.
Proof.
  destruct (pure_msg m) as (_ & Hn & Hv & Hc & Hx).
  unfold match_kind. intros H.
  destruct (eq_str (event self) "note_on" || eq_str (event self) "note_off").
  - apply bind_result_ok in H. destruct H as ([|] & _ & H); [early_return H |].
    apply bind_result_ok in H. destruct H as (x & _ & H).
    apply bind_result_ok in H. destruct H as (b & _ & H).
    destruct (negb b); [early_return H |].
    apply bind_result_ok in H. destruct H as (y & Hy & H).
    simpl in H. inversion H; subst. apply pure_result; assumption.
  - destruct (eq_str (event self) "control_change").
    + apply bind_result_ok in H. destruct H as (x & _ & H).
      apply bind_result_ok in H. destruct H as (b & _ & H).
      destruct (negb b); [early_return H |].
      apply bind_result_ok in H. destruct H as (y & _ & H).
      apply bind_result_ok in H. destruct H as (b' & _ & H).
      destruct (negb b'); [early_return H |].
      apply bind_result_ok in H. destruct H as (z & Hz & H).
      simpl in H. inversion H; subst. apply pure_result; assumption.
    + simpl in H. inversion H. reflexivity.
Qed.

Lemma match_message_kind (self : Command) (m : message) (p : pystr) (v value : Z) :
  result (match_message self m p v) = Ok (Some value) ->
  truthy (active self) = true
  /\ eq_pystr (event self) (msg_type m) = true
  /\ result (match_kind self m v) = Ok (Some value).
Proof.
  unfold match_message. intros H.
  destruct (truthy (active self)); simpl negb in H; cbv iota in H;
    [| early_return H].
  destruct (eq_pystr (event self) (msg_type m)); simpl negb in H; cbv iota in H;
    [| early_return H].
  apply bind_result_ok in H. destruct H as (pm & _ & H).
  destruct (negb (eq_str_list1 (ports self) "all") && negb (any pm));
    [early_return H |].
  apply bind_result_ok in H. destruct H as (c & _ & H).
  apply bind_result_ok in H. destruct H as (b & _ & H).
  destruct (negb b); [early_return H |].
  auto.
Qed.

Lemma percentage_0_127 (value : Z) :
  0 <= value <= 127 ->
  percentage_of value = ret (round_half_even (value * 100) 127).
Proof.
  intros H.
  assert (Hin : In value (py_range 0 128 1)) by (apply py_range_step1_In; lia).
  assert (Hall : forallb
                   (fun k => match percentage_of k with
                             | ([], Ok n) => n =? round_half_even (k * 100) 127
                             | _ => false
                             end) (py_range 0 128 1) = true)
    by (vm_compute; reflexivity).
  rewrite forallb_forall in Hall. specialize (Hall value Hin).
  destruct (percentage_of value) as [[| e l] [n | e' |]]; try discriminate.
  apply Z.eqb_eq in Hall. subst n. reflexivity.
Qed.

(** C9: when a rule matches a message, the value it derives is the velocity
    of the message for the note rules and its value for the control-change
    rules; the command launched is the template with the placeholders
    replaced by that value, by [percentage = round(value / 127 * 100)] and
    by [decimal = round(low + value / 127 * (high - low), 2)], where
    [[low, high]] is the mapping of the rule.  For the values of a MIDI
    message, 0 to 127, the percentage is the integer nearest to
    [100 * value / 127] (ties to even); the value 100 gives 79. *)
Theorem payload_of_a_match (self : Command) (m : message) (p : pystr) (v value : Z) :
  result (match_message self m p v) = Ok (Some value) ->
  (if eq_str (event self) "note_on" || eq_str (event self) "note_off"
   then msg_velocity m = ret value
   else if eq_str (event self) "control_change"
        then msg_value m = ret value
        else value = 0)
  /\ (forall u, result (execute self m p v) = Ok u ->
        exists percentage decimal template,
          percentage_of value = ret percentage
          /\ decimal_of (mapping self) value = ret decimal
          /\ command self = PStr template
          /\ dispatches (execute self m p v)
             = [substitute template value percentage decimal])
  /\ percentage_of value
     = (q <- int_truediv value 127 ;;
        hundred <- float_of_int 100 ;;
        py_round (q * hundred)%float)
  /\ (forall low high,
        mapping self = PList [low; high] ->
        decimal_of (mapping self) value
        = (q <- int_truediv value 127 ;;
           width <- py_sub high low ;;
           scaled <- float_mul q width ;;
           sum <- add_float low scaled ;;
           py_round2 sum))
  /\ (0 <= value <= 127 ->
      percentage_of value = ret (round_half_even (value * 100) 127))
  /\ percentage_of 100 = ret 79.
Proof.
  intros H. destruct (match_message_kind self m p v value H) as (_ & _ & Hk).
  split; [exact (match_kind_value self m v value Hk) |].
  split; [| split; [reflexivity | split; [| split]]].
  - intros u Hu. unfold execute in Hu |- *.
    rewrite result_bind, H in Hu. destruct u.
    destruct (launch_returns self value v tt Hu) as (pct & dec & template & Hp & Hd & Hc & E).
    exists pct, dec, template. repeat split; try assumption.
    unfold dispatches. rewrite effects_bind, runs_app, H, E.
    pose proof (quiet_match_message self m p v) as Q. unfold quiet, dispatches in Q.
    rewrite Q. destruct (negb (v =? 0)); reflexivity.
  - intros low high Hm. rewrite Hm. unfold decimal_of.
    change (getitem (PList [low; high]) 0) with (ret low).
    change (getitem (PList [low; high]) 1) with (ret high).
    rewrite bind_ret_l. apply bind_ext. intros q.
    rewrite !bind_ret_l. reflexivity.
  - apply percentage_0_127.
  - vm_compute. reflexivity.
Qed.

Lemma payload_of_a_match_witness :
  exists percentage decimal template,
    percentage_of 100 = ret percentage
    /\ decimal_of default_mapping 100 = ret decimal
    /\ PStr (lit "echo $PERCENTAGE") = PStr template
    /\ dispatches
         (execute
            {| active := PInt 1; channels := int_list [1];
               command := PStr (lit "echo $PERCENTAGE");
               control := int_list []; event := PStr (lit "note_on");
               mapping := default_mapping; name := PNone;
               note := int_list [64; 65; 66];
               ports := PList [PStr (lit "all")]; values := int_list [];
               velocities := int_list [100] |}
            (NoteOn 0 64 100) (lit "nanoPAD2") 0)
       = [substitute template 100 percentage decimal].
Proof.
  exact (proj1 (proj2
           (payload_of_a_match
              {| active := PInt 1; channels := int_list [1];
                 command := PStr (lit "echo $PERCENTAGE");
                 control := int_list []; event := PStr (lit "note_on");
                 mapping := default_mapping; name := PNone;
                 note := int_list [64; 65; 66];
                 ports := PList [PStr (lit "all")]; values := int_list [];
                 velocities := int_list [100] |}
              (NoteOn 0 64 100) (lit "nanoPAD2") 0 100 eq_refl)) tt eq_refl).
Defined.

(** The rule of the example: note 64 with velocity 100 gives the
    percentage 79, and with the default mapping the decimal 100.0. *)
Lemma example_note_on_64 :
  execute
    {| active := PInt 1; channels := int_list [1];
       command := PStr (lit "echo $PERCENTAGE $DECIMAL");
       control := int_list []; event := PStr (lit "note_on");
       mapping := default_mapping; name := PNone;
       note := int_list [64; 65; 66];
       ports := PList [PStr (lit "all")]; values := int_list [];
       velocities := int_list [100] |}
    (NoteOn 0 64 100) (lit "nanoPAD2") 0
  = ([Run [Fmt (PStr (lit "echo 79 ")); Fmt (PFloat 100); Fmt (PStr [])]], Ok tt).
Proof. vm_compute. reflexivity. Qed.

(** * Further properties *)

(** ** The exceptions of the parser *)

Lemma raises_only_ret {A} (e : exn) (a : A) : raises_only e (ret a).
Proof. intros e' H. discriminate H. Qed.

Lemma raises_only_emit (e : exn) (x : effect) : raises_only e (emit x).
Proof. intros e' H. discriminate H. Qed.

Lemma raises_only_raise {A} (e : exn) : raises_only e (@raise A e).
Proof. intros e' H. inversion H. reflexivity. Qed.

Lemma raises_only_bind {A B} (e : exn) (m : M A) (f : A -> M B) :
  raises_only e m -> (forall a, raises_only e (f a)) -> raises_only e (bind m f).
Proof.
  unfold raises_only. intros Hm Hf e'. rewrite result_bind.
  destruct (result m) as [a | e0 |] eqn:E.
  - apply Hf.
  - intros H. inversion H; subst. apply Hm. reflexivity.
  - discriminate.
Qed.

Lemma raises_only_when (e : exn) (b : bool) (m : M unit) :
  raises_only e m -> raises_only e (when b m).
Proof. destruct b; simpl; [auto | intros _; apply raises_only_ret]. Qed.

Lemma raises_only_int (s : pystr) : raises_only ValueError (int_ s).
Proof.
  unfold int_. destruct (py_int s);
    [apply raises_only_ret | apply raises_only_raise].
Qed.

Lemma raises_only_int_step (st : step_value) : raises_only ValueError (int_step st).
Proof. destruct st; simpl; [apply raises_only_ret | apply raises_only_int]. Qed.

Lemma raises_only_range (a b st : Z) : raises_only ValueError (range_ a b st).
Proof.
  unfold range_. destruct (st =? 0);
    [apply raises_only_raise | apply raises_only_ret].
Qed.

Lemma raises_only_header (e : exn) (h : text) :
  raises_only e (error_header h) /\ raises_only e (warning_header h).
Proof.
  unfold error_header, warning_header.
  split; apply raises_only_when, raises_only_emit.
Qed.

Ltac raises_steps h :=
  repeat first
    [ apply raises_only_bind; [| intros ?]
    | apply raises_only_when
    | apply (proj1 (raises_only_header ValueError h))
    | apply (proj2 (raises_only_header ValueError h))
    | apply raises_only_ret
    | apply raises_only_emit
    | apply raises_only_raise
    | apply raises_only_int
    | apply raises_only_int_step
    | apply raises_only_range ].

Lemma parse_item_raises_only (dr : Z * Z) (h : text) (sep : ascii) (s : pystr) :
  raises_only ValueError (parse_item dr h sep s).
Proof.
  unfold parse_item.
  destruct (isdigit s); [raises_steps h |].
  destruct (match_colon_range (lower s)) as [[[start end_] step] |].
  - destruct (step_eq_zero _); [raises_steps h |].
    apply raises_only_bind; [apply raises_only_int | intros va].
    apply raises_only_bind; [apply raises_only_int | intros vb].
    destruct (va >? vb); [raises_steps h |].
    apply raises_only_bind; [apply raises_only_int_step | intros st].
    destruct (st <? 0); raises_steps h.
  - destruct (char_in sep s); [| raises_steps h].
    destruct (match split_char sep s with
              | [start; end_] =>
                  match py_int start, py_int end_ with
                  | Some a, Some b => Some (a, b)
                  | _, _ => None
                  end
              | _ => None
              end) as [[start end_] |]; [| raises_steps h].
    destruct (start >? end_); raises_steps h.
Qed.

Lemma extend_all_raises_only {A} (e : exn) (parse : A -> M (list Z)) (items : list A) :
  forall acc,
    Forall (fun item => raises_only e (parse item)) items ->
    raises_only e (extend_all parse items acc).
Proof.
  induction items as [| item rest IH]; intros acc H; simpl.
  - apply raises_only_ret.
  - inversion H; subst. apply raises_only_bind; [assumption |].
    intros r. apply IH. assumption.
Qed.

Lemma parse_str_raises_only (dr : Z * Z) (h : text) (sep : ascii) :
  forall (f : nat) (s : pystr), raises_only ValueError (parse_str dr h sep f s).
Proof.
  induction f as [| f IH]; intros s.
  - intros e' H. discriminate H.
  - rewrite parse_str_unfold.
    destruct (str_eqb s []); [apply raises_only_ret |].
    destruct (str_eqb s (lit "all")); [apply raises_only_ret |].
    destruct (1 <? List.length (re_split s))%nat; [| apply parse_item_raises_only].
    apply extend_all_raises_only. apply Forall_forall. intros item _. apply IH.
Qed.


(** ** Single numbers and ranges with a separator *)

Lemma filter_all_decimal (d : pystr) :
  forallb is_decimal d = true -> filter is_decimal d = d.
Proof.
  induction d as [| c d IH]; simpl; [reflexivity |].
  rewrite andb_true_iff. intros [Hc Hd]. rewrite Hc, (IH Hd). reflexivity.
Qed.

Lemma digits_cases (d : pystr) :
  is_digits d = true ->
  exists c r, d = c :: r /\ is_decimal c = true /\ forallb is_decimal r = true
              /\ is_int_literal d = true /\ literal_value d = digits_value d.
Proof.
  unfold is_digits. rewrite andb_true_iff. intros [H Hlen].
  destruct d as [| c r]; [discriminate |].
  pose proof H as H'. simpl in H'. apply andb_true_iff in H'. destruct H' as [Hc Hr].
  exists c, r. repeat split; auto.
  - unfold is_int_literal, is_signed_digits, count_decimal.
    destruct (decimal_char c Hc) as (_ & _ & _ & _ & _ & -> & _).
    rewrite H, (filter_all_decimal (c :: r) H), Hlen. reflexivity.
  - unfold literal_value.
    destruct (decimal_char c Hc) as (_ & _ & _ & _ & _ & -> & _). reflexivity.
Qed.

Lemma isdigit_digits (d : pystr) : is_digits d = true -> isdigit d = true.
Proof.
  intros H. destruct (digits_cases d H) as (c & r & -> & Hc & Hr & _).
  unfold isdigit. simpl.
  destruct (decimal_char c Hc) as (_ & _ & _ & -> & _). simpl.
  apply forallb_forall. intros x Hx.
  rewrite forallb_forall in Hr. apply decimal_char. auto.
Qed.

(** X2: a string of decimal digits is parsed like the integer it denotes
    (leading zeros allowed): the same list, the same warning when the value is
    outside the default range. *)
Theorem digit_string_is_its_integer (d : pystr) (dr : Z * Z) (h : text) (sep : ascii) :
  is_digits d = true ->
  parse_user_input dr h sep (PStr d) = parse_user_input dr h sep (PInt (digits_value d)).
Proof.
  intros H. destruct (digits_cases d H) as (c & r & E & Hc & Hr & Hl & Hv).
  change (parse_user_input dr h sep (PStr d))
    with (parse_str dr h sep (S (List.length d)) d).
  rewrite parse_str_token by (apply literal_token; exact Hl).
  assert (E0 : str_eqb d [] = false) by (rewrite E; reflexivity).
  assert (E1 : str_eqb d (lit "all") = false).
  { rewrite <- (app_nil_r d). apply literal_not_all. exact Hl. }
  rewrite E0, E1. unfold parse_item. rewrite (isdigit_digits d H).
  unfold int_. rewrite (py_int_literal d Hl), Hv, bind_ret_l. reflexivity.
Qed.

Lemma digit_string_is_its_integer_witness :
  parse_user_input (0, 127) [] "-"%char (PStr (lit "0200"))
  = parse_user_input (0, 127) [] "-"%char (PInt 200).
Proof.
  exact (digit_string_is_its_integer (lit "0200") (0, 127) [] "-"%char eq_refl).
Defined.

Lemma isdigit_with (a r : pystr) (c : ascii) :
  is_digit c = false -> isdigit (a ++ c :: r) = false.
Proof.
  intros Hc. unfold isdigit. destruct (a ++ c :: r) eqn:E.
  - destruct a; discriminate.
  - rewrite <- E. rewrite forallb_app. simpl. rewrite Hc. apply andb_false_r.
Qed.

Lemma char_in_app (c : ascii) (a r : pystr) : char_in c (a ++ c :: r) = true.
Proof.
  unfold char_in. rewrite existsb_app. simpl. rewrite Ascii.eqb_refl.
  apply orb_true_r.
Qed.

Lemma split_char_from_app (sep : ascii) (a r : pystr) :
  forall cur,
    forallb (fun x => negb (Ascii.eqb x sep)) a = true ->
    split_char_from sep cur (a ++ sep :: r) = (cur ++ a) :: split_char_from sep [] r.
Proof.
  induction a as [| x a IH]; intros cur H; simpl.
  - rewrite Ascii.eqb_refl, app_nil_r. reflexivity.
  - simpl in H. apply andb_true_iff in H. destruct H as [Hx Ha].
    apply negb_true_iff in Hx. rewrite Hx, IH by exact Ha.
    rewrite <- app_assoc. reflexivity.
Qed.

Lemma split_char_from_none (sep : ascii) (a : pystr) :
  forall cur,
    forallb (fun x => negb (Ascii.eqb x sep)) a = true ->
    split_char_from sep cur a = [cur ++ a].
Proof.
  induction a as [| x a IH]; intros cur H; simpl.
  - rewrite app_nil_r. reflexivity.
  - simpl in H. apply andb_true_iff in H. destruct H as [Hx Ha].
    apply negb_true_iff in Hx. rewrite Hx, IH by exact Ha.
    rewrite <- app_assoc. reflexivity.
Qed.

Lemma decimal_not_char (sep : ascii) (d : pystr) :
  is_decimal sep = false -> forallb is_decimal d = true ->
  forallb (fun x => negb (Ascii.eqb x sep)) d = true.
Proof.
  intros Hs Hd. apply forallb_forall. intros x Hx.
  rewrite forallb_forall in Hd. specialize (Hd x Hx).
  apply negb_true_iff. destruct (Ascii.eqb x sep) eqn:E; [| reflexivity].
  apply Ascii.eqb_eq in E. subst x. congruence.
Qed.

Lemma digit_not_decimal (c : ascii) : is_digit c = false -> is_decimal c = false.
Proof. each_char c. Qed.

(** The colon pattern does not match a literal followed by a character
    that is no digit, no white space and no colon. *)
Lemma no_colon_match (a r : pystr) (c : ascii) :
  is_int_literal a = true -> is_decimal c = false -> is_space c = false ->
  Ascii.eqb c ":"%char = false ->
  match_colon_range (lower (a ++ c :: r)) = None.
Proof.
  intros Ha Hd Hs Hc.
  assert (E : lower (a ++ c :: r) = a ++ lower_char c :: lower r).
  { unfold lower. rewrite map_app. simpl. fold (lower a).
    rewrite (literal_lower a Ha). reflexivity. }
  destruct (lower_char_class c) as (Ld & Ls & Lc & _).
  rewrite E. unfold match_colon_range.
  rewrite scan_int_literal; [| exact Ha | simpl; rewrite Ld; exact Hd].
  simpl strip_left. rewrite Ls, Hs, Lc, Hc. reflexivity.
Qed.

(** X3: a range written with the separator, [a<sep>b] for two strings of
    digits, yields the ascending list from [a] to [b], both included; when
    [a > b] it is rejected with the error on the bounds, and bounds outside
    the default range only add a warning. *)
Theorem separator_range (a b : pystr) (dr : Z * Z) (h : text) (sep : ascii) :
  is_digits a = true -> is_digits b = true ->
  is_digit sep = false -> Ascii.eqb sep ":"%char = false ->
  not_separator sep = true ->
  parse_user_input dr h sep (PStr (a ++ sep :: b))
  = if digits_value a >? digits_value b then
      ((if text_truthy h then [Error h] else [])
         ++ [Error [Lit "Error: Start value is greater than the end value. Ignoring the range."]],
       Ok [])
    else
      (if (digits_value a <? fst dr) || (digits_value b >? snd dr)
       then (if text_truthy h then [Warning h] else [])
              ++ [Warning [Lit "Warning: Range '"; Fmt (PInt (digits_value a));
                           Fmt (PStr [sep]); Fmt (PInt (digits_value b));
                           Lit "' is outside the expected range ";
                           FmtRange dr; Lit "."]]
       else [],
       Ok (py_range (digits_value a) (digits_value b + 1) 1)).
Proof.
  intros Ha Hb Hsd Hsc Hst.
  destruct (digits_cases a Ha) as (ca & ra & Ea & Hca & Hra & Hla & Hva).
  destruct (digits_cases b Hb) as (cb & rb & Eb & Hcb & Hrb & Hlb & Hvb).
  pose proof (digit_not_decimal sep Hsd) as Hdec.
  assert (Htok : is_token (a ++ sep :: b) = true).
  { rewrite is_token_app. simpl. fold (is_token b).
    rewrite (literal_token a Hla), (literal_token b Hlb), Hst. reflexivity. }
  assert (Hall_a : forallb is_decimal a = true) by (rewrite Ea; simpl; rewrite Hca, Hra; reflexivity).
  assert (Hall_b : forallb is_decimal b = true) by (rewrite Eb; simpl; rewrite Hcb, Hrb; reflexivity).
  change (parse_user_input dr h sep (PStr (a ++ sep :: b)))
    with (parse_str dr h sep (S (List.length (a ++ sep :: b))) (a ++ sep :: b)).
  rewrite parse_str_token by exact Htok.
  assert (E0 : str_eqb (a ++ sep :: b) [] = false) by (destruct a; reflexivity).
  rewrite E0, literal_not_all by exact Hla.
  unfold parse_item.
  rewrite (isdigit_with a b sep Hsd).
  rewrite (no_colon_match a b sep Hla Hdec (token_char_not_space sep Hst) Hsc).
  rewrite char_in_app. unfold split_char.
  rewrite split_char_from_app by (apply decimal_not_char; assumption).
  rewrite split_char_from_none by (apply decimal_not_char; assumption).
  simpl app. rewrite (py_int_literal a Hla), (py_int_literal b Hlb), Hva, Hvb.
  destruct (digits_value a >? digits_value b).
  - unfold error_header, when. destruct (text_truthy h); reflexivity.
  - unfold warning_header, when.
    destruct ((digits_value a <? fst dr) || (digits_value b >? snd dr));
      destruct (text_truthy h); reflexivity.
Qed.

Lemma separator_range_witness :
  parse_user_input (0, 127) [] "-"%char (PStr (lit "007-10")) = ([], Ok [7; 8; 9; 10]).
Proof.
  exact (separator_range (lit "007") (lit "10") (0, 127) [] "-"%char
           eq_refl eq_refl eq_refl eq_refl eq_refl).
Defined.

(** X4: with the default separator a range cannot have a negative bound:
    the minus sign of a bound is taken for a separator, the string falls into
    three parts, and the range is rejected with the error of a malformed
    range and the empty list. *)
Theorem dash_range_rejects_negative_bound (a b : pystr) (dr : Z * Z) (h : text) :
  is_digits a = true -> is_digits b = true ->
  parse_user_input dr h "-"%char (PStr ("-"%char :: a ++ "-"%char :: b))
  = ((if text_truthy h then [Error h] else [])
       ++ [Error [Lit "Error parsing the range: '";
                  Fmt (PStr ("-"%char :: a ++ "-"%char :: b));
                  Lit "'. Ignoring the range."]],
     Ok [])
  /\ parse_user_input dr h "-"%char (PStr (a ++ "-"%char :: "-"%char :: b))
     = ((if text_truthy h then [Error h] else [])
          ++ [Error [Lit "Error parsing the range: '";
                     Fmt (PStr (a ++ "-"%char :: "-"%char :: b));
                     Lit "'. Ignoring the range."]],
        Ok []).
Proof.
  intros Ha Hb.
  destruct (digits_cases a Ha) as (ca & ra & Ea & Hca & Hra & Hla & Hva).
  destruct (digits_cases b Hb) as (cb & rb & Eb & Hcb & Hrb & Hlb & Hvb).
  assert (Hall_a : forallb is_decimal a = true) by (rewrite Ea; simpl; rewrite Hca, Hra; reflexivity).
  assert (Hall_b : forallb is_decimal b = true) by (rewrite Eb; simpl; rewrite Hcb, Hrb; reflexivity).
  assert (Hna : is_int_literal ("-"%char :: a) = true).
  { unfold is_int_literal in *. apply andb_true_iff in Hla. destruct Hla as [_ Hcount].
    apply andb_true_iff. split.
    - rewrite Ea. simpl. rewrite Hca, Hra. reflexivity.
    - exact Hcount. }
  split.
  - assert (Htok : is_token (("-"%char :: a) ++ "-"%char :: b) = true).
    { rewrite is_token_app. simpl. fold (is_token a). fold (is_token b).
      rewrite (literal_token a Hla), (literal_token b Hlb). reflexivity. }
    change (parse_user_input dr h "-"%char (PStr ("-"%char :: a ++ "-"%char :: b)))
      with (parse_str dr h "-"%char
              (S (List.length (("-"%char :: a) ++ "-"%char :: b)))
              (("-"%char :: a) ++ "-"%char :: b)).
    rewrite parse_str_token by exact Htok.
    rewrite literal_not_all by exact Hna.
    change (str_eqb (("-"%char :: a) ++ "-"%char :: b) []) with false. cbv iota.
    unfold parse_item.
    rewrite (isdigit_with ("-"%char :: a) b "-"%char eq_refl).
    rewrite (no_colon_match ("-"%char :: a) b "-"%char Hna eq_refl eq_refl eq_refl).
    rewrite char_in_app. unfold split_char.
    change (split_char_from "-"%char [] (("-"%char :: a) ++ "-"%char :: b))
      with ([] :: split_char_from "-"%char [] (a ++ "-"%char :: b)).
    rewrite split_char_from_app by (apply decimal_not_char; [reflexivity | assumption]).
    rewrite split_char_from_none by (apply decimal_not_char; [reflexivity | assumption]).
    unfold error_header, when. destruct (text_truthy h); reflexivity.
  - assert (Htok : is_token (a ++ "-"%char :: "-"%char :: b) = true).
    { rewrite is_token_app. simpl. fold (is_token b).
      rewrite (literal_token a Hla), (literal_token b Hlb). reflexivity. }
    change (parse_user_input dr h "-"%char (PStr (a ++ "-"%char :: "-"%char :: b)))
      with (parse_str dr h "-"%char
              (S (List.length (a ++ "-"%char :: "-"%char :: b)))
              (a ++ "-"%char :: "-"%char :: b)).
    rewrite parse_str_token by exact Htok.
    assert (E0 : str_eqb (a ++ "-"%char :: "-"%char :: b) [] = false)
      by (destruct a; reflexivity).
    rewrite E0, literal_not_all by exact Hla.
    unfold parse_item.
    rewrite (isdigit_with a ("-"%char :: b) "-"%char eq_refl).
    rewrite (no_colon_match a ("-"%char :: b) "-"%char Hla eq_refl eq_refl eq_refl).
    rewrite char_in_app. unfold split_char.
    rewrite split_char_from_app by (apply decimal_not_char; [reflexivity | assumption]).
    change (split_char_from "-"%char [] ("-"%char :: b))
      with ([] :: split_char_from "-"%char [] b).
    rewrite split_char_from_none by (apply decimal_not_char; [reflexivity | assumption]).
    unfold error_header, when. destruct (text_truthy h); reflexivity.
Qed.

Lemma dash_range_rejects_negative_bound_witness :
  parse_user_input (0, 127) [] "-"%char (PStr (lit "-3-5"))
  = ([Error [Lit "Error parsing the range: '"; Fmt (PStr (lit "-3-5"));
             Lit "'. Ignoring the range."]], Ok []).
Proof.
  exact (proj1 (dash_range_rejects_negative_bound (lit "3") (lit "5") (0, 127) []
                  eq_refl eq_refl)).
Defined.

(** ** Strings of several items *)

Lemma extend_all_cons {A} (f : A -> M (list Z)) (item : A) (rest : list A)
    (acc : list Z) :
  extend_all f (item :: rest) acc = (r <- f item ;; extend_all f rest (acc ++ r)).
Proof. reflexivity. Qed.

Lemma extend_all_ext {A} (f g : A -> M (list Z)) (items : list A) :
  forall acc,
    Forall (fun item => f item = g item) items ->
    extend_all f items acc = extend_all g items acc.
Proof.
  induction items as [| item rest IH]; intros acc H; simpl; [reflexivity |].
  inversion H; subst. rewrite H2. apply bind_ext. intros r. apply IH. assumption.
Qed.

Lemma extend_all_acc {A} (f : A -> M (list Z)) (items : list A) :
  forall acc,
    extend_all f items acc = (r <- extend_all f items [] ;; ret (acc ++ r)).
Proof.
  induction items as [| item rest IH]; intros acc.
  - change (ret acc = (r <- ret [] ;; ret (acc ++ r))).
    rewrite bind_ret_l, app_nil_r. reflexivity.
  - change (bind (f item) (fun r => extend_all f rest (acc ++ r))
            = bind (bind (f item) (fun r => extend_all f rest r))
                (fun r => ret (acc ++ r))).
    rewrite bind_assoc. apply bind_ext. intros r.
    rewrite (IH (acc ++ r)), (IH r), bind_assoc. apply bind_ext. intros r'.
    rewrite bind_ret_l, app_assoc. reflexivity.
Qed.

Lemma extend_all_app {A} (f : A -> M (list Z)) (l1 l2 : list A) :
  forall acc,
    extend_all f (l1 ++ l2) acc = (r <- extend_all f l1 acc ;; extend_all f l2 r).
Proof.
  induction l1 as [| item rest IH]; intros acc; simpl.
  - destruct (extend_all f l2 acc). reflexivity.
  - rewrite bind_assoc. apply bind_ext. intros r. apply IH.
Qed.

Lemma extend_all_filter {A} (f : A -> M (list Z)) (keep : A -> bool) :
  (forall item, keep item = false -> f item = ret []) ->
  forall items acc,
    extend_all f items acc = extend_all f (filter keep items) acc.
Proof.
  intros H. induction items as [| item rest IH]; intros acc; [reflexivity |].
  cbn [filter]. destruct (keep item) eqn:E; rewrite !extend_all_cons.
  - apply bind_ext. intros r. apply IH.
  - rewrite (H item E), bind_ret_l, app_nil_r. apply IH.
Qed.

Lemma several_items (s : pystr) :
  (1 < List.length (re_split s))%nat ->
  str_eqb s [] = false /\ str_eqb s (lit "all") = false /\ (1 <= List.length s)%nat.
Proof.
  intros H.
  assert (E0 : str_eqb s [] = false).
  { destruct (str_eqb s []) eqn:E; [| reflexivity].
    apply str_eqb_eq in E. subst s. simpl in H. lia. }
  repeat split.
  - exact E0.
  - destruct (str_eqb s (lit "all")) eqn:E; [| reflexivity].
    apply str_eqb_eq in E. subst s. simpl in H. lia.
  - destruct s; [discriminate | simpl; lia].
Qed.

(** A string that splits into several items is parsed item by item, each
    item as a string of its own. *)
Lemma parse_items (dr : Z * Z) (h : text) (sep : ascii) (s : pystr) :
  (1 < List.length (re_split s))%nat ->
  parse_user_input dr h sep (PStr s)
  = extend_all (fun t => parse_user_input dr h sep (PStr t)) (re_split s) [].
Proof.
  intros H. destruct (several_items s H) as (E0 & E1 & Hlen).
  change (parse_user_input dr h sep (PStr s))
    with (parse_str dr h sep (S (List.length s)) s).
  rewrite parse_str_unfold, E0, E1.
  apply Nat.ltb_lt in H. rewrite H.
  apply extend_all_ext.
  eapply Forall_impl; [| apply (re_split_from_tokens s false []); reflexivity].
  intros item Hitem. simpl.
  destruct (List.length s) as [| f]; [lia |].
  apply parse_str_token_fuel. exact Hitem.
Qed.

Lemma re_split_from_before_comma (t x : pystr) :
  forall (b : bool) (cur : pystr),
    is_token t = true ->
    re_split_from b cur (t ++ ","%char :: x) = (cur ++ t) :: re_split_from true [] x.
Proof.
  induction t as [| c t IH]; intros b cur Ht; simpl.
  - rewrite app_nil_r. reflexivity.
  - simpl in Ht. apply andb_true_iff in Ht. destruct Ht as [Hc Ht].
    rewrite (token_char_not_comma c Hc), (token_char_not_space c Hc).
    rewrite IH by exact Ht. rewrite <- app_assoc. reflexivity.
Qed.

Lemma re_split_from_join (ts : list pystr) :
  forall (t : pystr) (b : bool) (cur : pystr),
    Forall (fun t => is_token t = true) (t :: ts) ->
    re_split_from b cur (join_comma (t :: ts)) = (cur ++ t) :: ts.
Proof.
  induction ts as [| t' ts IH]; intros t b cur H; inversion H; subst.
  - simpl. apply re_split_from_token. assumption.
  - change (join_comma (t :: t' :: ts)) with (t ++ ","%char :: join_comma (t' :: ts)).
    rewrite re_split_from_before_comma by assumption.
    rewrite IH by assumption. reflexivity.
Qed.

(** X5: a string of two or more items separated by commas (items without
    comma and white space, empty ones included) is parsed item by item, from
    left to right; when every item returns, the result is the concatenation
    of the results of the items, in their order. *)
Theorem comma_list_is_parsed_item_by_item (ts : list pystr)
    (dr : Z * Z) (h : text) (sep : ascii) :
  Forall (fun t => is_token t = true) ts -> (2 <= List.length ts)%nat ->
  parse_user_input dr h sep (PStr (join_comma ts))
  = extend_all (fun t => parse_user_input dr h sep (PStr t)) ts []
  /\ forall vs,
       Forall2 (fun t v => result (parse_user_input dr h sep (PStr t)) = Ok v) ts vs ->
       result (parse_user_input dr h sep (PStr (join_comma ts))) = Ok (List.concat vs).
Proof.
  intros Hts Hlen.
  assert (E : re_split (join_comma ts) = ts).
  { destruct ts as [| t ts]; [simpl in Hlen; lia |].
    unfold re_split. rewrite re_split_from_join by exact Hts. reflexivity. }
  assert (P : parse_user_input dr h sep (PStr (join_comma ts))
              = extend_all (fun t => parse_user_input dr h sep (PStr t)) ts []).
  { rewrite parse_items; rewrite E; [reflexivity | lia]. }
  split; [exact P |].
  intros vs Hvs. rewrite P.
  rewrite extend_all_results with (vs := vs); [reflexivity | exact Hvs].
Qed.

Lemma comma_list_is_parsed_item_by_item_witness :
  parse_user_input (0, 127) [] "-"%char (PStr (lit "1,3-5,,10:20:5"))
  = ([], Ok [1; 3; 4; 5; 10; 15; 20]).
Proof.
  refine (proj1 (comma_list_is_parsed_item_by_item
                   [lit "1"; lit "3-5"; []; lit "10:20:5"] (0, 127) [] "-"%char _ _)).
  - repeat constructor.
  - simpl. lia.
Defined.

Lemma re_split_from_spaces (w x : pystr) :
  forallb is_space w = true ->
  re_split_from true [] (w ++ x) = re_split_from true [] x.
Proof.
  induction w as [| c w IH]; intros H; simpl; [reflexivity |].
  simpl in H. apply andb_true_iff in H. destruct H as [Hc Hw].
  rewrite Hc.
  assert (Ec : Ascii.eqb c ","%char = false).
  { destruct (Ascii.eqb c ","%char) eqn:E; [| reflexivity].
    apply Ascii.eqb_eq in E. subst c. discriminate. }
  rewrite Ec. apply IH. exact Hw.
Qed.

Lemma re_split_from_length (s : pystr) :
  forall (b : bool) (cur : pystr), (1 <= List.length (re_split_from b cur s))%nat.
Proof.
  induction s as [| c s IH]; intros b cur; simpl; [lia |].
  destruct (Ascii.eqb c ","%char); [simpl; lia |].
  destruct (is_space c); [| apply IH].
  destruct b; [apply IH | simpl; lia].
Qed.

(** After a character of an item, a run of white space, a comma, and a
    comma followed by white space split the string in the same way. *)
Lemma re_split_from_separators (p w r : pystr) (c : ascii) :
  forall (b : bool) (cur : pystr),
    not_separator c = true -> forallb is_space w = true -> w <> [] ->
    re_split_from b cur (p ++ c :: w ++ r) = re_split_from b cur (p ++ c :: ","%char :: r)
    /\ re_split_from b cur (p ++ c :: ","%char :: w ++ r)
       = re_split_from b cur (p ++ c :: ","%char :: r)
    /\ (1 < List.length (re_split_from b cur (p ++ c :: ","%char :: r)))%nat.
Proof.
  induction p as [| x p IH]; intros b cur Hc Hw Hne.
  - simpl app. simpl re_split_from.
    rewrite (token_char_not_comma c Hc), (token_char_not_space c Hc).
    destruct w as [| y w]; [congruence |].
    simpl in Hw. apply andb_true_iff in Hw. destruct Hw as [Hy Hw].
    assert (Ey : Ascii.eqb y ","%char = false).
    { destruct (Ascii.eqb y ","%char) eqn:E; [| reflexivity].
      apply Ascii.eqb_eq in E. subst y. discriminate. }
    change ((y :: w) ++ r) with (y :: w ++ r).
    change (re_split_from false (cur ++ [c]) (y :: w ++ r))
      with (if Ascii.eqb y ","%char then (cur ++ [c]) :: re_split_from true [] (w ++ r)
            else if is_space y then (cur ++ [c]) :: re_split_from true [] (w ++ r)
                 else re_split_from false ((cur ++ [c]) ++ [y]) (w ++ r)).
    change (re_split_from true [] (y :: w ++ r))
      with (if Ascii.eqb y ","%char then [] :: re_split_from true [] (w ++ r)
            else if is_space y then re_split_from true [] (w ++ r)
                 else re_split_from false ([] ++ [y]) (w ++ r)).
    rewrite Ey, Hy, (re_split_from_spaces w r Hw). repeat split.
    pose proof (re_split_from_length r true []). simpl. lia.
  - simpl.
    destruct (Ascii.eqb x ","%char).
    + destruct (IH true [] Hc Hw Hne) as (E1 & E2 & E3).
      rewrite E1, E2. repeat split. simpl. lia.
    + destruct (is_space x).
      * destruct b.
        -- apply IH; assumption.
        -- destruct (IH true [] Hc Hw Hne) as (E1 & E2 & E3).
           rewrite E1, E2. repeat split. simpl. lia.
      * apply IH; assumption.
Qed.

(** X6: between two items a run of white space, a comma, and a comma followed
    by white space are interchangeable: wherever it stands in the string, the
    parse (result, diagnostics and exception) is the same. *)
Theorem separators_are_interchangeable (p w r : pystr) (c : ascii)
    (dr : Z * Z) (h : text) (sep : ascii) :
  not_separator c = true -> forallb is_space w = true -> w <> [] ->
  parse_user_input dr h sep (PStr (p ++ c :: w ++ r))
  = parse_user_input dr h sep (PStr (p ++ c :: ","%char :: r))
  /\ parse_user_input dr h sep (PStr (p ++ c :: ","%char :: w ++ r))
     = parse_user_input dr h sep (PStr (p ++ c :: ","%char :: r)).
Proof.
  intros Hc Hw Hne.
  destruct (re_split_from_separators p w r c false [] Hc Hw Hne) as (E1 & E2 & E3).
  fold (re_split (p ++ c :: w ++ r)) in E1.
  fold (re_split (p ++ c :: ","%char :: w ++ r)) in E2.
  fold (re_split (p ++ c :: ","%char :: r)) in E1, E2, E3.
  split.
  - rewrite (parse_items dr h sep (p ++ c :: w ++ r)) by (rewrite E1; exact E3).
    rewrite (parse_items dr h sep (p ++ c :: ","%char :: r)) by exact E3.
    rewrite E1. reflexivity.
  - rewrite (parse_items dr h sep (p ++ c :: ","%char :: w ++ r)) by (rewrite E2; exact E3).
    rewrite (parse_items dr h sep (p ++ c :: ","%char :: r)) by exact E3.
    rewrite E2. reflexivity.
Qed.

Lemma separators_are_interchangeable_witness :
  parse_user_input (0, 127) [] "-"%char (PStr (lit "1, 2  3-5"))
  = parse_user_input (0, 127) [] "-"%char (PStr (lit "1, 2,3-5")).
Proof.
  exact (proj1 (separators_are_interchangeable (lit "1, ") (lit "  ") (lit "3-5")
                  "2"%char (0, 127) [] "-"%char eq_refl eq_refl
                  (fun E => eq_ind (lit "  ") (fun l => match l with [] => False | _ => True end)
                              I [] E))).
Defined.

(** ** Lists *)

Lemma parse_list_unfold (dr : Z * Z) (h : text) (sep : ascii) (l : list pyval) :
  parse_user_input dr h sep (PList l)
  = extend_all
      (fun item =>
         match item with
         | PInt i => warn_item dr h i ;; ret [i]
         | PStr _ | PList _ => parse_user_input dr h sep item
         | _ => ret []
         end) l [].
Proof. reflexivity. Qed.

(** X7: a list is parsed part by part: the parse of [l1 + l2] is the parse of
    [l1] followed by the parse of [l2], the results concatenated; so a list
    nested in a list is parsed like its elements written in its place, and a
    list of one string like the string. *)
Theorem list_is_parsed_part_by_part (dr : Z * Z) (h : text) (sep : ascii) :
  (forall l1 l2,
      parse_user_input dr h sep (PList (l1 ++ l2))
      = (r1 <- parse_user_input dr h sep (PList l1) ;;
         r2 <- parse_user_input dr h sep (PList l2) ;;
         ret (r1 ++ r2)))
  /\ (forall l1 l l2,
         parse_user_input dr h sep (PList (l1 ++ PList l :: l2))
         = parse_user_input dr h sep (PList (l1 ++ l ++ l2)))
  /\ (forall s,
         parse_user_input dr h sep (PList [PStr s]) = parse_user_input dr h sep (PStr s)).
Proof.
  assert (A : forall l1 l2,
             parse_user_input dr h sep (PList (l1 ++ l2))
             = (r1 <- parse_user_input dr h sep (PList l1) ;;
                r2 <- parse_user_input dr h sep (PList l2) ;;
                ret (r1 ++ r2))).
  { intros l1 l2. rewrite !parse_list_unfold, extend_all_app.
    apply bind_ext. intros r1. apply extend_all_acc. }
  assert (B : forall l, parse_user_input dr h sep (PList [PList l])
                        = parse_user_input dr h sep (PList l)).
  { intros l. rewrite (parse_list_unfold dr h sep [PList l]).
    simpl extend_all. apply bind_ret_r. }
  split; [exact A |]. split.
  - intros l1 l l2.
    rewrite (A l1 (PList l :: l2)), (A l1 (l ++ l2)).
    apply bind_ext. intros r1.
    change (PList l :: l2) with ([PList l] ++ l2).
    rewrite (A [PList l] l2), (A l l2), B. reflexivity.
  - intros s. rewrite (parse_list_unfold dr h sep [PStr s]).
    simpl extend_all. apply bind_ret_r.
Qed.

(** X8: an element of a list that is no integer, no string and no list (a
    float, a table, None) is skipped without any diagnostic, where the same
    value given alone is reported as an error: the list is parsed like the
    list without these elements. *)
Theorem unsupported_elements_are_skipped (dr : Z * Z) (h : text) (sep : ascii)
    (l : list pyval) :
  parse_user_input dr h sep (PList l)
  = parse_user_input dr h sep (PList (filter supported l)).
Proof.
  rewrite !parse_list_unfold. apply extend_all_filter.
  intros item H. destruct item; try discriminate; reflexivity.
Qed.

(** ** The members of a colon range *)

Lemma py_range_up_In (a b s n : Z) :
  0 < s ->
  In n (py_range a b s) <-> a <= n < b /\ (n - a) mod s = 0.
Proof.
  intros Hs. rewrite py_range_In. unfold range_length.
  rewrite (proj2 (Z.ltb_lt 0 s) Hs).
  pose proof (Z.mul_div_le (b - a + s - 1) s Hs) as Hq.
  split.
  - intros [i [Hi ->]].
    assert (Hi' : Z.of_nat i + 1 <= (b - a + s - 1) / s) by lia.
    split; [nia |].
    replace (a + Z.of_nat i * s - a) with (Z.of_nat i * s) by ring.
    apply Z_mod_mult.
  - intros [[H1 H2] Hm].
    pose proof (Z.div_mod (n - a) s ltac:(lia)) as Hd. rewrite Hm in Hd.
    assert (Hk : 0 <= (n - a) / s) by (apply Z.div_pos; lia).
    assert (Hlt : (n - a) / s + 1 <= (b - a + s - 1) / s).
    { apply Z.div_le_lower_bound; [exact Hs | nia]. }
    exists (Z.to_nat ((n - a) / s)). split; [lia |].
    rewrite Z2Nat.id by exact Hk. lia.
Qed.

Lemma py_range_down_In (a b s n : Z) :
  s < 0 ->
  In n (py_range a b s) <-> b < n <= a /\ (a - n) mod (- s) = 0.
Proof.
  intros Hs. rewrite py_range_In. unfold range_length.
  assert (E : (0 <? s) = false) by (apply Z.ltb_ge; lia). rewrite E.
  assert (Hs' : 0 < - s) by lia.
  pose proof (Z.mul_div_le (a - b - s - 1) (- s) Hs') as Hq.
  split.
  - intros [i [Hi ->]].
    assert (Hi' : Z.of_nat i + 1 <= (a - b - s - 1) / (- s)) by lia.
    split; [nia |].
    replace (a - (a + Z.of_nat i * s)) with (Z.of_nat i * (- s)) by ring.
    apply Z_mod_mult.
  - intros [[H1 H2] Hm].
    pose proof (Z.div_mod (a - n) (- s) ltac:(lia)) as Hd. rewrite Hm in Hd.
    assert (Hk : 0 <= (a - n) / (- s)) by (apply Z.div_pos; lia).
    assert (Hlt : (a - n) / (- s) + 1 <= (a - b - s - 1) / (- s)).
    { apply Z.div_le_lower_bound; [exact Hs' | nia]. }
    exists (Z.to_nat ((a - n) / (- s))). split; [lia |].
    rewrite Z2Nat.id by exact Hk. lia.
Qed.

Lemma py_range_up_sorted (a b s : Z) :
  0 < s -> StronglySorted Z.lt (py_range a b s).
Proof.
  intros Hs. unfold py_range. generalize (range_length a b s) as k. generalize 0%nat as i.
  intros i k. revert i. induction k as [| k IH]; intros i; simpl.
  - constructor.
  - constructor; [apply IH |].
    apply Forall_forall. intros x Hx. apply in_map_iff in Hx.
    destruct Hx as (j & <- & Hj). apply in_seq in Hj. nia.
Qed.

Lemma colon_step_token (dr : Z * Z) (h : text) (sep : ascii) (a b c : pystr) :
  is_int_literal a = true -> is_int_literal b = true -> is_int_literal c = true ->
  parse_user_input dr h sep (PStr (a ++ ":"%char :: b ++ ":"%char :: c))
  = colon_branch dr h (a ++ ":"%char :: b ++ ":"%char :: c)
      (literal_value a) (literal_value b) (literal_value c).
Proof.
  intros Ha Hb Hc.
  assert (Hl : lower (":"%char :: c) = ":"%char :: c).
  { change (lower (":"%char :: c)) with (":"%char :: lower c).
    rewrite (literal_lower c Hc). reflexivity. }
  apply parse_colon_token; auto.
  - change (is_token (":"%char :: c)) with (is_token c). apply literal_token. exact Hc.
  - rewrite Hl, (match_step_literal c Hc). apply py_int_literal. exact Hc.
Qed.

(** X9: a colon range [s:e:st] with [s <= e] and a step [st > 0] returns, in
    ascending order and without repetition, exactly the numbers from [s] to
    [e] that are a multiple of [st] away from [s]: [s] is always in the list,
    [e] only when the step lands on it.  When no diagnostic is emitted, every
    number of the list is in the default range. *)
Theorem ascending_colon_range (a b c : pystr) (dr : Z * Z) (h : text) (sep : ascii) :
  is_int_literal a = true -> is_int_literal b = true -> is_int_literal c = true ->
  literal_value a <= literal_value b -> 0 < literal_value c ->
  exists l,
    result (parse_user_input dr h sep (PStr (a ++ ":"%char :: b ++ ":"%char :: c)))
    = Ok l
    /\ (forall n, In n l <->
                  literal_value a <= n <= literal_value b
                  /\ (n - literal_value a) mod literal_value c = 0)
    /\ StronglySorted Z.lt l
    /\ (effects (parse_user_input dr h sep (PStr (a ++ ":"%char :: b ++ ":"%char :: c)))
        = [] ->
        forall n, In n l -> fst dr <= n <= snd dr).
Proof.
  intros Ha Hb Hc Hab Hst.
  rewrite (colon_step_token dr h sep a b c Ha Hb Hc). unfold colon_branch.
  assert (E1 : (literal_value a >? literal_value b) = false) by lia.
  assert (E2 : (literal_value c <? 0) = false) by lia.
  assert (E3 : (literal_value c =? 0) = false) by lia.
  rewrite E1, E2, E3. cbv zeta.
  exists (py_range (literal_value a) (literal_value b + 1) (literal_value c)).
  split; [reflexivity |].
  assert (Hin : forall n,
             In n (py_range (literal_value a) (literal_value b + 1) (literal_value c))
             <-> literal_value a <= n <= literal_value b
                 /\ (n - literal_value a) mod literal_value c = 0).
  { intros n. rewrite py_range_up_In by exact Hst. intuition lia. }
  split; [exact Hin |]. split; [apply py_range_up_sorted; exact Hst |].
  simpl effects.
  destruct ((literal_value a <? fst dr) || (literal_value b >? snd dr)) eqn:Ew.
  - destruct (text_truthy h); discriminate.
  - intros _ n Hn. apply Hin in Hn. apply orb_false_iff in Ew. lia.
Qed.

Lemma ascending_colon_range_witness :
  exists l,
    result (parse_user_input (0, 127) [] "-"%char (PStr (lit "10:20:4"))) = Ok l
    /\ (forall n, In n l <-> 10 <= n <= 20 /\ (n - 10) mod 4 = 0)
    /\ StronglySorted Z.lt l
    /\ (effects (parse_user_input (0, 127) [] "-"%char (PStr (lit "10:20:4"))) = [] ->
        forall n, In n l -> 0 <= n <= 127).
Proof.
  exact (ascending_colon_range (lit "10") (lit "20") (lit "4") (0, 127) [] "-"%char
           eq_refl eq_refl eq_refl ltac:(vm_compute; discriminate) eq_refl).
Defined.

(** X10: a colon range [s:e:st] with [s <= e] and a step [st < 0] returns the
    numbers [n] with [s + 1 < n <= e] that are a multiple of the step away
    from [e]: the list starts at [e], and neither [s] nor [s + 1] is ever in
    it.  It is free of diagnostics exactly when [e] is not below and [s] is
    not above the default range, so numbers outside the default range are
    returned without warning: ["-5:10:-1"] with the range (0, 127) gives the
    numbers from 10 down to -3 and no warning. *)
Theorem descending_colon_range (a b c : pystr) (dr : Z * Z) (h : text) (sep : ascii) :
  is_int_literal a = true -> is_int_literal b = true -> is_int_literal c = true ->
  literal_value a <= literal_value b -> literal_value c < 0 ->
  (exists l,
      result (parse_user_input dr h sep (PStr (a ++ ":"%char :: b ++ ":"%char :: c)))
      = Ok l
      /\ (forall n, In n l <->
                    literal_value a + 1 < n <= literal_value b
                    /\ (literal_value b - n) mod (- literal_value c) = 0)
      /\ (effects (parse_user_input dr h sep (PStr (a ++ ":"%char :: b ++ ":"%char :: c)))
          = [] <->
          fst dr <= literal_value b /\ literal_value a <= snd dr))
  /\ parse_user_input (0, 127) [] "-"%char (PStr (lit "-5:10:-1"))
     = ([], Ok [10; 9; 8; 7; 6; 5; 4; 3; 2; 1; 0; -1; -2; -3]).
Proof.
  intros Ha Hb Hc Hab Hst. split; [| vm_compute; reflexivity].
  rewrite (colon_step_token dr h sep a b c Ha Hb Hc). unfold colon_branch.
  assert (E1 : (literal_value a >? literal_value b) = false) by lia.
  assert (E2 : (literal_value c <? 0) = true) by lia.
  assert (E3 : (literal_value c =? 0) = false) by lia.
  rewrite E1, E2, E3. cbv zeta.
  exists (py_range (literal_value b) (literal_value a + 1) (literal_value c)).
  split; [reflexivity |]. split.
  - intros n. rewrite py_range_down_In by exact Hst. intuition lia.
  - simpl effects.
    destruct ((literal_value b <? fst dr) || (literal_value a >? snd dr)) eqn:Ew.
    + split.
      * destruct (text_truthy h); discriminate.
      * intros [H1 H2]. apply orb_true_iff in Ew. lia.
    + split; [| reflexivity]. intros _. apply orb_false_iff in Ew. lia.
Qed.

Lemma descending_colon_range_witness :
  exists l,
    result (parse_user_input (0, 127) [] "-"%char (PStr (lit "1:5:-1"))) = Ok l
    /\ (forall n, In n l <-> 1 + 1 < n <= 5 /\ (5 - n) mod (- -1) = 0)
    /\ (effects (parse_user_input (0, 127) [] "-"%char (PStr (lit "1:5:-1"))) = [] <->
        0 <= 5 /\ 1 <= 127).
Proof.
  exact (proj1 (descending_colon_range (lit "1") (lit "5") (lit "-1") (0, 127) []
                  "-"%char eq_refl eq_refl eq_refl
                  ltac:(vm_compute; discriminate) eq_refl)).
Defined.

(** ** Matching *)

Lemma contains_int_list (l : list Z) (n : Z) :
  contains (int_list l) n = ret (member n l).
Proof.
  unfold contains, int_list, member. f_equal. f_equal.
  induction l as [| k l IH]; simpl; [reflexivity |]. rewrite IH. reflexivity.
Qed.

Lemma port_matches_strings (ps : list pystr) (port_name : pystr) :
  port_matches (PList (map PStr ps)) port_name
  = ret (map (fun p => str_in p port_name) ps).
Proof.
  unfold port_matches. induction ps as [| p ps IH]; [reflexivity |].
  cbn [map]. rewrite IH, bind_ret_l. reflexivity.
Qed.

Lemma any_map {A} (f : A -> bool) (l : list A) : any (map f l) = existsb f l.
Proof.
  unfold any. induction l as [| a l IH]; simpl; [reflexivity |].
  rewrite IH. reflexivity.
Qed.

Lemma eq_str_list1_strings (ps : list pystr) (s : string) :
  eq_str_list1 (PList (map PStr ps)) s
  = match ps with
    | [p] => str_eqb p (lit s)
    | _ => false
    end.
Proof. destruct ps as [| p [| q ps]]; reflexivity. Qed.

Lemma result_debug_none {A} (v : Z) (self : Command) (what : string) (a : A) :
  result (debug v self what ;; ret a) = Ok a.
Proof. unfold debug, when. destruct (v >=? 2); reflexivity. Qed.

Lemma match_kind_selected (c : Command) (chs cts nts vals vels : list Z)
    (m : message) (v : Z) :
  event c = PStr (msg_type m) -> well_formed m = true ->
  existsb (str_eqb (msg_type m)) kinds = true ->
  selectors c chs cts nts vals vels ->
  result (match_kind c m v)
  = Ok match m with
       | NoteOn _ n x | NoteOff _ n x =>
           if member n nts && member x vels then Some x else None
       | ControlChange _ ct x =>
           if member ct cts && member x vals then Some x else None
       | OtherMessage _ _ => None
       end.
Proof.
  intros Hev Hwf Hk (Hch & Hct & Hnt & Hva & Hve).
  unfold match_kind. rewrite Hev.
  destruct m as [ch n x | ch n x | ch ct x | t o].
  - change (eq_str (PStr (msg_type (NoteOn ch n x))) "note_on") with true.
    cbn [orb msg_note msg_velocity].
    rewrite Hnt, Hve. change (eq_str (int_list nts) "all") with false.
    cbn [negb]. rewrite !bind_ret_l, contains_int_list, !bind_ret_l.
    destruct (member n nts); cbn [negb andb]; [| apply result_debug_none].
    rewrite contains_int_list, bind_ret_l.
    destruct (member x vels); cbn [negb]; [reflexivity | apply result_debug_none].
  - change (eq_str (PStr (msg_type (NoteOff ch n x))) "note_on") with false.
    change (eq_str (PStr (msg_type (NoteOff ch n x))) "note_off") with true.
    cbn [orb msg_note msg_velocity].
    rewrite Hnt, Hve. change (eq_str (int_list nts) "all") with false.
    cbn [negb]. rewrite !bind_ret_l, contains_int_list, !bind_ret_l.
    destruct (member n nts); cbn [negb andb]; [| apply result_debug_none].
    rewrite contains_int_list, bind_ret_l.
    destruct (member x vels); cbn [negb]; [reflexivity | apply result_debug_none].
  - change (eq_str (PStr (msg_type (ControlChange ch ct x))) "note_on") with false.
    change (eq_str (PStr (msg_type (ControlChange ch ct x))) "note_off") with false.
    change (eq_str (PStr (msg_type (ControlChange ch ct x))) "control_change") with true.
    cbn [orb msg_control msg_value].
    rewrite Hct, Hva, !bind_ret_l, contains_int_list, !bind_ret_l.
    destruct (member ct cts); cbn [negb andb]; [| apply result_debug_none].
    rewrite contains_int_list, bind_ret_l.
    destruct (member x vals); cbn [negb]; [reflexivity | apply result_debug_none].
  - simpl in Hwf, Hk. rewrite Hk in Hwf. discriminate.
Qed.

(** The tests of [execute] on a rule whose fields are lists. *)
Lemma match_message_selected (c : Command) (ev : pystr) (chs cts nts vals vels : list Z)
    (ps : list pystr) (m : message) (port_name : pystr) (v : Z) :
  event c = PStr ev -> existsb (str_eqb ev) kinds = true ->
  selectors c chs cts nts vals vels -> ports c = PList (map PStr ps) ->
  well_formed m = true ->
  result (match_message c m port_name v)
  = Ok (if truthy (active c) && str_eqb ev (msg_type m) && port_passes ps port_name
        then selected chs cts nts vals vels m
        else None).
Proof.
  intros Hev Hk Hsel Hp Hwf. unfold match_message.
  destruct (truthy (active c)); cbn [negb andb]; [| apply result_debug_none].
  rewrite Hev. cbn [eq_pystr].
  destruct (str_eqb ev (msg_type m)) eqn:Et; cbn [negb andb];
    [| apply result_debug_none].
  apply str_eqb_eq in Et. subst ev.
  rewrite Hp, port_matches_strings, bind_ret_l, eq_str_list1_strings, any_map.
  unfold port_passes.
  destruct (match ps with [p] => str_eqb p (lit "all") | _ => false end
            || existsb (fun p => str_in p (lower port_name)) ps) eqn:Epass.
  - assert (E : negb match ps with [p] => str_eqb p (lit "all") | _ => false end
                && negb (existsb (fun p => str_in p (lower port_name)) ps) = false).
    { rewrite <- negb_orb, Epass. reflexivity. }
    rewrite E.
    pose proof (match_kind_selected c chs cts nts vals vels m v Hev Hwf Hk Hsel) as Hkind.
    destruct Hsel as (Hch & _).
    destruct m as [ch n x | ch n x | ch ct x | t o].
    + cbn [msg_channel]. rewrite bind_ret_l, Hch, contains_int_list, bind_ret_l.
      cbn [selected].
      destruct (member (ch + 1) chs); cbn [negb andb];
        [exact Hkind | apply result_debug_none].
    + cbn [msg_channel]. rewrite bind_ret_l, Hch, contains_int_list, bind_ret_l.
      cbn [selected].
      destruct (member (ch + 1) chs); cbn [negb andb];
        [exact Hkind | apply result_debug_none].
    + cbn [msg_channel]. rewrite bind_ret_l, Hch, contains_int_list, bind_ret_l.
      cbn [selected].
      destruct (member (ch + 1) chs); cbn [negb andb];
        [exact Hkind | apply result_debug_none].
    + simpl in Hwf, Hk. rewrite Hk in Hwf. discriminate.
  - assert (E : negb match ps with [p] => str_eqb p (lit "all") | _ => false end
                && negb (existsb (fun p => str_in p (lower port_name)) ps) = true).
    { rewrite <- negb_orb, Epass. reflexivity. }
    rewrite E. apply result_debug_none.
Qed.

(** X11: a rule whose selector fields are lists of integers and whose ports
    are a list of names never raises while it tests a message; it passes a
    value on exactly when it is active, its event is the type of the message,
    the port passes (the list is [['all']] or one of its names occurs in the
    lower-case name of the port), and the channel counted from 1 and the two
    data bytes are in its lists (note and velocity for the note events,
    control and value for a control change); the value is the velocity, or
    the value of the control change. *)
Theorem rule_matches (c : Command) (ev : pystr) (chs cts nts vals vels : list Z)
    (ps : list pystr) (m : message) (port_name : pystr) (v : Z) :
  event c = PStr ev -> existsb (str_eqb ev) kinds = true ->
  selectors c chs cts nts vals vels -> ports c = PList (map PStr ps) ->
  well_formed m = true ->
  result (match_message c m port_name v)
  = Ok (if truthy (active c) && str_eqb ev (msg_type m) && port_passes ps port_name
        then selected chs cts nts vals vels m
        else None).
Proof. apply match_message_selected. Qed.

Lemma rule_matches_witness :
  result
    (match_message
       {| active := PInt 1; channels := int_list [1; 2];
          command := PStr (lit "echo $VALUE");
          control := int_list [7]; event := PStr (lit "control_change");
          mapping := default_mapping; name := PNone; note := int_list [];
          ports := PList (map PStr [lit "nano"; lit "korg"]);
          values := int_list [0; 64; 127]; velocities := int_list [] |}
       (ControlChange 1 7 64) (lit "nanoKONTROL2:0") 0)
  = Ok (Some 64).
Proof.
  match goal with
  | |- result (match_message ?c ?m ?p ?v) = _ =>
      refine (rule_matches c (lit "control_change") [1; 2] [7] [] [0; 64; 127] []
                [lit "nano"; lit "korg"] m p v eq_refl eq_refl _ eq_refl eq_refl)
  end.
  repeat split.
Defined.

(** ** What the constructor stores *)

Lemma lower_char_idem (c : ascii) : lower_char (lower_char c) = lower_char c.
Proof. each_char c. Qed.

Lemma lower_idem (s : pystr) : lower (lower s) = lower s.
Proof.
  unfold lower. rewrite map_map. apply map_ext. intros c. apply lower_char_idem.
Qed.

Lemma parse_field_result (self : Command) (field : pyval) (dr : Z * Z)
    (label : string) (v : pyval) :
  result (parse_field self field dr label) = Ok v ->
  exists l,
    result (parse_user_input dr
              [Lit "Command ("; Lit label; Lit " field): "; Fmt (name self); Lit "
"]
              "-"%char field) = Ok l
    /\ v = int_list l.
Proof.
  unfold parse_field. intros H.
  apply bind_result_ok in H. destruct H as (l & Hl & H).
  exists l. split; [exact Hl |]. simpl in H. inversion H. reflexivity.
Qed.

Lemma field_step (self : Command) (field : pyval) (dr : Z * Z) (label : string)
    (set : Command -> pyval -> Command) (c : Command) :
  result (v <- parse_field self field dr label ;; ret (set self v)) = Ok c ->
  exists l,
    result (parse_user_input dr
              [Lit "Command ("; Lit label; Lit " field): "; Fmt (name self); Lit "
"]
              "-"%char field) = Ok l
    /\ c = set self (int_list l).
Proof.
  intros H. apply bind_result_ok in H. destruct H as (v & Hv & H).
  apply parse_field_result in Hv. destruct Hv as (l & Hl & ->).
  exists l. split; [exact Hl |]. simpl in H. injection H as <-. reflexivity.
Qed.

Lemma lower_all_result (l l' : list pyval) :
  result (lower_all l) = Ok l' ->
  exists ps, l = map PStr ps /\ l' = map PStr (map lower ps).
Proof.
  revert l'. induction l as [| x l IH]; intros l' H.
  - simpl in H. inversion H. exists []. split; reflexivity.
  - destruct x as [| | s | | |]; try discriminate.
    cbn [lower_all] in H.
    apply bind_result_ok in H. destruct H as (r & Hr & H).
    destruct (IH r Hr) as (ps & -> & ->).
    simpl in H. inversion H. exists (s :: ps). split; reflexivity.
Qed.

Lemma parse_mapping_result (self c : Command) :
  result (parse_mapping self) = Ok c -> exists mp, c = set_mapping self mp.
Proof.
  assert (E : self = set_mapping self (mapping self)) by (destruct self; reflexivity).
  unfold parse_mapping, mapping_error.
  destruct (mapping self) as [n | f | s | l | k |] eqn:Em;
    try (intros H; injection H as <-; eexists; exact E).
  - destruct (str_eqb s (lit "all")).
    + intros H. injection H as <-. eexists. reflexivity.
    + destruct (floats_of (split_char ","%char s)) as [fl |].
      * destruct (negb (List.length fl =? 2)%nat); intros H; injection H as <-;
          [exists default_mapping | exists (PList (map PFloat fl))];
          destruct self; reflexivity.
      * intros H. injection H as <-. eexists. exact E.
  - destruct (List.length l =? 2)%nat; intros H; injection H as <-; eexists;
      [exact E | reflexivity].
Qed.

Lemma parse_ports_result (self c : Command) :
  result (parse_ports self) = Ok c ->
  exists p,
    c = set_ports self p
    /\ match ports self with
       | PStr s => p = PList [PStr (lower s)]
       | PList l => exists ps, l = map PStr ps /\ p = PList (map PStr (map lower ps))
       | other => p = other
       end.
Proof.
  destruct self as [a ch cm ct ev mp nm nt p vl ve].
  unfold parse_ports. rewrite result_bind.
  match goal with
  | |- match result (when ?b ?m) with _ => _ end = _ -> _ =>
      assert (W : result (when b m) = Ok tt) by (destruct b; reflexivity);
      rewrite W; clear W
  end.
  cbn [ports].
  destruct p as [n | f | s | l | k |];
    try (intros H; injection H as <-; eexists; split; reflexivity).
  - destruct (eq_str (PStr s) "all") eqn:Eall.
    + apply str_eqb_eq in Eall. subst s.
      intros H. injection H as <-. eexists. split; reflexivity.
    + cbn [ports set_ports lower_all]. rewrite bind_ret_l, lower_idem.
      intros H. injection H as <-. eexists. split; reflexivity.
  - change (eq_str (PList l) "all") with false. cbv iota. cbn [ports set_ports].
    rewrite result_bind. destruct (result (lower_all l)) as [l' | e |] eqn:El;
      try discriminate.
    intros H. injection H as <-.
    destruct (lower_all_result l l' El) as (ps & Hl & Hl').
    eexists. split; [reflexivity |]. exists ps. split; [exact Hl | rewrite Hl'; reflexivity].
Qed.

Lemma Command_init_fields (cfg : config) (c : Command) :
  valid_event (get cfg "event" PNone) = true ->
  result (Command_init cfg) = Ok c ->
  (exists chs cts nts vals vels,
      parsed_field cfg "channels" "channels" (1, 16) chs
      /\ parsed_field cfg "control" "controls" (0, 127) cts
      /\ parsed_field cfg "note" "note" (0, 127) nts
      /\ parsed_field cfg "values" "values" (0, 127) vals
      /\ parsed_field cfg "velocities" "velocities" (0, 127) vels
      /\ selectors c chs cts nts vals vels)
  /\ active c = get cfg "active" (PInt 1)
  /\ command c = get cfg "command" PNone
  /\ event c = get cfg "event" PNone
  /\ name c = get cfg "name" PNone
  /\ match get cfg "ports" (PStr (lit "all")) with
     | PStr s => ports c = PList [PStr (lower s)]
     | PList l => exists ps, l = map PStr ps /\ ports c = PList (map PStr (map lower ps))
     | other => ports c = other
     end.
Proof.
  intros Hv H. unfold Command_init in H. cbn [event] in H. rewrite Hv in H.
  cbn [negb] in H. cbv iota in H.
  apply bind_result_ok in H. destruct H as (c1 & H1 & H).
  apply bind_result_ok in H. destruct H as (c2 & H2 & H).
  apply bind_result_ok in H. destruct H as (c3 & H3 & H).
  apply bind_result_ok in H. destruct H as (c4 & H4 & H).
  apply bind_result_ok in H. destruct H as (c5 & H5 & H).
  apply bind_result_ok in H. destruct H as (c6 & H6 & H7).
  apply field_step in H1. destruct H1 as (chs & Hchs & ->).
  apply field_step in H2. destruct H2 as (cts & Hcts & ->).
  apply parse_mapping_result in H3. destruct H3 as (mp & ->).
  apply field_step in H4. destruct H4 as (nts & Hnts & ->).
  apply parse_ports_result in H5. destruct H5 as (p & -> & Hp).
  apply field_step in H6. destruct H6 as (vals & Hvals & ->).
  apply field_step in H7. destruct H7 as (vels & Hvels & ->).
  split; [| repeat split; exact Hp].
  exists chs, cts, nts, vals, vels. repeat split; assumption.
Qed.

(** X12: when the constructor returns for a table with a valid event, the
    five selector fields of the rule are the lists [parse_user_input] returns
    for the fields of the table (the keyword "all" where the table has none),
    with the default ranges 1 to 16 for the channels and 0 to 127 for the
    others; [active], [command], [event] and [name] are those of the table;
    a port name becomes a one-element list in lower case, a list of
    port names the list of the names in lower case, and a value of another
    type is kept. *)
Theorem constructed_rule (cfg : config) (c : Command) :
  valid_event (get cfg "event" PNone) = true ->
  result (Command_init cfg) = Ok c ->
  (exists chs cts nts vals vels,
      parsed_field cfg "channels" "channels" (1, 16) chs
      /\ parsed_field cfg "control" "controls" (0, 127) cts
      /\ parsed_field cfg "note" "note" (0, 127) nts
      /\ parsed_field cfg "values" "values" (0, 127) vals
      /\ parsed_field cfg "velocities" "velocities" (0, 127) vels
      /\ selectors c chs cts nts vals vels)
  /\ active c = get cfg "active" (PInt 1)
  /\ command c = get cfg "command" PNone
  /\ event c = get cfg "event" PNone
  /\ name c = get cfg "name" PNone
  /\ match get cfg "ports" (PStr (lit "all")) with
     | PStr s => ports c = PList [PStr (lower s)]
     | PList l => exists ps, l = map PStr ps /\ ports c = PList (map PStr (map lower ps))
     | other => ports c = other
     end.
Proof. apply Command_init_fields. Qed.

Lemma constructed_rule_witness :
  exists c,
    result (Command_init [("event"%string, PStr (lit "control_change"));
                          ("channels"%string, PStr (lit "1-3"));
                          ("control"%string, PInt 7);
                          ("values"%string, PList [PInt 0; PStr (lit "64:127:63")]);
                          ("ports"%string, PStr (lit "nanoKONTROL2"));
                          ("command"%string, PStr (lit "amixer set Master $PERCENTAGE%"))])
    = Ok c
    /\ channels c = int_list [1; 2; 3] /\ control c = int_list [7]
    /\ values c = int_list [0; 64; 127]
    /\ ports c = PList [PStr (lit "nanokontrol2")].
Proof.
  eexists. split; [vm_compute; reflexivity |].
  match goal with
  | |- channels ?c = _ /\ _ =>
      pose proof (constructed_rule
                    [("event"%string, PStr (lit "control_change"));
                     ("channels"%string, PStr (lit "1-3"));
                     ("control"%string, PInt 7);
                     ("values"%string, PList [PInt 0; PStr (lit "64:127:63")]);
                     ("ports"%string, PStr (lit "nanoKONTROL2"));
                     ("command"%string, PStr (lit "amixer set Master $PERCENTAGE%"))]
                    c eq_refl eq_refl) as H
  end.
  destruct H as (_ & _ & _ & _ & _ & Hp).
  split; [reflexivity | split; [reflexivity | split; [reflexivity | exact Hp]]].
Defined.

(** ** Events are compared with their case *)

Lemma no_match_is_quiet (c : Command) (m : message) (p : pystr) (v : Z) :
  result (match_message c m p v) = Ok None ->
  result (execute c m p v) = Ok tt /\ dispatches (execute c m p v) = [].
Proof.
  intros H. unfold execute. split.
  - rewrite (result_bind_ok _ _ None H). reflexivity.
  - unfold dispatches. rewrite (effects_bind_ok _ _ None H), runs_app.
    pose proof (quiet_match_message c m p v) as Q. unfold quiet, dispatches in Q.
    rewrite Q. reflexivity.
Qed.

Lemma inactive_no_match (c : Command) (m : message) (p : pystr) (v : Z) :
  truthy (active c) = false -> result (match_message c m p v) = Ok None.
Proof.
  intros H. unfold match_message. rewrite H. apply result_debug_none.
Qed.

Lemma other_event_no_match (c : Command) (ev : pystr) (m : message) (p : pystr) (v : Z) :
  event c = PStr ev -> str_eqb ev (msg_type m) = false ->
  result (match_message c m p v) = Ok None.
Proof.
  intros He H. unfold match_message.
  destruct (truthy (active c)); cbn [negb]; [| apply result_debug_none].
  rewrite He. cbn [eq_pystr]. rewrite H. apply result_debug_none.
Qed.

Lemma Command_init_invalid (cfg : config) (c : Command) :
  valid_event (get cfg "event" PNone) = false ->
  result (Command_init cfg) = Ok c -> active c = PInt 0.
Proof.
  intros Hv H. unfold Command_init in H. cbn [event] in H. rewrite Hv in H.
  simpl in H. injection H as <-. reflexivity.
Qed.

(** X13: the constructor accepts the name of an event in any case (["Note_On"]
    is valid, and the rule stays as active as the table says), but [execute]
    compares the stored name with the type of the message as it is written:
    a rule whose event has an upper-case letter matches no message of a
    lower-case type, so it never launches its command (and never raises). *)
Theorem event_is_case_sensitive (cfg : config) (s : pystr) (c : Command)
    (m : message) (p : pystr) (v : Z) :
  get cfg "event" PNone = PStr s -> lower s <> s ->
  lower (msg_type m) = msg_type m ->
  result (Command_init cfg) = Ok c ->
  (valid_event (PStr s) = true ->
   event c = PStr s /\ active c = get cfg "active" (PInt 1))
  /\ result (match_message c m p v) = Ok None
  /\ result (execute c m p v) = Ok tt
  /\ dispatches (execute c m p v) = [].
Proof.
  intros He Hs Hm H.
  assert (Hne : str_eqb s (msg_type m) = false).
  { destruct (str_eqb s (msg_type m)) eqn:E; [| reflexivity].
    apply str_eqb_eq in E. subst s. contradiction. }
  assert (Hnone : result (match_message c m p v) = Ok None).
  { destruct (valid_event (get cfg "event" PNone)) eqn:Hv.
    - destruct (Command_init_fields cfg c Hv H) as (_ & _ & _ & Hev & _).
      rewrite He in Hev. exact (other_event_no_match c s m p v Hev Hne).
    - apply inactive_no_match.
      rewrite (Command_init_invalid cfg c Hv H). reflexivity. }
  split; [| split; [exact Hnone | exact (no_match_is_quiet c m p v Hnone)]].
  intros Hv. rewrite <- He in Hv.
  destruct (Command_init_fields cfg c Hv H) as (_ & Ha & _ & Hev & _).
  rewrite He in Hev. split; assumption.
Qed.

Lemma event_is_case_sensitive_witness :
  exists c,
    result (Command_init [("event"%string, PStr (lit "Note_On"));
                          ("command"%string, PStr (lit "echo $VELOCITY"))]) = Ok c
    /\ active c = PInt 1
    /\ dispatches (execute c (NoteOn 0 60 100) (lit "nanoPAD2") 0) = [].
Proof.
  eexists. split; [vm_compute; reflexivity |].
  match goal with
  | |- active ?c = _ /\ _ =>
      pose proof (event_is_case_sensitive
                    [("event"%string, PStr (lit "Note_On"));
                     ("command"%string, PStr (lit "echo $VELOCITY"))]
                    (lit "Note_On") c (NoteOn 0 60 100) (lit "nanoPAD2") 0
                    eq_refl ltac:(vm_compute; discriminate) eq_refl eq_refl) as H
  end.
  destruct H as (Ha & _ & _ & Hd).
  split; [exact (proj2 (Ha eq_refl)) | exact Hd].
Defined.

(** ** The values of a MIDI message *)

Lemma round_half_even_near (n d : Z) :
  0 < d -> - d <= 2 * (d * round_half_even n d - n) <= d.
Proof.
  intros Hd. unfold round_half_even.
  pose proof (Z.div_mod n d ltac:(lia)) as E.
  pose proof (Z.mod_pos_bound n d Hd) as B.
  destruct (Z.compare_spec (2 * (n mod d)) d) as [C | C | C];
    [destruct (Z.even (n / d)) |..]; nia.
Qed.

Lemma decimal_default_0_127 (value : Z) :
  0 <= value <= 127 ->
  exists d, float_of_int value = ret d /\ decimal_of default_mapping value = ret d.
Proof.
  intros H.
  assert (Hin : In value (py_range 0 128 1)) by (apply py_range_step1_In; lia).
  vm_compute in Hin.
  repeat (destruct Hin as [<- | Hin];
          [eexists; split; vm_compute; reflexivity |]).
  destruct Hin.
Qed.

(** X14: for the values of a MIDI message, 0 to 127, the two derived values
    are always computed: the percentage lies between 0 and 100, is 0 for 0
    and 100 for 127, and never decreases when the value grows; with the
    default mapping [[0, 127]] the decimal is the value itself, as a float. *)
Theorem derived_values_0_127 (value : Z) :
  0 <= value <= 127 ->
  (exists pct,
      percentage_of value = ret pct /\ 0 <= pct <= 100
      /\ (value = 0 -> pct = 0) /\ (value = 127 -> pct = 100)
      /\ forall value' pct',
           value <= value' <= 127 -> percentage_of value' = ret pct' -> pct <= pct')
  /\ exists d, float_of_int value = ret d /\ decimal_of default_mapping value = ret d.
Proof.
  intros H. split; [| apply decimal_default_0_127; exact H].
  exists (round_half_even (value * 100) 127).
  pose proof (round_half_even_near (value * 100) 127 ltac:(lia)) as B.
  split; [apply percentage_0_127; exact H |].
  split; [lia |]. split; [intros ->; reflexivity |]. split; [intros ->; reflexivity |].
  intros value' pct' H' E.
  rewrite percentage_0_127 in E by lia. injection E as <-.
  pose proof (round_half_even_near (value' * 100) 127 ltac:(lia)) as B'.
  lia.
Qed.

Lemma derived_values_0_127_witness :
  exists d, float_of_int 64 = ret d /\ decimal_of default_mapping 64 = ret d.
Proof.
  exact (proj2 (derived_values_0_127 64 ltac:(lia))).
Defined.

(** ** Rules that never raise *)

Lemma selected_value (chs cts nts vals vels : list Z) (m : message) (value : Z) :
  selected chs cts nts vals vels m = Some value -> data_in_range m = true ->
  0 <= value <= 127.
Proof.
  destruct m as [ch n x | ch n x | ch ct x | t o]; simpl; try discriminate;
    match goal with
    | |- (if ?b then _ else _) = _ -> _ => destruct b; try discriminate
    end;
    intros E; injection E as <-; lia.
Qed.

Lemma launch_default (c : Command) (t : pystr) (value v : Z) :
  command c = PStr t -> mapping c = default_mapping -> 0 <= value <= 127 ->
  result (launch c value v) = Ok tt
  /\ exists d,
       float_of_int value = ret d
       /\ runs (effects (launch c value v))
          = [substitute t value (round_half_even (value * 100) 127) d].
Proof.
  intros Hc Hm H. unfold launch.
  destruct (decimal_default_0_127 value H) as (d & Hf & Hd).
  rewrite (percentage_0_127 value H), bind_ret_l, Hm, Hd, bind_ret_l, Hc.
  unfold when. split.
  - destruct (negb (v =? 0)); reflexivity.
  - exists d. split; [exact Hf |]. destruct (negb (v =? 0)); reflexivity.
Qed.



(** ** The commands of the launcher *)

Lemma load_commands_spec (tables : list config) :
  forall (acc cs : list Command),
    result (load_commands tables acc) = Ok cs <->
    exists new,
      Forall2 (fun cfg c => result (Command_init cfg) = Ok c)
        (filter not_empty tables) new
      /\ cs = acc ++ new.
Proof.
  induction tables as [| cmd rest IH]; intros acc cs.
  - simpl. split.
    + intros H. injection H as <-. exists []. split; [constructor | ].
      rewrite app_nil_r. reflexivity.
    + intros (new & Hn & ->). inversion Hn. rewrite app_nil_r. reflexivity.
  - destruct cmd as [| kv cmd'].
    + simpl. apply IH.
    + change (load_commands ((kv :: cmd') :: rest) acc)
        with (c <- Command_init (kv :: cmd') ;; load_commands rest (acc ++ [c])).
      change (filter not_empty ((kv :: cmd') :: rest))
        with ((kv :: cmd') :: filter not_empty rest).
      split.
      * intros H. apply bind_result_ok in H. destruct H as (c0 & Hc0 & H).
        apply IH in H. destruct H as (new & Hn & ->).
        exists (c0 :: new). split; [constructor; assumption |].
        rewrite <- app_assoc. reflexivity.
      * intros (new & Hn & ->). inversion Hn as [| cfg c0 l new' Hc0 Hn' E1 E2]; subst.
        rewrite (result_bind_ok _ _ c0 Hc0). apply IH.
        exists new'. split; [exact Hn' |]. rewrite <- app_assoc. reflexivity.
Qed.

(** X16: the launcher is built exactly when the constructor returns for every
    table of the [commands] array that is not empty; its commands are then
    the rules of these tables, one for each, in the order of the file; the
    empty tables are skipped.  (When the constructor raises for one table, no
    launcher is built.) *)
Theorem commands_in_file_order (tables : list config) (verbosity : Z) (ignore : bool)
    (launcher : MIDILauncher) :
  result (MIDILauncher_init tables verbosity ignore) = Ok launcher <->
  Forall2 (fun cfg c => result (Command_init cfg) = Ok c)
    (filter not_empty tables) (commands launcher)
  /\ verbosity_level launcher = verbosity /\ ignore_clock launcher = ignore.
Proof.
  unfold MIDILauncher_init. split.
  - intros H. apply bind_result_ok in H. destruct H as (cs & Hcs & H).
    simpl in H. injection H as <-. simpl.
    apply load_commands_spec in Hcs. destruct Hcs as (new & Hn & ->).
    repeat split. exact Hn.
  - intros (Hn & Hv & Hi).
    assert (Hl : result (load_commands tables []) = Ok (commands launcher)).
    { apply load_commands_spec. exists (commands launcher). split; [exact Hn | reflexivity]. }
    rewrite (result_bind_ok _ _ _ Hl). simpl. subst. destruct launcher; reflexivity.
Qed.

Lemma commands_in_file_order_witness :
  exists launcher,
    result (MIDILauncher_init
              [[("event"%string, PStr (lit "note_on"))]; [];
               [("event"%string, PStr (lit "foo"))]] 0 false)
    = Ok launcher
    /\ List.length (commands launcher) = 2%nat
    /\ map event (commands launcher) = [PStr (lit "note_on"); PStr (lit "foo")].
Proof.
  eexists. split; [vm_compute; reflexivity |].
  match goal with
  | |- List.length (commands ?l) = _ /\ _ =>
      pose proof (proj1 (commands_in_file_order
                           [[("event"%string, PStr (lit "note_on"))]; [];
                            [("event"%string, PStr (lit "foo"))]] 0 false l)
                    eq_refl) as H
  end.
  destruct H as (H & _ & _).
  split; [exact (eq_sym (Forall2_length H)) | reflexivity].
Defined.

Lemma constructed_commands (tables : list config) (verbosity : Z) (ignore : bool)
    (launcher : MIDILauncher) :
  result (MIDILauncher_init tables verbosity ignore) = Ok launcher ->
  forall c, In c (commands launcher) ->
            exists cfg, In cfg tables /\ result (Command_init cfg) = Ok c.
Proof.
  unfold MIDILauncher_init. intros H.
  apply bind_result_ok in H. destruct H as (cs & Hcs & H).
  simpl in H. injection H as <-. simpl.
  apply load_commands_spec in Hcs. destruct Hcs as (new & Hn & ->). simpl.
  intros c Hc.
  assert (G : exists cfg, In cfg (filter not_empty tables)
                          /\ result (Command_init cfg) = Ok c).
  { clear - Hn Hc. induction Hn as [| cfg c0 l new' H0 _ IH]; [destruct Hc |].
    destruct Hc as [<- | Hc].
    - exists cfg. split; [left; reflexivity | exact H0].
    - destruct (IH Hc) as (cfg' & Hin & Hr). exists cfg'. split; [right |]; assumption. }
  destruct G as (cfg & Hin & Hr). exists cfg. split; [| exact Hr].
  apply filter_In in Hin. tauto.
Qed.

(** X17: a launcher built from a configuration launches nothing, and does
    not raise, on a message of a type other than the three kinds of event
    (a clock tick, a program change, ...), whether or not it is told to
    ignore the clock: the option only spares the evaluation of the rules and
    the lines of the diagnostics. *)
Theorem other_messages_launch_nothing (tables : list config) (verbosity : Z)
    (ignore : bool) (launcher : MIDILauncher) (t : pystr) (o : option Z)
    (port_name : pystr) :
  result (MIDILauncher_init tables verbosity ignore) = Ok launcher ->
  well_formed (OtherMessage t o) = true -> lower t = t ->
  result (handle_message launcher port_name (OtherMessage t o)) = Ok tt
  /\ dispatches (handle_message launcher port_name (OtherMessage t o)) = [].
Proof.
  intros Hl Hwf Ht.
  assert (Hc : forall c, In c (commands launcher) ->
                         result (match_message c (OtherMessage t o) port_name
                                   (verbosity_level launcher)) = Ok None).
  { intros c Hin.
    destruct (constructed_commands tables verbosity ignore launcher Hl c Hin)
      as (cfg & _ & Hr).
    destruct (valid_event (get cfg "event" PNone)) eqn:Hv.
    - destruct (Command_init_fields cfg c Hv Hr) as (_ & _ & _ & Hev & _).
      destruct (get cfg "event" PNone) as [| | s | | |] eqn:Eg; try discriminate.
      apply (other_event_no_match c s); [exact Hev |].
      destruct (str_eqb s (msg_type (OtherMessage t o))) eqn:E; [| reflexivity].
      apply str_eqb_eq in E. simpl in E. subst s.
      change (existsb (str_eqb (lower t)) kinds = true) in Hv. rewrite Ht in Hv.
      unfold well_formed in Hwf. rewrite Hv in Hwf. discriminate.
    - apply inactive_no_match.
      rewrite (Command_init_invalid cfg c Hv Hr). reflexivity. }
  assert (Hex : forall c, In c (commands launcher) ->
                          result (execute c (OtherMessage t o) port_name
                                    (verbosity_level launcher)) = Ok tt).
  { intros c Hin. apply no_match_is_quiet. apply Hc. exact Hin. }
  destruct (execute_all_returns (commands launcher) (OtherMessage t o) port_name
              (verbosity_level launcher) Hex) as [H1 H2].
  assert (Q : runs (effects (execute_all (commands launcher) (OtherMessage t o)
                               port_name (verbosity_level launcher))) = []).
  { rewrite H2, runs_flat_map.
    assert (G : forall cs, (forall c, In c cs -> In c (commands launcher)) ->
                flat_map (fun c => runs (effects (execute c (OtherMessage t o) port_name
                                                    (verbosity_level launcher)))) cs = []).
    { induction cs as [| c cs IH]; intros Hsub; [reflexivity |].
      simpl. rewrite IH by (intros c' Hc'; apply Hsub; right; exact Hc').
      rewrite app_nil_r.
      apply (no_match_is_quiet c (OtherMessage t o) port_name (verbosity_level launcher)).
      apply Hc. apply Hsub. left. reflexivity. }
    apply G. auto. }
  unfold handle_message.
  destruct (ignore_clock launcher && str_eqb (msg_type (OtherMessage t o)) (lit "clock")).
  - split; reflexivity.
  - unfold when. destruct (verbosity_level launcher >=? 2).
    + split.
      * rewrite result_bind. exact H1.
      * unfold dispatches. rewrite effects_bind. simpl result.
        rewrite runs_app, Q. reflexivity.
    + rewrite bind_ret_l. split; [exact H1 | exact Q].
Qed.

Lemma other_messages_launch_nothing_witness :
  exists launcher,
    result (MIDILauncher_init
              [[("event"%string, PStr (lit "note_on"));
                ("command"%string, PStr (lit "echo $VELOCITY"))]] 2 false)
    = Ok launcher
    /\ dispatches (handle_message launcher (lit "nanoPAD2") (OtherMessage (lit "clock") None))
       = [].
Proof.
  eexists. split; [vm_compute; reflexivity |].
  match goal with
  | |- dispatches (handle_message ?l ?p ?m) = _ =>
      exact (proj2 (other_messages_launch_nothing
                      [[("event"%string, PStr (lit "note_on"));
                        ("command"%string, PStr (lit "echo $VELOCITY"))]] 2 false
                      l (lit "clock") None p eq_refl eq_refl eq_refl))
  end.
Defined.

(** ** Commands without placeholder *)

Lemma is_prefix_absent (x : ascii) (old s : pystr) :
  char_in x s = false -> is_prefix (x :: old) s = false.
Proof.
  destruct s as [| c r]; [reflexivity |]. simpl.
  rewrite orb_false_iff. intros [E _]. rewrite E. reflexivity.
Qed.

Lemma replace_absent (x : ascii) (old new s : pystr) :
  char_in x s = false -> replace (x :: old) new s = s.
Proof.
  unfold replace. induction s as [| c r IH]; intros H; [reflexivity |].
  cbn [replace_from]. rewrite (is_prefix_absent x old (c :: r) H).
  simpl in H. apply orb_false_iff in H. destruct H as [_ H].
  rewrite (IH H). reflexivity.
Qed.

Lemma pieces_from_absent (x : ascii) (old s : pystr) :
  forall cur, char_in x s = false -> pieces_from (x :: old) 0 cur s = [cur ++ s].
Proof.
  induction s as [| c r IH]; intros cur H.
  - simpl. rewrite app_nil_r. reflexivity.
  - cbn [pieces_from]. rewrite (is_prefix_absent x old (c :: r) H).
    simpl in H. apply orb_false_iff in H. destruct H as [_ H].
    rewrite (IH _ H), <- app_assoc. reflexivity.
Qed.

Lemma substitute_plain (t : pystr) (value percentage : Z) (decimal : float) :
  char_in "$"%char t = false ->
  substitute t value percentage decimal = [Fmt (PStr t)].
Proof.
  intros H. unfold substitute.
  change (lit "$VELOCITY") with ("$"%char :: lit "VELOCITY").
  change (lit "$VALUE") with ("$"%char :: lit "VALUE").
  change (lit "$PERCENTAGE") with ("$"%char :: lit "PERCENTAGE").
  change (lit "$DECIMAL") with ("$"%char :: lit "DECIMAL").
  rewrite (replace_absent "$"%char (lit "VELOCITY") (str_of_int value) t H).
  rewrite (replace_absent "$"%char (lit "VALUE") (str_of_int value) t H).
  rewrite (replace_absent "$"%char (lit "PERCENTAGE") (str_of_int percentage) t H).
  unfold pieces. rewrite pieces_from_absent by exact H. reflexivity.
Qed.

(** X18: a command without the character [$] is launched as it is written:
    whenever the rule matches a message and [execute] returns, the command
    launched is the text of the [command] field, whatever the value of the
    message. *)
Theorem plain_command_is_launched_unchanged (c : Command) (t : pystr) (m : message)
    (p : pystr) (v value : Z) :
  command c = PStr t -> char_in "$"%char t = false ->
  result (match_message c m p v) = Ok (Some value) ->
  result (execute c m p v) = Ok tt ->
  dispatches (execute c m p v) = [[Fmt (PStr t)]].
Proof.
  intros Hc Ht Hm Hr. unfold execute in Hr |- *.
  rewrite (result_bind_ok _ _ (Some value) Hm) in Hr.
  destruct (launch_returns c value v tt Hr) as (pct & dec & t' & _ & _ & Hc' & E).
  rewrite Hc in Hc'. injection Hc' as <-.
  unfold dispatches. rewrite (effects_bind_ok _ _ (Some value) Hm), runs_app, E.
  pose proof (quiet_match_message c m p v) as Q. unfold quiet, dispatches in Q.
  rewrite Q, (substitute_plain t value pct dec Ht).
  destruct (negb (v =? 0)); reflexivity.
Qed.

Lemma plain_command_is_launched_unchanged_witness :
  dispatches
    (execute
       {| active := PInt 1; channels := int_list [1];
          command := PStr (lit "systemctl suspend");
          control := int_list []; event := PStr (lit "note_on");
          mapping := default_mapping; name := PNone; note := int_list [60];
          ports := PList [PStr (lit "all")]; values := int_list [];
          velocities := int_list [100] |}
       (NoteOn 0 60 100) (lit "nanoPAD2") 0)
  = [[Fmt (PStr (lit "systemctl suspend"))]].
Proof.
  match goal with
  | |- dispatches (execute ?c ?m ?p ?v) = _ =>
      exact (plain_command_is_launched_unchanged c (lit "systemctl suspend") m p v 100
               eq_refl eq_refl eq_refl eq_refl)
  end.
Defined.

(** ** The header text and the lists of integers *)

Lemma result_header (h : text) :
  result (error_header h) = Ok tt /\ result (warning_header h) = Ok tt.
Proof.
  unfold error_header, warning_header, when. destruct (text_truthy h); split; reflexivity.
Qed.

Lemma result_when_warning (b : bool) (h : text) (e : effect) :
  result (when b (warning_header h ;; emit e)) = Ok tt.
Proof.
  unfold when, warning_header. destruct b; [| reflexivity].
  destruct (text_truthy h); reflexivity.
Qed.

Lemma result_error {A} (h : text) (e : effect) (a : A) :
  result (error_header h ;; emit e ;; ret a) = Ok a.
Proof. unfold error_header, when. destruct (text_truthy h); reflexivity. Qed.

Lemma parse_item_header (dr : Z * Z) (h h' : text) (sep : ascii) (s : pystr) :
  result (parse_item dr h sep s) = result (parse_item dr h' sep s).
Proof.
  unfold parse_item.
  destruct (isdigit s).
  { rewrite !result_bind. destruct (result (int_ s)) as [n | e |]; try reflexivity.
    rewrite !result_bind, !result_when_warning. reflexivity. }
  destruct (match_colon_range (lower s)) as [[[start end_] step] |].
  - destruct (step_eq_zero _); [rewrite !result_error; reflexivity |].
    rewrite !result_bind. destruct (result (int_ start)) as [a | e |]; try reflexivity.
    rewrite !result_bind. destruct (result (int_ end_)) as [b | e |]; try reflexivity.
    destruct (a >? b); [rewrite !result_error; reflexivity |].
    rewrite !result_bind. destruct (result (int_step _)) as [st | e |]; try reflexivity.
    destruct (st <? 0).
    + rewrite !result_bind. destruct (result (int_ end_)) as [a' | e |]; try reflexivity.
      rewrite !result_bind. destruct (result (int_ start)) as [b' | e |]; try reflexivity.
      rewrite !result_bind, !result_when_warning. reflexivity.
    + rewrite !result_bind. destruct (result (int_ start)) as [a' | e |]; try reflexivity.
      rewrite !result_bind. destruct (result (int_ end_)) as [b' | e |]; try reflexivity.
      rewrite !result_bind, !result_when_warning. reflexivity.
  - destruct (char_in sep s); [| rewrite !result_error; reflexivity].
    destruct (match split_char sep s with
              | [start; end_] =>
                  match py_int start, py_int end_ with
                  | Some a, Some b => Some (a, b)
                  | _, _ => None
                  end
              | _ => None
              end) as [[start end_] |]; [| rewrite !result_error; reflexivity].
    destruct (start >? end_); [rewrite !result_error; reflexivity |].
    rewrite !result_bind, !result_when_warning. reflexivity.
Qed.

Lemma extend_all_result_ext {A} (f g : A -> M (list Z)) (items : list A) :
  forall acc,
    Forall (fun item => result (f item) = result (g item)) items ->
    result (extend_all f items acc) = result (extend_all g items acc).
Proof.
  induction items as [| item rest IH]; intros acc H; [reflexivity |].
  inversion H; subst. rewrite !extend_all_cons, !result_bind, H2.
  destruct (result (g item)); try reflexivity. apply IH. assumption.
Qed.

Lemma parse_str_header (dr : Z * Z) (h h' : text) (sep : ascii) (s : pystr) (f : nat) :
  result (parse_str dr h sep (S f) s) = result (parse_str dr h' sep (S f) s).
Proof.
  rewrite !parse_str_unfold.
  destruct (str_eqb s []); [reflexivity |].
  destruct (str_eqb s (lit "all")); [reflexivity |].
  destruct (1 <? List.length (re_split s))%nat; [| apply parse_item_header].
  apply extend_all_result_ext.
  eapply Forall_impl; [| apply (re_split_from_tokens s false []); reflexivity].
  intros item Hitem. destruct f as [| f]; [reflexivity |].
  rewrite !parse_str_token by exact Hitem.
  destruct (str_eqb item []); [reflexivity |].
  destruct (str_eqb item (lit "all")); [reflexivity |].
  apply parse_item_header.
Qed.

(** X19: the header text only changes the diagnostics: the list returned (or
    the exception raised) by [parse_user_input] is the same with any two
    header texts. *)
Theorem header_only_changes_diagnostics (dr : Z * Z) (h h' : text) (sep : ascii)
    (v : pyval) :
  result (parse_user_input dr h sep v) = result (parse_user_input dr h' sep v).
Proof.
  induction v as [n | f | s | l IH | k |] using pyval_nested_ind.
  - rewrite !parse_int_result. reflexivity.
  - cbn [parse_user_input]. rewrite !result_error. reflexivity.
  - apply parse_str_header.
  - rewrite !parse_list_unfold. apply extend_all_result_ext.
    apply Forall_forall. intros item Hin.
    rewrite Forall_forall in IH. specialize (IH item Hin).
    destruct item; try reflexivity; try exact IH.
    unfold warn_item. rewrite !result_bind, !result_when_warning. reflexivity.
  - cbn [parse_user_input]. rewrite !result_error. reflexivity.
  - cbn [parse_user_input]. rewrite !result_error. reflexivity.
Qed.

